(** * PC Maintenance Dashboard: duplicate finder, browser store mutator and
      temp cleaner.

    A shallow embedding of [duplicate_finder.py], of
    [BrowserCleaner._clear_sqlite_database] and of the cleanup part of
    [system_utils.py] ([FileCleanup]), with the properties stated about them.

    Conventions.
    - Python [int] is [Z]; counters are never negative but nothing relies on it.
    - [str] is [string]; [bytes] is a list of bytes.
    - The operating system is a parameter: a file system maps paths to what
      the system calls return on them.  An [OSError] coming from the system
      is a value of [OSErr]; Python's [PermissionError] and
      [FileNotFoundError] are the two subclasses the code tells apart.
    - A Python [dict] keeps insertion order: it is an association list with
      unique keys. *)

From Stdlib Require Import ZArith List Bool Ascii String Lia Permutation Sorted.
From stdpp Require Import base option list gmap strings pretty.

Local Open Scope Z_scope.

Set Warnings "-register-all,-abstract-large-number".

(** ** Python values shared by the three modules *)

Module Py.

(** The exception classes the handlers of the source distinguish. *)
Inductive OSErrKind := EPermission | ENotFound | EOther.

(** An [OSError] instance: its class and [str(e)]. *)
Record OSErr := mkOSErr { os_kind : OSErrKind; os_str : string }.

Inductive Exn :=
| OSError (e : OSErr)
| ValueError (msg : string)
| OtherException (msg : string).

Definition exn_str (e : Exn) : string :=
  match e with
  | OSError o => os_str o
  | ValueError m => m
  | OtherException m => m
  end.

Definition is_PermissionError (e : Exn) : bool :=
  match e with
  | OSError o => match os_kind o with EPermission => true | _ => false end
  | _ => false
  end.

Definition is_OSError (e : Exn) : bool :=
  match e with OSError _ => true | _ => false end.

Definition is_ValueError (e : Exn) : bool :=
  match e with ValueError _ => true | _ => false end.

(** What a system call gives: a value, or an [OSError]. *)
Inductive IO (A : Type) := Done (a : A) | Fail (e : OSErr).
Arguments Done {A} a.
Arguments Fail {A} e.

(** What a Python call gives: a value, or a raised exception. *)
Inductive Result (A : Type) := Ret (a : A) | Raise (e : Exn).
Arguments Ret {A} a.
Arguments Raise {A} e.

(** [s.startswith(p)], [needle in hay] and [s.endswith(p)] on strings. *)
Fixpoint startswith (p s : string) : bool :=
  match p, s with
  | EmptyString, _ => true
  | String a p', String b s' => if Ascii.eqb a b then startswith p' s' else false
  | String _ _, EmptyString => false
  end.

Fixpoint contains (needle hay : string) : bool :=
  if startswith needle hay then true
  else match hay with
       | EmptyString => false
       | String _ hay' => contains needle hay'
       end.

Definition endswith (p s : string) : bool :=
  startswith (String.rev p) (String.rev s).

(** [str.lower] on the ASCII letters. *)
Definition lower_ascii (c : ascii) : ascii :=
  let n := nat_of_ascii c in
  if ((65 <=? n)%nat && (n <=? 90)%nat)%bool then ascii_of_nat (n + 32) else c.

Fixpoint lower (s : string) : string :=
  match s with
  | EmptyString => EmptyString
  | String c s' => String (lower_ascii c) (lower s')
  end.

(** [os.path.join] of [posixpath] for two components. *)
Definition join (a b : string) : string :=
  if startswith "/" b then b
  else if (String.eqb a "" || endswith "/" a)%bool then (a +:+ b)
  else (a +:+ "/" +:+ b).

(** [x in xs] for a list or set of strings. *)
Definition str_in (x : string) (xs : list string) : bool :=
  existsb (String.eqb x) xs.

(** A statement that reads and writes a state of type [S], and returns or
    raises. *)
Definition St (S A : Type) : Type := S -> Result A * S.

Definition ret {S A} (a : A) : St S A := fun s => (Ret a, s).

Definition raise {S A} (e : Exn) : St S A := fun s => (Raise e, s).

Definition bind {S A B} (m : St S A) (k : A -> St S B) : St S B :=
  fun s =>
    match m s with
    | (Ret a, s') => k a s'
    | (Raise e, s') => (Raise e, s')
    end.

(** [try: body except Exception as e: handler]. *)
Definition try_except {S A} (body : St S A) (handler : Exn -> St S A) : St S A :=
  fun s =>
    match body s with
    | (Ret a, s') => (Ret a, s')
    | (Raise e, s') => handler e s'
    end.

Notation "'let!' x ':=' m 'in' k" := (bind m (fun x => k))
  (at level 10, x name, m at level 100, k at level 200).
Notation "'do!' m 'in' k" := (bind m (fun _ => k))
  (at level 10, m at level 100, k at level 200).

(** The final component of a path, read from its end, and
    [os.path.basename] of [posixpath]. *)
Fixpoint name_rev (r : string) : string :=
  match r with
  | EmptyString => EmptyString
  | String c r' => if Ascii.eqb c "/" then EmptyString else String c (name_rev r')
  end.

Definition basename (p : string) : string := String.rev (name_rev (String.rev p)).

End Py.
Export Py.

(** ** duplicate_finder.py *)

Module DuplicateFinder.

(** *** The file system the scan reads *)

(** The fields of [os.stat] the code reads.  The timestamps are floats in
    Python, and finite ones: they are compared as the numbers they denote,
    here integers. *)
Record Stat := mkStat {
  st_size : Z;
  st_mtime : Z;
  st_atime : Z;
  st_ctime : Z
}.

(** One [f.read(4096)]: the bytes read, or an error.  After the last step
    of the list [f.read] returns [b""]. *)
Inductive ReadStep := Chunk (data : list Byte.byte) | ReadFails (e : OSErr).

Record File := mkFile {
  f_stat : IO Stat;                (* os.stat, os.path.getsize, os.path.getmtime *)
  f_open : IO (list ReadStep);     (* open(path, "rb") and the reads that follow *)
  f_remove : IO unit               (* os.remove *)
}.

Abbreviation FileSys := (gmap string File).

Definition no_such_file : OSErr := mkOSErr ENotFound "No such file or directory".

Definition os_stat (fs : FileSys) (p : string) : IO Stat :=
  match fs !! p with
  | Some f => f_stat f
  | None => Fail no_such_file
  end.

Definition getsize (fs : FileSys) (p : string) : IO Z :=
  match os_stat fs p with Done s => Done (st_size s) | Fail e => Fail e end.

Definition getmtime (fs : FileSys) (p : string) : IO Z :=
  match os_stat fs p with Done s => Done (st_mtime s) | Fail e => Fail e end.

Definition path_exists (fs : FileSys) (p : string) : bool :=
  match os_stat fs p with Done _ => true | Fail _ => false end.

Definition open_rb (fs : FileSys) (p : string) : IO (list ReadStep) :=
  match fs !! p with
  | Some f => f_open f
  | None => Fail no_such_file
  end.

(** [os.remove]: the file is gone when the call succeeds. *)
Definition os_remove (fs : FileSys) (p : string) : IO unit * FileSys :=
  match fs !! p with
  | Some f =>
      match f_remove f with
      | Done _ => (Done tt, delete p fs)
      | Fail e => (Fail e, fs)
      end
  | None => (Fail no_such_file, fs)
  end.

(** A directory as [os.walk] sees it: sub-directories by name, and the
    names of the files. *)
Inductive DirTree := Dir (subdirs : list (string * DirTree)) (files : list string).

Section WithLibraries.

(** [hashlib.md5]: the hash object, [update] and [hexdigest]. *)
Context {HashState : Type}.
Variable md5_new : HashState.
Variable md5_update : HashState -> list Byte.byte -> HashState.
Variable md5_hexdigest : HashState -> string.

(** [time.ctime], and true division of two integers giving a float. *)
Variable ctime : Z -> string.
Context {float : Type}.
Variable truediv : Z -> Z -> float.

(** *** calculate_file_hash *)

Definition max_file_size : Z := 100 * 1024 * 1024.

(** The loop [for chunk in iter(lambda: f.read(4096), b"")], with the
    [return None] of the re-check, followed by [return hexdigest()]. *)
Fixpoint read_chunks (reads : list ReadStep) (hash_md5 : HashState) (bytes_read : Z)
  : IO (option string) :=
  match reads with
  | [] => Done (Some (md5_hexdigest hash_md5))
  | Chunk [] :: _ => Done (Some (md5_hexdigest hash_md5))
  | Chunk chunk :: rest =>
      let hash_md5 := md5_update hash_md5 chunk in
      let bytes_read := bytes_read + Z.of_nat (length chunk) in
      if bytes_read >? max_file_size then Done None
      else read_chunks rest hash_md5 bytes_read
  | ReadFails e :: _ => Fail e
  end.

(** The [try] body of [calculate_file_hash]. *)
Definition hash_body (fs : FileSys) (file_path : string) : IO (option string) :=
  match getsize fs file_path with
  | Fail e => Fail e
  | Done file_size =>
      if file_size >? max_file_size then Done None
      else match open_rb fs file_path with
           | Fail e => Fail e
           | Done reads => read_chunks reads md5_new 0
           end
  end.

(** [except (OSError, PermissionError): return None].  The calls of the body
    raise nothing but [OSError], which the handler catches whatever its
    subclass: the method returns on every path, a digest or [None]. *)
Definition calculate_file_hash (fs : FileSys) (file_path : string) : option string :=
  match hash_body fs file_path with
  | Done r => r
  | Fail _ => None
  end.

(** *** get_file_info *)

Record FileInfo := mkFileInfo {
  fi_path : string;
  fi_size : Z;
  fi_modified : string;
  fi_accessed : string;
  fi_created : string;
  fi_size_mb : float
}.

(** The dictionary [get_file_info] builds from the result of [os.stat]. *)
Definition file_info (file_path : string) (stat : Stat) : FileInfo :=
  {| fi_path := file_path;
     fi_size := st_size stat;
     fi_modified := ctime (st_mtime stat);
     fi_accessed := ctime (st_atime stat);
     fi_created := ctime (st_ctime stat);
     fi_size_mb := truediv (st_size stat) (1024 ^ 2) |}.

Definition get_file_info (fs : FileSys) (file_path : string) : option FileInfo :=
  match os_stat fs file_path with
  | Done stat => Some (file_info file_path stat)
  | Fail _ => None
  end.

(** *** The dictionaries of the session *)

Definition Dict : Type := list (string * list FileInfo).

Fixpoint dict_get (d : Dict) (k : string) : option (list FileInfo) :=
  match d with
  | [] => None
  | (k', v) :: d' => if String.eqb k' k then Some v else dict_get d' k
  end.

(** [d[k] = v]: an existing key keeps its place, a new one goes last. *)
Fixpoint dict_set (d : Dict) (k : string) (v : list FileInfo) : Dict :=
  match d with
  | [] => [(k, v)]
  | (k', v') :: d' =>
      if String.eqb k' k then (k, v) :: d' else (k', v') :: dict_set d' k v
  end.

(** [file_hashes[k].append(x)] on a [defaultdict(list)]. *)
Definition bucket_append (d : Dict) (k : string) (x : FileInfo) : Dict :=
  dict_set d k (default [] (dict_get d k) ++ [x]).

Definition keys (d : Dict) : list string := map fst d.

(** The fields of a [DuplicateFinder] object. *)
Record Finder := mkFinder {
  file_hashes : Dict;
  scanned_files : Z;
  total_files : Z;
  duplicates_found : Dict;
  total_duplicate_size : Z
}.

(** [__init__]. *)
Definition init : Finder :=
  {| file_hashes := []; scanned_files := 0; total_files := 0;
     duplicates_found := []; total_duplicate_size := 0 |}.

(** *** The walk, with the pruning both loops apply to [dirs] *)

Definition skipped_dirs : list string :=
  [ "system volume information"; "$recycle.bin"; "windows"; "program files";
    "program files (x86)"; "appdata\local\temp"; "temp" ]%string.

Definition keep_dir (d : string) : bool :=
  negb (startswith "." d) && negb (str_in (lower d) skipped_dirs).

(** [os.walk(top)], top-down, descending only into the directories kept:
    the pairs [(root, files)] in the order they are yielded. *)
Fixpoint walk (top : string) (t : DirTree) : list (string * list string) :=
  match t with
  | Dir subdirs files =>
      (top, files) ::
      (fix descend (ds : list (string * DirTree)) : list (string * list string) :=
         match ds with
         | [] => []
         | (d, sub) :: ds' =>
             if keep_dir d then walk (join top d) sub ++ descend ds'
             else descend ds'
         end) subdirs
  end.

(** [Path(p).suffix]: from the last dot of the final component, unless
    that dot is its first or its last character. *)
Fixpoint upto (stop : ascii) (r : string) : option (string * string) :=
  match r with
  | EmptyString => None
  | String c r' =>
      if Ascii.eqb c stop then Some (String c EmptyString, r')
      else match upto stop r' with
           | Some (p, rest) => Some (String c p, rest)
           | None => None
           end
  end.

Definition suffix (p : string) : string :=
  match upto "." (name_rev (String.rev p)) with
  | Some (rsuf, rest) =>
      if (1 <? Z.of_nat (String.length rsuf)) && negb (String.eqb rest "")
      then String.rev rsuf else ""%string
  | None => ""%string
  end.

(** [if extensions: ... if file_ext not in extensions: continue]. *)
Definition extension_rejected (extensions : option (list string)) (file_path : string) : bool :=
  match extensions with
  | None | Some [] => false
  | Some exts => negb (str_in (lower (suffix file_path)) exts)
  end.

(** *** get_duplicate_summary *)

Inductive Number := PyInt (n : Z) | PyFloat (x : float).

Record Summary := mkSummary {
  total_duplicates : Z;
  duplicate_groups : Z;
  potential_savings_mb : Number;
  potential_savings_gb : Number;
  summary_scanned_files : option Z
}.

Definition get_duplicate_summary (self : Finder) : Summary :=
  match duplicates_found self with
  | [] =>
      {| total_duplicates := 0; duplicate_groups := 0;
         potential_savings_mb := PyInt 0; potential_savings_gb := PyInt 0;
         summary_scanned_files := None |}
  | _ =>
      {| total_duplicates :=
           fold_left (fun acc kv => acc + (Z.of_nat (length (snd kv)) - 1))
                     (duplicates_found self) 0;
         duplicate_groups := Z.of_nat (length (duplicates_found self));
         potential_savings_mb := PyFloat (truediv (total_duplicate_size self) (1024 ^ 2));
         potential_savings_gb := PyFloat (truediv (total_duplicate_size self) (1024 ^ 3));
         summary_scanned_files := Some (scanned_files self) |}
  end.

(** *** delete_selected_duplicates *)

Record DeleteResult := mkDeleteResult {
  deleted_files : Z;
  deleted_size_mb : float;
  errors : list string
}.

Definition cannot_delete (file_path : string) (e : OSErr) : string :=
  ("Cannot delete " +:+ file_path +:+ ": " +:+ os_str e)%string.

Fixpoint delete_loop (selected_files : list string) (fs : FileSys)
    (deleted_files deleted_size : Z) (errors : list string)
  : FileSys * Z * Z * list string :=
  match selected_files with
  | [] => (fs, deleted_files, deleted_size, errors)
  | file_path :: rest =>
      if path_exists fs file_path then
        match getsize fs file_path with
        | Fail e =>
            delete_loop rest fs deleted_files deleted_size
                        (errors ++ [cannot_delete file_path e])
        | Done file_size =>
            match os_remove fs file_path with
            | (Done _, fs) =>
                delete_loop rest fs (deleted_files + 1) (deleted_size + file_size) errors
            | (Fail e, fs) =>
                delete_loop rest fs deleted_files deleted_size
                            (errors ++ [cannot_delete file_path e])
            end
        end
      else delete_loop rest fs deleted_files deleted_size errors
  end.

(** The method reads and writes the disk; [self] is passed through. *)
Definition delete_selected_duplicates (selected_files : list string)
    (self : Finder) (fs : FileSys) : DeleteResult * Finder * FileSys :=
  let '(fs, deleted_files, deleted_size, errors) :=
    delete_loop selected_files fs 0 0 [] in
  ({| deleted_files := deleted_files;
      deleted_size_mb := truediv deleted_size (1024 ^ 2);
      errors := errors |}, self, fs).

(** *** count_files_in_directory *)

Definition max_files : Z := 10000.

(** A loop body either goes on with its state or returns from the
    function. *)
Inductive Loop (A R : Type) := Next (a : A) | Return (r : R).
Arguments Next {A R} a.
Arguments Return {A R} r.

Section Scan.

Variable fs : FileSys.
Variable extensions : option (list string).
Variable min_size : Z.

Fixpoint count_files (root : string) (files : list string) (count : Z) : Loop Z Z :=
  match files with
  | [] => Next count
  | file :: rest =>
      if count >=? max_files then Return max_files
      else if startswith "." file then count_files root rest count
      else
        let file_path := join root file in
        match getsize fs file_path with
        | Fail _ => count_files root rest count
        | Done file_size =>
            if file_size <? min_size then count_files root rest count
            else if extension_rejected extensions file_path
                 then count_files root rest count
                 else count_files root rest (count + 1)
        end
  end.

Fixpoint count_walk (entries : list (string * list string)) (count : Z) : Loop Z Z :=
  match entries with
  | [] => Next count
  | (root, files) :: rest =>
      match count_files root files count with
      | Return r => Return r
      | Next count => count_walk rest count
      end
  end.

Definition count_files_in_directory (directory : string) (tree : DirTree) : Z :=
  match count_walk (walk directory tree) 0 with
  | Return r => r
  | Next count => count
  end.

(** *** scan_directory *)

Definition max_scan_files : Z := 10000.

Definition set_file_hashes (self : Finder) (d : Dict) : Finder :=
  {| file_hashes := d; scanned_files := scanned_files self;
     total_files := total_files self; duplicates_found := duplicates_found self;
     total_duplicate_size := total_duplicate_size self |}.

Definition set_scanned_files (self : Finder) (n : Z) : Finder :=
  {| file_hashes := file_hashes self; scanned_files := n;
     total_files := total_files self; duplicates_found := duplicates_found self;
     total_duplicate_size := total_duplicate_size self |}.

Definition set_total_files (self : Finder) (n : Z) : Finder :=
  {| file_hashes := file_hashes self; scanned_files := scanned_files self;
     total_files := n; duplicates_found := duplicates_found self;
     total_duplicate_size := total_duplicate_size self |}.

Definition set_duplicates_found (self : Finder) (d : Dict) : Finder :=
  {| file_hashes := file_hashes self; scanned_files := scanned_files self;
     total_files := total_files self; duplicates_found := d;
     total_duplicate_size := total_duplicate_size self |}.

Definition set_total_duplicate_size (self : Finder) (n : Z) : Finder :=
  {| file_hashes := file_hashes self; scanned_files := scanned_files self;
     total_files := total_files self; duplicates_found := duplicates_found self;
     total_duplicate_size := n |}.

(** The statements from [# Calculate hash] to [self.scanned_files += 1].
    A [hexdigest] is a [str]: [if file_hash] also rejects the empty one. *)
Definition hash_and_record (file_path : string) (self : Finder) : Finder :=
  let self :=
    match calculate_file_hash fs file_path with
    | Some file_hash =>
        if String.eqb file_hash "" then self
        else match get_file_info fs file_path with
             | Some file_info =>
                 set_file_hashes self (bucket_append (file_hashes self) file_hash file_info)
             | None => self
             end
    | None => self
    end in
  set_scanned_files self (scanned_files self + 1).

(** The inner loop [for file in files].  The progress callback only
    observes the counters and is not part of the state. *)
Fixpoint scan_files (root : string) (files : list string) (self : Finder) : Finder :=
  match files with
  | [] => self
  | file :: rest =>
      if scanned_files self >=? max_scan_files then self
      else if startswith "." file then scan_files root rest self
      else
        let file_path := join root file in
        match getsize fs file_path with
        | Fail _ => scan_files root rest self
        | Done file_size =>
            if file_size <? min_size then scan_files root rest self
            else if extension_rejected extensions file_path
                 then scan_files root rest self
                 else scan_files root rest (hash_and_record file_path self)
        end
  end.

(** The outer loop over [os.walk], left when the limit is reached. *)
Fixpoint scan_walk (entries : list (string * list string)) (self : Finder) : Finder :=
  match entries with
  | [] => self
  | (root, files) :: rest =>
      let self := scan_files root files self in
      if scanned_files self >=? max_scan_files then self
      else scan_walk rest self
  end.

(** [files.sort(key=lambda x: os.path.getmtime(x['path']), reverse=True)]:
    the keys are computed first (one failure leaves the list as it was and
    propagates), then the list is sorted on them, largest first, equal keys
    staying in their order. *)
Fixpoint sort_keys (files : list FileInfo) : IO (list (Z * FileInfo)) :=
  match files with
  | [] => Done []
  | x :: files' =>
      match getmtime fs (fi_path x) with
      | Fail e => Fail e
      | Done k =>
          match sort_keys files' with
          | Fail e => Fail e
          | Done ks => Done ((k, x) :: ks)
          end
      end
  end.

Fixpoint insert_desc (x : Z * FileInfo) (l : list (Z * FileInfo)) : list (Z * FileInfo) :=
  match l with
  | [] => [x]
  | y :: l' => if fst x <? fst y then y :: insert_desc x l' else x :: y :: l'
  end.

Fixpoint sort_desc (l : list (Z * FileInfo)) : list (Z * FileInfo) :=
  match l with
  | [] => []
  | x :: l' => insert_desc x (sort_desc l')
  end.

Definition sort_by_mtime (files : list FileInfo) : IO (list FileInfo) :=
  match sort_keys files with
  | Fail e => Fail e
  | Done ks => Done (map snd (sort_desc ks))
  end.

(** [for file_info in files[1:]: self.total_duplicate_size += file_info['size']]. *)
Definition add_sizes (files : list FileInfo) (total : Z) : Z :=
  fold_left (fun total file_info => total + fi_size file_info) files total.

(** The loop [for file_hash, files in self.file_hashes.items()].  The sort
    is in place, so the lists of [file_hashes] change with it: the result
    is the items after the loop, the local [duplicates], the size
    accumulated, and the error of [getmtime] if one stopped the loop. *)
Fixpoint find_duplicates (items : Dict) (duplicates : Dict) (total : Z)
  : Dict * Dict * Z * option OSErr :=
  match items with
  | [] => ([], duplicates, total, None)
  | (file_hash, files) :: rest =>
      if Z.of_nat (length files) >? 1 then
        match sort_by_mtime files with
        | Fail e => (items, duplicates, total, Some e)
        | Done files =>
            let duplicates := dict_set duplicates file_hash files in
            let total := add_sizes (tail files) total in
            let '(rest, duplicates, total, err) := find_duplicates rest duplicates total in
            ((file_hash, files) :: rest, duplicates, total, err)
        end
      else
        let '(rest, duplicates, total, err) := find_duplicates rest duplicates total in
        ((file_hash, files) :: rest, duplicates, total, err)
  end.

Definition scan_directory (directory : string) (tree : DirTree) (self : Finder)
  : Result Dict * Finder :=
  let self :=
    {| file_hashes := []; scanned_files := 0; total_files := total_files self;
       duplicates_found := []; total_duplicate_size := 0 |} in
  let self := set_total_files self (count_files_in_directory directory tree) in
  if total_files self =? 0 then (Ret [], self)
  else
    let self := scan_walk (walk directory tree) self in
    let '(items, duplicates, total, err) :=
      find_duplicates (file_hashes self) [] (total_duplicate_size self) in
    let self := set_total_duplicate_size (set_file_hashes self items) total in
    match err with
    | Some e => (Raise (OSError e), self)
    | None => (Ret duplicates, set_duplicates_found self duplicates)
    end.

(** *** Properties of the hasher *)

Definition total_length (chunks : list (list Byte.byte)) : Z :=
  fold_right (fun c n => Z.of_nat (length c) + n) 0 chunks.

Definition nonempty_chunks (chunks : list (list Byte.byte)) : bool :=
  forallb (fun c => negb (Nat.eqb (length c) 0)) chunks.

Lemma total_length_nonneg chunks : 0 <= total_length chunks.
Proof. induction chunks as [|c cs IH]; simpl; lia. Qed.

(** Chunks that stay within the limit are all fed to the hash. *)
Lemma read_chunks_within_limit chunks :
  forall h n,
    nonempty_chunks chunks = true ->
    n + total_length chunks <= max_file_size ->
    read_chunks (map Chunk chunks) h n
    = Done (Some (md5_hexdigest (fold_left md5_update chunks h))).
Proof.
  induction chunks as [|c cs IH]; intros h n Hne Hlen; simpl in *.
  - reflexivity.
  - apply andb_prop in Hne as [Hc Hcs].
    destruct c as [|b c']; [discriminate|].
    pose proof (total_length_nonneg cs) as Hpos.
    destruct (Z.gtb_spec (n + Z.of_nat (length (b :: c'))) max_file_size) as [Hgt|Hle].
    + lia.
    + apply IH; [assumption|lia].
Qed.

(** A failing read that is reached ends the loop without a digest:
    either the limit was passed before it, or the error is what comes
    out. *)
Lemma read_chunks_error chunks e rest :
  forall h n,
    nonempty_chunks chunks = true ->
    read_chunks (map Chunk chunks ++ ReadFails e :: rest) h n = Done None
    \/ exists e', read_chunks (map Chunk chunks ++ ReadFails e :: rest) h n = Fail e'.
Proof.
  induction chunks as [|c cs IH]; intros h n Hne; simpl in *.
  - right. eauto.
  - apply andb_prop in Hne as [Hc Hcs].
    destruct c as [|b c']; [discriminate|].
    destruct (n + Z.of_nat (length (b :: c')) >? max_file_size); [by left|].
    by apply IH.
Qed.

Lemma hash_none_of_large p sz :
  getsize fs p = Done sz -> max_file_size < sz -> calculate_file_hash fs p = None.
Proof.
  intros Hsz Hgt. unfold calculate_file_hash, hash_body. rewrite Hsz.
  destruct (Z.gtb_spec sz max_file_size); [reflexivity|lia].
Qed.

Lemma hash_none_of_stat_error p e :
  getsize fs p = Fail e -> calculate_file_hash fs p = None.
Proof. intros H. unfold calculate_file_hash, hash_body. by rewrite H. Qed.

Lemma hash_none_of_open_error p e :
  open_rb fs p = Fail e -> calculate_file_hash fs p = None.
Proof.
  intros H. unfold calculate_file_hash, hash_body. rewrite H.
  destruct (getsize fs p); [|reflexivity].
  by destruct (a >? max_file_size).
Qed.

Lemma hash_none_of_read_error p chunks e rest :
  open_rb fs p = Done (map Chunk chunks ++ ReadFails e :: rest) ->
  nonempty_chunks chunks = true ->
  calculate_file_hash fs p = None.
Proof.
  intros Hopen Hne. unfold calculate_file_hash, hash_body. rewrite Hopen.
  destruct (getsize fs p); [|reflexivity].
  destruct (a >? max_file_size); [reflexivity|].
  destruct (read_chunks_error chunks e rest md5_new 0 Hne) as [H|[e' H]];
    by rewrite H.
Qed.

(** C9. A file of exactly 100 * 1024 * 1024 bytes, read without error in
    non-empty chunks, is hashed: [calculate_file_hash] returns the digest
    of all its chunks, not [None].  Both size checks are strict. *)
Theorem hash_at_cutoff_is_computed (file_path : string)
    (chunks : list (list Byte.byte)) :
  getsize fs file_path = Done (100 * 1024 * 1024) ->
  open_rb fs file_path = Done (map Chunk chunks) ->
  nonempty_chunks chunks = true ->
  total_length chunks = 100 * 1024 * 1024 ->
  calculate_file_hash fs file_path
  = Some (md5_hexdigest (fold_left md5_update chunks md5_new)).
Proof.
  intros Hsize Hopen Hne Hlen.
  unfold calculate_file_hash, hash_body.
  rewrite Hsize, Hopen.
  change (100 * 1024 * 1024 >? max_file_size) with false. cbv iota.
  rewrite read_chunks_within_limit; [reflexivity|assumption|].
  rewrite Hlen. unfold max_file_size. lia.
Qed.

(** *** Properties of the dictionaries *)

Lemma dict_get_elem (d : Dict) k v : dict_get d k = Some v -> (k, v) ∈ d.
Proof.
  induction d as [|[k' v'] d IH]; simpl; [discriminate|].
  destruct (String.eqb_spec k' k) as [->|Hne].
  - intros [= ->]. left.
  - intros H. right. by apply IH.
Qed.

Lemma dict_get_None (d : Dict) k : dict_get d k = None -> k ∉ keys d.
Proof.
  induction d as [|[k' v'] d IH]; simpl.
  - intros _ H. inversion H.
  - destruct (String.eqb_spec k' k) as [->|Hne]; [discriminate|].
    intros H Hin. apply elem_of_cons in Hin as [Heq|Hin]; [congruence|].
    by apply IH.
Qed.

Lemma dict_set_elem (d : Dict) k v k' v' :
  (k', v') ∈ dict_set d k v -> (k' = k /\ v' = v) \/ (k', v') ∈ d.
Proof.
  induction d as [|[k0 v0] d IH]; simpl.
  - intros H. apply list_elem_of_singleton in H. left. by inversion H.
  - destruct (String.eqb_spec k0 k) as [->|Hne]; intros H;
      apply elem_of_cons in H as [Heq|Hin].
    + left. by inversion Heq.
    + right. by right.
    + right. rewrite Heq. left.
    + destruct (IH Hin) as [?|?]; [by left|right; by right].
Qed.

(** Setting a key that is not there appends the pair. *)
Lemma dict_set_fresh (d : Dict) k v : k ∉ keys d -> dict_set d k v = d ++ [(k, v)].
Proof.
  induction d as [|[k0 v0] d IH]; simpl; [reflexivity|].
  intros Hnin. apply not_elem_of_cons in Hnin as [Hne Hnin].
  destruct (String.eqb_spec k0 k) as [->|_]; [congruence|].
  by rewrite IH.
Qed.

Lemma dict_set_present (d : Dict) k v :
  k ∈ keys d -> keys (dict_set d k v) = keys d.
Proof.
  induction d as [|[k0 v0] d IH]; simpl.
  - intros H. inversion H.
  - destruct (String.eqb_spec k0 k) as [->|Hne]; [reflexivity|].
    intros H. apply elem_of_cons in H as [Heq|Hin]; [congruence|].
    simpl. f_equal. by apply IH.
Qed.

Lemma dict_set_keys_NoDup (d : Dict) k v : NoDup (keys d) -> NoDup (keys (dict_set d k v)).
Proof.
  intros Hnd. destruct (decide (k ∈ keys d)) as [Hin|Hnin].
  - by rewrite dict_set_present.
  - rewrite dict_set_fresh by assumption. unfold keys. rewrite map_app. simpl.
    apply NoDup_app. split; [assumption|]. split; [|apply NoDup_singleton].
    intros x Hx Hx'. apply list_elem_of_singleton in Hx'. by subst.
Qed.

(** Keys are unique, so a key has one bucket. *)
Lemma dict_elem_unique (d : Dict) k v v' :
  NoDup (keys d) -> (k, v) ∈ d -> (k, v') ∈ d -> v = v'.
Proof.
  induction d as [|[k0 v0] d IH]; simpl; intros Hnd H H'.
  - inversion H.
  - apply NoDup_cons in Hnd as [Hnin Hnd].
    apply elem_of_cons in H as [Heq|Hin]; apply elem_of_cons in H' as [Heq'|Hin'].
    + congruence.
    + inversion Heq; subst. exfalso. apply Hnin.
      apply list_elem_of_fmap. by exists (k0, v').
    + inversion Heq'; subst. exfalso. apply Hnin.
      apply list_elem_of_fmap. by exists (k0, v).
    + by apply IH.
Qed.

(** *** What the scan loop records, and how far it counts *)

(** [m] was appended under the digest [h]: [h] is the hash the scan
    computed for the file at [m]'s path, and [m] is its [get_file_info]. *)
Definition recorded (h : string) (m : FileInfo) : Prop :=
  calculate_file_hash fs (fi_path m) = Some h /\ get_file_info fs (fi_path m) = Some m.

Definition buckets_recorded (d : Dict) : Prop :=
  forall h g, (h, g) ∈ d -> Forall (recorded h) g.

Definition session_ok (self : Finder) : Prop :=
  NoDup (keys (file_hashes self)) /\ buckets_recorded (file_hashes self).

Lemma get_file_info_path p m : get_file_info fs p = Some m -> fi_path m = p.
Proof.
  unfold get_file_info. destruct (os_stat fs p); [|discriminate].
  by intros [= <-].
Qed.

Lemma bucket_append_recorded d k x :
  buckets_recorded d -> recorded k x -> buckets_recorded (bucket_append d k x).
Proof.
  intros Hd Hx h g Hin. unfold bucket_append in Hin.
  apply dict_set_elem in Hin as [[-> ->]|Hin].
  - apply Forall_app. split; [|constructor; [exact Hx|constructor]].
    destruct (dict_get d k) as [b|] eqn:E; simpl; [|constructor].
    apply (Hd k). by apply dict_get_elem.
  - by apply (Hd h).
Qed.

Lemma hash_and_record_ok p self : session_ok self -> session_ok (hash_and_record p self).
Proof.
  intros [Hnd Hrec]. unfold hash_and_record.
  destruct (calculate_file_hash fs p) as [h|] eqn:Hh; [|by split].
  destruct (String.eqb h ""); [by split|].
  destruct (get_file_info fs p) as [m|] eqn:Hm; [|by split].
  pose proof (get_file_info_path _ _ Hm) as Hp.
  split; simpl.
  - by apply dict_set_keys_NoDup.
  - apply bucket_append_recorded; [assumption|].
    unfold recorded. by rewrite Hp.
Qed.

Lemma hash_and_record_scanned p self :
  scanned_files (hash_and_record p self) = scanned_files self + 1.
Proof.
  unfold hash_and_record.
  destruct (calculate_file_hash fs p) as [h|]; [|reflexivity].
  destruct (String.eqb h ""); [reflexivity|].
  by destruct (get_file_info fs p).
Qed.

Lemma hash_and_record_total p self :
  total_files (hash_and_record p self) = total_files self
  /\ total_duplicate_size (hash_and_record p self) = total_duplicate_size self.
Proof.
  unfold hash_and_record.
  destruct (calculate_file_hash fs p) as [h|]; [|by split].
  destruct (String.eqb h ""); [by split|].
  by destruct (get_file_info fs p).
Qed.

(** A file both loops count: not hidden, its size can be read and is at
    least [min_size], and its extension is accepted. *)
Definition eligible (root file : string) : bool :=
  negb (startswith "." file) &&
  match getsize fs (join root file) with
  | Done file_size =>
      negb (file_size <? min_size) && negb (extension_rejected extensions (join root file))
  | Fail _ => false
  end.

Definition eligible_in (root : string) (files : list string) : Z :=
  Z.of_nat (length (List.filter (eligible root) files)).

Definition eligible_total (entries : list (string * list string)) : Z :=
  fold_right (fun entry n => eligible_in (fst entry) (snd entry) + n) 0 entries.

(** The number of eligible files under [directory]. *)
Definition eligible_file_count (directory : string) (tree : DirTree) : Z :=
  eligible_total (walk directory tree).

Lemma eligible_in_nonneg root files : 0 <= eligible_in root files.
Proof. unfold eligible_in. lia. Qed.

Lemma eligible_total_nonneg entries : 0 <= eligible_total entries.
Proof.
  induction entries as [|[root files] entries IH]; simpl; [lia|].
  pose proof (eligible_in_nonneg root files). lia.
Qed.

Lemma eligible_in_cons root file files :
  eligible_in root (file :: files)
  = (if eligible root file then 1 else 0) + eligible_in root files.
Proof.
  unfold eligible_in. simpl. destruct (eligible root file); simpl length; lia.
Qed.

Ltac eligible_cases root file :=
  rewrite (eligible_in_cons root file); unfold eligible;
  destruct (startswith "." file); simpl;
  [|destruct (getsize fs (join root file)) as [file_size|]; simpl;
    [destruct (file_size <? min_size); simpl;
     [|destruct (extension_rejected extensions (join root file)); simpl]|]].

Lemma count_files_spec root files :
  forall count, count <= max_files ->
    match count_files root files count with
    | Next count' => count' = count + eligible_in root files /\ count' <= max_files
    | Return r => r = max_files /\ max_files <= count + eligible_in root files
    end.
Proof.
  induction files as [|file files IH]; intros count Hle.
  - simpl. unfold eligible_in. simpl. lia.
  - cbn [count_files].
    pose proof (eligible_in_nonneg root files) as Hpos.
    destruct (Z.geb_spec count max_files) as [Hge|Hlt].
    { rewrite eligible_in_cons. destruct (eligible root file); lia. }
    eligible_cases root file;
      try (specialize (IH count Hle); destruct (count_files root files count); lia).
    assert (count + 1 <= max_files) as Hle' by lia.
    specialize (IH (count + 1) Hle').
    destruct (count_files root files (count + 1)); lia.
Qed.

Lemma count_walk_spec entries :
  forall count, count <= max_files ->
    match count_walk entries count with
    | Next count' => count' = count + eligible_total entries /\ count' <= max_files
    | Return r => r = max_files /\ max_files <= count + eligible_total entries
    end.
Proof.
  induction entries as [|[root files] entries IH]; intros count Hle.
  - simpl. lia.
  - cbn [count_walk eligible_total fold_right fst snd].
    fold (eligible_total entries).
    pose proof (eligible_total_nonneg entries) as Hpos.
    pose proof (count_files_spec root files count Hle) as Hf.
    destruct (count_files root files count) as [count'|r]; [|lia].
    destruct Hf as [-> Hle'].
    specialize (IH _ Hle').
    destruct (count_walk entries (count + eligible_in root files)); lia.
Qed.

(** The pre-count is the number of eligible files, capped at the limit. *)
Lemma count_files_in_directory_spec directory tree :
  count_files_in_directory directory tree
  = Z.min (eligible_file_count directory tree) max_files.
Proof.
  unfold count_files_in_directory, eligible_file_count.
  assert (0 <= max_files) as H0 by (unfold max_files; lia).
  pose proof (count_walk_spec (walk directory tree) 0 H0) as H.
  destruct (count_walk (walk directory tree) 0); lia.
Qed.

Lemma scan_files_ok root files :
  forall self, session_ok self -> session_ok (scan_files root files self).
Proof.
  induction files as [|file files IH]; intros self Hok; [exact Hok|].
  cbn [scan_files].
  destruct (scanned_files self >=? max_scan_files); [exact Hok|].
  destruct (startswith "." file); [by apply IH|].
  destruct (getsize fs (join root file)) as [file_size|]; [|by apply IH].
  destruct (file_size <? min_size); [by apply IH|].
  destruct (extension_rejected extensions (join root file)); [by apply IH|].
  apply IH. by apply hash_and_record_ok.
Qed.

Lemma scan_walk_ok entries :
  forall self, session_ok self -> session_ok (scan_walk entries self).
Proof.
  induction entries as [|[root files] entries IH]; intros self Hok; [exact Hok|].
  cbn [scan_walk].
  pose proof (scan_files_ok root files self Hok) as Hok'.
  destruct (scanned_files (scan_files root files self) >=? max_scan_files);
    [exact Hok'|by apply IH].
Qed.

Lemma scan_files_frame root files :
  forall self,
    total_files (scan_files root files self) = total_files self
    /\ total_duplicate_size (scan_files root files self) = total_duplicate_size self.
Proof.
  induction files as [|file files IH]; intros self; [by split|].
  cbn [scan_files].
  destruct (scanned_files self >=? max_scan_files); [by split|].
  destruct (startswith "." file); [apply IH|].
  destruct (getsize fs (join root file)) as [file_size|]; [|apply IH].
  destruct (file_size <? min_size); [apply IH|].
  destruct (extension_rejected extensions (join root file)); [apply IH|].
  destruct (IH (hash_and_record (join root file) self)) as [-> ->].
  apply hash_and_record_total.
Qed.

Lemma scan_walk_frame entries :
  forall self,
    total_files (scan_walk entries self) = total_files self
    /\ total_duplicate_size (scan_walk entries self) = total_duplicate_size self.
Proof.
  induction entries as [|[root files] entries IH]; intros self; [by split|].
  cbn [scan_walk].
  pose proof (scan_files_frame root files self) as [Ht Hd].
  destruct (scanned_files (scan_files root files self) >=? max_scan_files);
    [by split|].
  destruct (IH (scan_files root files self)) as [-> ->]. by split.
Qed.

(** The inner loop counts the eligible files it meets and stops at the
    limit. *)
Lemma scan_files_scanned root files :
  forall self, scanned_files self <= max_scan_files ->
    scanned_files (scan_files root files self)
    = Z.min (scanned_files self + eligible_in root files) max_scan_files.
Proof.
  induction files as [|file files IH]; intros self Hle.
  - simpl. unfold eligible_in. simpl. lia.
  - cbn [scan_files].
    pose proof (eligible_in_nonneg root files) as Hpos.
    destruct (Z.geb_spec (scanned_files self) max_scan_files) as [Hge|Hlt].
    { rewrite eligible_in_cons. destruct (eligible root file); lia. }
    eligible_cases root file; try (rewrite (IH self Hle); lia).
    rewrite IH; rewrite hash_and_record_scanned; lia.
Qed.

Lemma scan_walk_scanned entries :
  forall self, scanned_files self <= max_scan_files ->
    scanned_files (scan_walk entries self)
    = Z.min (scanned_files self + eligible_total entries) max_scan_files.
Proof.
  induction entries as [|[root files] entries IH]; intros self Hle.
  - simpl. lia.
  - cbn [scan_walk eligible_total fold_right fst snd].
    fold (eligible_total entries).
    pose proof (eligible_total_nonneg entries) as Hpos.
    pose proof (eligible_in_nonneg root files) as Hpos'.
    pose proof (scan_files_scanned root files self Hle) as Hs.
    destruct (Z.geb_spec (scanned_files (scan_files root files self)) max_scan_files)
      as [Hge|Hlt]; [lia|].
    rewrite IH by lia. lia.
Qed.

(** *** The sort *)

Definition has_mtime (m : FileInfo) : Prop :=
  exists t, getmtime fs (fi_path m) = Done t.

Definition keyed (kx : Z * FileInfo) : Prop :=
  getmtime fs (fi_path (snd kx)) = Done (fst kx).

Definition newer_first (a b : Z * FileInfo) : Prop := fst b <= fst a.

Lemma sort_keys_total files :
  Forall has_mtime files -> exists ks, sort_keys files = Done ks.
Proof.
  induction 1 as [|m files [t Ht] _ [ks IH]]; simpl; [by eexists|].
  rewrite Ht, IH. by eexists.
Qed.

Lemma sort_keys_spec files :
  forall ks, sort_keys files = Done ks -> map snd ks = files /\ Forall keyed ks.
Proof.
  induction files as [|m files IH]; simpl; intros ks Hks.
  - injection Hks as <-. by split.
  - destruct (getmtime fs (fi_path m)) as [t|] eqn:Ht; [|discriminate].
    destruct (sort_keys files) as [ks'|]; [|discriminate].
    injection Hks as <-. destruct (IH ks' eq_refl) as [Hmap Hkeyed].
    split; simpl; [by rewrite Hmap|]. by constructor.
Qed.

Lemma insert_desc_perm x l : insert_desc x l ≡ₚ x :: l.
Proof.
  induction l as [|y l IH]; simpl; [reflexivity|].
  destruct (fst x <? fst y); [|reflexivity].
  rewrite IH. apply Permutation_swap.
Qed.

Lemma sort_desc_perm l : sort_desc l ≡ₚ l.
Proof.
  induction l as [|x l IH]; simpl; [reflexivity|].
  by rewrite insert_desc_perm, IH.
Qed.

Lemma insert_desc_HdRel a x l :
  HdRel newer_first a l -> newer_first a x -> HdRel newer_first a (insert_desc x l).
Proof.
  destruct l as [|y l]; simpl; intros Hl Hx; [by constructor|].
  destruct (fst x <? fst y); constructor; [by inversion Hl|assumption].
Qed.

Lemma insert_desc_sorted x l :
  Sorted newer_first l -> Sorted newer_first (insert_desc x l).
Proof.
  induction 1 as [|y l Hsorted IH Hhd]; simpl; [by repeat constructor|].
  destruct (Z.ltb_spec (fst x) (fst y)) as [Hlt|Hge].
  - constructor; [assumption|].
    apply insert_desc_HdRel; [assumption|]. unfold newer_first. lia.
  - constructor; [by constructor|]. by constructor.
Qed.

Lemma sort_desc_sorted l : Sorted newer_first (sort_desc l).
Proof.
  induction l as [|x l IH]; simpl; [constructor|by apply insert_desc_sorted].
Qed.

Lemma Sorted_adjacent {A} (R : A -> A -> Prop) (l : list A) :
  Sorted R l -> forall i a b, l !! i = Some a -> l !! S i = Some b -> R a b.
Proof.
  induction 1 as [|x l Hsorted IH Hhd]; intros i a b Ha Hb; [discriminate|].
  destruct i as [|i]; simpl in *.
  - injection Ha as <-. destruct l as [|y l]; [discriminate|].
    simpl in Hb. injection Hb as <-. by inversion Hhd.
  - by apply (IH i).
Qed.

(** Neighbours of a list in the order of the sort: the earlier one was
    modified last, by [os.path.getmtime] on their paths. *)
Definition by_mtime_descending (g : list FileInfo) : Prop :=
  forall i a b, g !! i = Some a -> g !! S i = Some b ->
    exists ta tb, getmtime fs (fi_path a) = Done ta
                  /\ getmtime fs (fi_path b) = Done tb /\ tb <= ta.

Lemma sort_by_mtime_spec files g :
  sort_by_mtime files = Done g -> g ≡ₚ files /\ by_mtime_descending g.
Proof.
  unfold sort_by_mtime. destruct (sort_keys files) as [ks|] eqn:Hks; [|discriminate].
  intros [= <-]. destruct (sort_keys_spec files ks Hks) as [Hmap Hkeyed].
  split.
  - rewrite <- Hmap. apply fmap_Permutation, sort_desc_perm.
  - intros i a b Ha Hb.
    change (map snd (sort_desc ks)) with (snd <$> sort_desc ks) in Ha, Hb.
    rewrite list_lookup_fmap in Ha, Hb.
    destruct (sort_desc ks !! i) as [[ta a']|] eqn:Ea; [|discriminate].
    destruct (sort_desc ks !! S i) as [[tb b']|] eqn:Eb; [|discriminate].
    simpl in Ha, Hb. injection Ha as ->. injection Hb as ->.
    assert (Forall keyed (sort_desc ks)) as Hk
      by (by rewrite sort_desc_perm).
    rewrite Forall_forall in Hk.
    exists ta, tb. split; [|split].
    + apply (Hk (ta, a)). by eapply list_elem_of_lookup_2.
    + apply (Hk (tb, b)). by eapply list_elem_of_lookup_2.
    + apply (Sorted_adjacent _ _ (sort_desc_sorted ks) i (ta, a) (tb, b) Ea Eb).
Qed.

Lemma sort_by_mtime_total files :
  Forall has_mtime files -> exists g, sort_by_mtime files = Done g.
Proof.
  intros H. destruct (sort_keys_total files H) as [ks Hks].
  unfold sort_by_mtime. rewrite Hks. by eexists.
Qed.

Lemma recorded_has_mtime h m : recorded h m -> has_mtime m.
Proof.
  intros [_ Hinfo]. unfold get_file_info in Hinfo. unfold has_mtime, getmtime.
  destruct (os_stat fs (fi_path m)); [by eexists|discriminate].
Qed.

(** *** The grouping *)

Definition sum_sizes (files : list FileInfo) : Z :=
  fold_right (fun m n => fi_size m + n) 0 files.

(** The sizes of all members but the first, over all groups. *)
Definition reclaimable (d : Dict) : Z :=
  fold_right (fun kv n => sum_sizes (tail (snd kv)) + n) 0 d.

Lemma add_sizes_sum files : forall total, add_sizes files total = total + sum_sizes files.
Proof.
  unfold add_sizes. induction files as [|m files IH]; intros total; simpl; [lia|].
  rewrite IH. lia.
Qed.

Lemma reclaimable_app d d' : reclaimable (d ++ d') = reclaimable d + reclaimable d'.
Proof. induction d as [|kv d IH]; simpl; [reflexivity|]. rewrite IH. lia. Qed.

(** A bucket after the loop: the same key, the same members. *)
Definition same_bucket (kv kv' : string * list FileInfo) : Prop :=
  fst kv = fst kv' /\ snd kv' ≡ₚ snd kv.

(** Where a group comes from: a bucket of more than one file, sorted. *)
Definition group_of (items : Dict) (h : string) (g : list FileInfo) : Prop :=
  exists files, (h, files) ∈ items /\ 1 < Z.of_nat (length files)
                /\ sort_by_mtime files = Done g.

Lemma find_duplicates_spec items :
  forall duplicates total,
    NoDup (keys items) ->
    (forall k, k ∈ keys items -> k ∉ keys duplicates) ->
    Forall (fun kv => Forall has_mtime (snd kv)) items ->
    exists items' new,
      find_duplicates items duplicates total
      = (items', duplicates ++ new, total + reclaimable new, None)
      /\ Forall2 same_bucket items items'
      /\ forall h g, (h, g) ∈ new -> group_of items h g.
Proof.
  induction items as [|[h files] items IH]; intros duplicates total Hnd Hfresh Hmt.
  - exists [], []. simpl. rewrite app_nil_r, Z.add_0_r.
    repeat split; [constructor|]. intros h g Hin. inversion Hin.
  - simpl in Hnd. apply NoDup_cons in Hnd as [Hh Hnd].
    apply Forall_cons in Hmt as [Hfiles Hmt].
    assert (forall d, (forall k, k ∈ keys ((h, files) :: items) -> k ∉ keys d) ->
                      forall k, k ∈ keys items -> k ∉ keys d) as Hrest.
    { intros d Hd k Hk. apply Hd. simpl. by right. }
    cbn [find_duplicates].
    destruct (Z.gtb_spec (Z.of_nat (length files)) 1) as [Hlen|Hlen].
    + destruct (sort_by_mtime_total files Hfiles) as [g Hg]. rewrite Hg.
      assert (h ∉ keys duplicates) as Hnew by (apply Hfresh; simpl; left).
      rewrite (dict_set_fresh duplicates h g Hnew).
      destruct (IH (duplicates ++ [(h, g)]) (add_sizes (tail g) total) Hnd)
        as (items' & new & Heq & Hsame & Hgroups); [|assumption|].
      { intros k Hk. unfold keys. rewrite map_app. simpl.
        rewrite elem_of_app, list_elem_of_singleton.
        intros [Hin| ->]; [by apply (Hrest duplicates Hfresh k)|contradiction]. }
      rewrite Heq. exists ((h, g) :: items'), ((h, g) :: new).
      split; [|split].
      * rewrite add_sizes_sum. simpl. rewrite <- app_assoc. simpl.
        do 2 f_equal. lia.
      * constructor; [|assumption]. split; [reflexivity|].
        by apply sort_by_mtime_spec.
      * intros h' g' Hin. apply elem_of_cons in Hin as [Heq'|Hin].
        -- injection Heq' as -> ->. exists files. split; [left|]. split; [lia|assumption].
        -- destruct (Hgroups h' g' Hin) as (files' & Hin' & Hlen' & Hsort).
           exists files'. split; [by right|by split].
    + destruct (IH duplicates total Hnd (Hrest duplicates Hfresh) Hmt)
        as (items' & new & Heq & Hsame & Hgroups).
      rewrite Heq. exists ((h, files) :: items'), new.
      split; [reflexivity|]. split.
      * constructor; [|assumption]. by split.
      * intros h' g' Hin. destruct (Hgroups h' g' Hin) as (files' & Hin' & Hlen' & Hsort).
        exists files'. split; [by right|by split].
Qed.

Lemma same_bucket_keys items items' :
  Forall2 same_bucket items items' -> keys items' = keys items.
Proof.
  induction 1 as [|kv kv' items items' [Hk _] _ IH]; simpl; [reflexivity|].
  by rewrite Hk, IH.
Qed.

Lemma same_bucket_elem items items' :
  Forall2 same_bucket items items' ->
  forall h files, (h, files) ∈ items ->
    exists files', (h, files') ∈ items' /\ files' ≡ₚ files.
Proof.
  induction 1 as [|[k v] [k' v'] items items' [Hk Hv] _ IH]; intros h files Hin.
  - inversion Hin.
  - simpl in Hk, Hv. subst k'.
    apply elem_of_cons in Hin as [Heq|Hin].
    + injection Heq as -> ->. exists v'. split; [left|assumption].
    + destruct (IH h files Hin) as (files' & Hin' & Hperm).
      exists files'. split; [by right|assumption].
Qed.

(** *** scan_directory as a whole *)

(** What holds of a finished scan: the mapping returned, the session left,
    and the facts that relate them. *)
Record ScanFacts (directory : string) (tree : DirTree)
    (duplicates : Dict) (self' : Finder) : Prop := {
  facts_found : duplicates_found self' = duplicates;
  facts_total : total_files self' = Z.min (eligible_file_count directory tree) max_files;
  facts_scanned :
    total_files self' <> 0 ->
    scanned_files self' = Z.min (eligible_file_count directory tree) max_scan_files;
  facts_size : total_duplicate_size self' = reclaimable duplicates;
  facts_keys : NoDup (keys (file_hashes self'));
  facts_groups :
    forall h g, (h, g) ∈ duplicates ->
      exists files, (h, files) ∈ file_hashes self' /\ g ≡ₚ files
                    /\ 1 < Z.of_nat (length g)
                    /\ Forall (recorded h) g /\ by_mtime_descending g
}.

Lemma scan_directory_facts directory tree self :
  exists duplicates self',
    scan_directory directory tree self = (Ret duplicates, self')
    /\ ScanFacts directory tree duplicates self'.
Proof.
  unfold scan_directory.
  set (fresh := set_total_files _ _).
  assert (total_files fresh = Z.min (eligible_file_count directory tree) max_files) as Htot
    by apply count_files_in_directory_spec.
  destruct (Z.eqb_spec (total_files fresh) 0) as [Hzero|Hnz].
  { exists [], fresh. split; [reflexivity|].
    split; try done. - constructor. - intros h g Hin. inversion Hin. }
  set (scanned := scan_walk (walk directory tree) fresh).
  assert (session_ok scanned) as [Hnd Hrec].
  { apply scan_walk_ok. split; simpl; [constructor|]. intros h g Hin. inversion Hin. }
  destruct (scan_walk_frame (walk directory tree) fresh) as [Htf Hds].
  fold scanned in Htf, Hds.
  assert (scanned_files scanned
          = Z.min (eligible_file_count directory tree) max_scan_files) as Hsc.
  { unfold scanned. rewrite scan_walk_scanned; [reflexivity|].
    simpl. unfold max_scan_files. lia. }
  destruct (find_duplicates_spec (file_hashes scanned) [] (total_duplicate_size scanned) Hnd)
    as (items' & new & Heq & Hsame & Hgroups).
  { intros k _ Hk. inversion Hk. }
  { rewrite Forall_forall. intros [h g] Hin. simpl.
    eapply Forall_impl; [exact (Hrec h g Hin)|]. intros m. apply recorded_has_mtime. }
  rewrite Heq. simpl app.
  eexists new, _. split; [reflexivity|].
  split; simpl.
  - reflexivity.
  - by rewrite Htf.
  - intros _. exact Hsc.
  - rewrite Hds. simpl. lia.
  - rewrite (same_bucket_keys _ _ Hsame). exact Hnd.
  - intros h g Hin. destruct (Hgroups h g Hin) as (files & Hin' & Hlen & Hsort).
    destruct (sort_by_mtime_spec files g Hsort) as [Hperm Hdesc].
    destruct (same_bucket_elem _ _ Hsame h files Hin') as (files' & Hin'' & Hperm').
    exists files'. split; [assumption|]. split; [by rewrite Hperm, Hperm'|].
    split; [by rewrite Hperm|]. split; [|assumption].
    rewrite Hperm. exact (Hrec h files Hin').
Qed.

(** *** One step of the scan, for running it on a given directory *)

Lemma scan_files_eligible root file rest self file_size :
  scanned_files self < max_scan_files ->
  startswith "." file = false ->
  getsize fs (join root file) = Done file_size ->
  min_size <= file_size ->
  extension_rejected extensions (join root file) = false ->
  scan_files root (file :: rest) self
  = scan_files root rest (hash_and_record (join root file) self).
Proof.
  intros Hlt Hdot Hsize Hmin Hext. cbn [scan_files].
  destruct (Z.geb_spec (scanned_files self) max_scan_files); [lia|].
  rewrite Hdot, Hsize, Hext.
  destruct (Z.ltb_spec file_size min_size); [lia|reflexivity].
Qed.

Lemma hash_and_record_hashed p self h stat :
  calculate_file_hash fs p = Some h -> h <> ""%string ->
  os_stat fs p = Done stat ->
  hash_and_record p self
  = set_scanned_files
      (set_file_hashes self (bucket_append (file_hashes self) h (file_info p stat)))
      (scanned_files self + 1).
Proof.
  intros Hh Hne Hstat. unfold hash_and_record, get_file_info. rewrite Hh, Hstat.
  destruct (String.eqb_spec h ""); [contradiction|reflexivity].
Qed.

Lemma hash_and_record_unhashed p self h :
  calculate_file_hash fs p = Some h -> h = ""%string ->
  hash_and_record p self = set_scanned_files self (scanned_files self + 1).
Proof.
  intros Hh ->. unfold hash_and_record. by rewrite Hh.
Qed.

(** The hash of a file read in one chunk. *)
Lemma hash_of_single_chunk p stat c :
  os_stat fs p = Done stat -> st_size stat <= max_file_size ->
  open_rb fs p = Done [Chunk c] ->
  c <> [] -> Z.of_nat (length c) <= max_file_size ->
  calculate_file_hash fs p = Some (md5_hexdigest (md5_update md5_new c)).
Proof.
  intros Hstat Hsize Hopen Hc Hlen.
  unfold calculate_file_hash, hash_body, getsize. rewrite Hstat, Hopen.
  destruct (Z.gtb_spec (st_size stat) max_file_size); [lia|].
  rewrite (read_chunks_within_limit [c]); [reflexivity| |simpl; lia].
  simpl. destruct c; [contradiction|reflexivity].
Qed.

(** *** The scan as one equation *)

(** The session after the reset and the pre-count. *)
Definition reset_and_count (directory : string) (tree : DirTree) (self : Finder) : Finder :=
  set_total_files
    {| file_hashes := []; scanned_files := 0; total_files := total_files self;
       duplicates_found := []; total_duplicate_size := 0 |}
    (count_files_in_directory directory tree).

(** What the last loop does to one bucket, and which buckets it returns. *)
Definition sort_bucket (kv : string * list FileInfo) : string * list FileInfo :=
  if Z.of_nat (length (snd kv)) >? 1 then
    match sort_by_mtime (snd kv) with
    | Done g => (fst kv, g)
    | Fail _ => kv
    end
  else kv.

Definition is_group (kv : string * list FileInfo) : bool :=
  Z.of_nat (length (snd kv)) >? 1.

Lemma find_duplicates_exact items :
  forall duplicates total,
    NoDup (keys items) ->
    (forall k, k ∈ keys items -> k ∉ keys duplicates) ->
    Forall (fun kv => Forall has_mtime (snd kv)) items ->
    find_duplicates items duplicates total
    = (map sort_bucket items,
       duplicates ++ List.filter is_group (map sort_bucket items),
       total + reclaimable (List.filter is_group (map sort_bucket items)),
       None).
Proof.
  induction items as [|[h files] items IH]; intros duplicates total Hnd Hfresh Hmt.
  - simpl. by rewrite app_nil_r, Z.add_0_r.
  - simpl in Hnd. apply NoDup_cons in Hnd as [Hh Hnd].
    apply Forall_cons in Hmt as [Hfiles Hmt].
    cbn [find_duplicates map].
    destruct (Z.gtb_spec (Z.of_nat (length files)) 1) as [Hlen|Hlen].
    + destruct (sort_by_mtime_total files Hfiles) as [g Hg]. rewrite Hg.
      assert (length g = length files) as Hlg
        by (apply Permutation_length; by apply sort_by_mtime_spec).
      assert (sort_bucket (h, files) = (h, g)) as ->.
      { unfold sort_bucket. cbn [fst snd]. rewrite Hg.
        by destruct (Z.gtb_spec (Z.of_nat (length files)) 1); [|lia]. }
      assert (is_group (h, g) = true) as Hbig.
      { unfold is_group. cbn [snd]. rewrite Hlg.
        by destruct (Z.gtb_spec (Z.of_nat (length files)) 1); [|lia]. }
      cbn [List.filter]. rewrite Hbig.
      assert (h ∉ keys duplicates) as Hnew by (apply Hfresh; simpl; left).
      rewrite (dict_set_fresh duplicates h g Hnew).
      rewrite (IH (duplicates ++ [(h, g)]) (add_sizes (tail g) total) Hnd); [|
        |assumption].
      * rewrite add_sizes_sum. simpl. rewrite <- app_assoc. simpl.
        do 2 f_equal. lia.
      * intros k Hk. unfold keys. rewrite map_app. simpl.
        rewrite elem_of_app, list_elem_of_singleton.
        intros [Hin| ->]; [|contradiction].
        apply (Hfresh k); [simpl; by right|assumption].
    + assert (sort_bucket (h, files) = (h, files)) as ->.
      { unfold sort_bucket. cbn [fst snd].
        by destruct (Z.gtb_spec (Z.of_nat (length files)) 1); [lia|]. }
      assert (is_group (h, files) = false) as Hsmall.
      { unfold is_group. cbn [snd].
        by destruct (Z.gtb_spec (Z.of_nat (length files)) 1); [lia|]. }
      cbn [List.filter]. rewrite Hsmall.
      rewrite (IH duplicates total Hnd); [reflexivity| |assumption].
      intros k Hk. apply Hfresh. simpl. by right.
Qed.

Lemma scan_directory_run directory tree self :
  let fresh := reset_and_count directory tree self in
  let scanned := scan_walk (walk directory tree) fresh in
  let items := map sort_bucket (file_hashes scanned) in
  let duplicates := List.filter is_group items in
  scan_directory directory tree self
  = if total_files fresh =? 0 then (Ret [], fresh)
    else (Ret duplicates,
          {| file_hashes := items; scanned_files := scanned_files scanned;
             total_files := total_files fresh; duplicates_found := duplicates;
             total_duplicate_size := reclaimable duplicates |}).
Proof.
  intros fresh scanned items duplicates.
  unfold scan_directory. fold (reset_and_count directory tree self). fold fresh.
  destruct (total_files fresh =? 0); [reflexivity|].
  fold scanned.
  assert (session_ok scanned) as [Hnd Hrec].
  { apply scan_walk_ok. split; simpl; [constructor|]. intros h g Hin. inversion Hin. }
  destruct (scan_walk_frame (walk directory tree) fresh) as [Htf Hds].
  fold scanned in Htf, Hds.
  rewrite (find_duplicates_exact (file_hashes scanned) [] (total_duplicate_size scanned) Hnd).
  - fold items. fold duplicates. rewrite Hds. simpl.
    unfold set_duplicates_found, set_total_duplicate_size, set_file_hashes. simpl.
    by rewrite Htf.
  - intros k _ Hk. inversion Hk.
  - rewrite Forall_forall. intros [h g] Hin. simpl.
    eapply Forall_impl; [exact (Hrec h g Hin)|]. intros m. apply recorded_has_mtime.
Qed.

(** The loop over the walk, as an induction: what holds of the session
    before it and is kept by the recording of each eligible file holds after
    it. *)
Lemma scan_files_invariant (P : Finder -> Prop) root files :
  (forall file self, file ∈ files -> eligible root file = true ->
     P self -> P (hash_and_record (join root file) self)) ->
  forall self, P self -> P (scan_files root files self).
Proof.
  induction files as [|file files IH]; intros Hstep self HP; [exact HP|].
  assert (forall f s, f ∈ files -> eligible root f = true ->
            P s -> P (hash_and_record (join root f) s)) as Hstep'.
  { intros f s Hf. apply Hstep. by right. }
  cbn [scan_files].
  destruct (scanned_files self >=? max_scan_files); [exact HP|].
  pose proof (Hstep file self (list_elem_of_here _ _)) as Hhere.
  unfold eligible in Hhere.
  destruct (startswith "." file); [by apply IH|].
  destruct (getsize fs (join root file)) as [file_size|]; [|by apply IH].
  destruct (file_size <? min_size); [by apply IH|].
  destruct (extension_rejected extensions (join root file)); [by apply IH|].
  apply IH; [assumption|]. by apply Hhere.
Qed.

Lemma scan_walk_invariant (P : Finder -> Prop) entries :
  (forall root files file self, (root, files) ∈ entries -> file ∈ files ->
     eligible root file = true -> P self -> P (hash_and_record (join root file) self)) ->
  forall self, P self -> P (scan_walk entries self).
Proof.
  induction entries as [|[root files] entries IH]; intros Hstep self HP; [exact HP|].
  cbn [scan_walk].
  assert (P (scan_files root files self)) as HP'.
  { apply scan_files_invariant; [|assumption].
    intros file s Hfile. apply (Hstep root files). left. exact Hfile. }
  destruct (scanned_files (scan_files root files self) >=? max_scan_files);
    [exact HP'|].
  apply IH; [|assumption].
  intros r fl f s Hin. apply Hstep. by right.
Qed.

(** *** Lookup after an update of a dictionary *)

Lemma dict_get_set (d : Dict) k v k' :
  dict_get (dict_set d k v) k' = if String.eqb k k' then Some v else dict_get d k'.
Proof.
  induction d as [|[k0 v0] d IH]; simpl.
  - reflexivity.
  - destruct (String.eqb_spec k0 k) as [->|Hne]; simpl.
    + by destruct (String.eqb_spec k k').
    + rewrite IH. destruct (String.eqb_spec k0 k') as [->|Hne'].
      * destruct (String.eqb_spec k k'); [congruence|reflexivity].
      * reflexivity.
Qed.

Lemma dict_get_bucket_append (d : Dict) k x k' :
  dict_get (bucket_append d k x) k'
  = if String.eqb k k' then Some (default [] (dict_get d k) ++ [x]) else dict_get d k'.
Proof. unfold bucket_append. apply dict_get_set. Qed.

(** *** Where the members of a bucket come from *)

(** [m] is the record of an eligible file of the walk. *)
Definition from_walk (entries : list (string * list string)) (m : FileInfo) : Prop :=
  exists root files file,
    (root, files) ∈ entries /\ file ∈ files /\ eligible root file = true
    /\ fi_path m = join root file.

Lemma bucket_append_members d k x h g m :
  (h, g) ∈ bucket_append d k x -> m ∈ g ->
  m = x \/ exists g0, (h, g0) ∈ d /\ m ∈ g0.
Proof.
  intros Hin Hm. unfold bucket_append in Hin.
  apply dict_set_elem in Hin as [[-> ->]|Hin].
  - apply elem_of_app in Hm as [Hm|Hm].
    + right. destruct (dict_get d k) as [g0|] eqn:Hget; simpl in Hm.
      * exists g0. split; [by apply dict_get_elem|assumption].
      * inversion Hm.
    + left. by apply list_elem_of_singleton in Hm.
  - right. by exists g.
Qed.

Lemma scan_walk_from_walk entries self :
  (forall h g m, (h, g) ∈ file_hashes self -> m ∈ g -> from_walk entries m) ->
  forall h g m, (h, g) ∈ file_hashes (scan_walk entries self) -> m ∈ g ->
    from_walk entries m.
Proof.
  intros Hstart.
  apply (scan_walk_invariant
           (fun s => forall h g m, (h, g) ∈ file_hashes s -> m ∈ g -> from_walk entries m));
    [|exact Hstart].
  intros root files file s Hentry Hfile Helig HP h g m Hin Hm.
  unfold hash_and_record in Hin.
  destruct (calculate_file_hash fs (join root file)) as [d|]; [|by apply (HP h g)].
  destruct (String.eqb d ""); [by apply (HP h g)|].
  destruct (get_file_info fs (join root file)) as [info|] eqn:Hinfo; [|by apply (HP h g)].
  simpl in Hin.
  destruct (bucket_append_members _ _ _ _ _ _ Hin Hm) as [->|(g0 & Hin0 & Hm0)].
  - exists root, files, file. repeat split; try assumption.
    by apply get_file_info_path.
  - by apply (HP h g0).
Qed.

(** *** Which files end up in a bucket *)

(** The file at [p], if it has a digest and can be described, is in the
    bucket of its digest. *)
Definition indexed (self : Finder) (p : string) : Prop :=
  forall h stat,
    calculate_file_hash fs p = Some h -> h <> ""%string -> os_stat fs p = Done stat ->
    exists g, dict_get (file_hashes self) h = Some g /\ file_info p stat ∈ g.

Lemma hash_and_record_keeps p q self : indexed self p -> indexed (hash_and_record q self) p.
Proof.
  intros Hp h stat Hh Hne Hstat. destruct (Hp h stat Hh Hne Hstat) as (g & Hget & Hin).
  unfold hash_and_record.
  destruct (calculate_file_hash fs q) as [d|]; [|by exists g].
  destruct (String.eqb d ""); [by exists g|].
  destruct (get_file_info fs q) as [info|]; [|by exists g].
  simpl. rewrite dict_get_bucket_append.
  destruct (String.eqb_spec d h) as [->|_]; [|by exists g].
  rewrite Hget. simpl. eexists. split; [reflexivity|].
  apply elem_of_app. by left.
Qed.

Lemma hash_and_record_indexes p self : indexed (hash_and_record p self) p.
Proof.
  intros h stat Hh Hne Hstat. unfold hash_and_record, get_file_info.
  rewrite Hh, Hstat. destruct (String.eqb_spec h ""); [contradiction|].
  simpl. rewrite dict_get_bucket_append, String.eqb_refl.
  eexists. split; [reflexivity|]. apply elem_of_app. right. left.
Qed.

Lemma eligible_in_zero root files :
  eligible_in root files <= 0 -> forall file, file ∈ files -> eligible root file = false.
Proof.
  induction files as [|f files IH]; intros Hz file Hin; [inversion Hin|].
  rewrite eligible_in_cons in Hz. pose proof (eligible_in_nonneg root files).
  destruct (eligible root f) eqn:Hf; [lia|].
  apply elem_of_cons in Hin as [->|Hin]; [assumption|]. apply IH; [lia|assumption].
Qed.

Lemma eligible_total_zero entries :
  eligible_total entries <= 0 ->
  forall root files file, (root, files) ∈ entries -> file ∈ files ->
    eligible root file = false.
Proof.
  induction entries as [|[r fl] entries IH]; intros Hz root files file Hin Hfile;
    [inversion Hin|].
  cbn [eligible_total fold_right fst snd] in Hz. fold (eligible_total entries) in Hz.
  pose proof (eligible_total_nonneg entries). pose proof (eligible_in_nonneg r fl).
  apply elem_of_cons in Hin as [Heq|Hin].
  - injection Heq as -> ->. apply (eligible_in_zero r fl); [lia|assumption].
  - apply (IH ltac:(lia) root files file Hin Hfile).
Qed.

Lemma scan_files_step root file files self :
  scanned_files self < max_scan_files ->
  scan_files root (file :: files) self
  = scan_files root files
      (if eligible root file then hash_and_record (join root file) self else self).
Proof.
  intros Hlt. cbn [scan_files]. unfold eligible.
  destruct (Z.geb_spec (scanned_files self) max_scan_files); [lia|].
  destruct (startswith "." file); [reflexivity|].
  destruct (getsize fs (join root file)) as [file_size|]; [|reflexivity].
  destruct (file_size <? min_size); [reflexivity|].
  by destruct (extension_rejected extensions (join root file)).
Qed.

(** Below the limit the inner loop indexes every eligible file it is
    given. *)
Lemma scan_files_covers root files :
  forall self,
    scanned_files self + eligible_in root files <= max_scan_files ->
    (forall p, indexed self p -> indexed (scan_files root files self) p)
    /\ (forall file, file ∈ files -> eligible root file = true ->
          indexed (scan_files root files self) (join root file)).
Proof.
  induction files as [|file files IH]; intros self Hle.
  - split; [done|]. intros file Hin. inversion Hin.
  - pose proof (eligible_in_nonneg root files) as Hpos.
    destruct (Z.lt_ge_cases (scanned_files self) max_scan_files) as [Hlt|Hge].
    + rewrite (scan_files_step root file files self Hlt).
      rewrite eligible_in_cons in Hle.
      destruct (eligible root file) eqn:Helig.
      * destruct (IH (hash_and_record (join root file) self)) as [Hkeep Hnew].
        { rewrite hash_and_record_scanned. lia. }
        split.
        -- intros p Hp. by apply Hkeep, hash_and_record_keeps.
        -- intros f Hf Hf'. apply elem_of_cons in Hf as [->|Hf].
           ++ apply Hkeep, hash_and_record_indexes.
           ++ by apply Hnew.
      * destruct (IH self) as [Hkeep Hnew]; [lia|].
        split; [exact Hkeep|].
        intros f Hf Hf'. apply elem_of_cons in Hf as [->|Hf]; [congruence|].
        by apply Hnew.
    + assert (scan_files root (file :: files) self = self) as ->.
      { cbn [scan_files]. by destruct (Z.geb_spec (scanned_files self) max_scan_files); [|lia]. }
      split; [done|]. intros f Hf Helig.
      rewrite (eligible_in_zero root (file :: files)) in Helig; [discriminate|lia|assumption].
Qed.

Lemma scan_walk_covers entries :
  forall self,
    scanned_files self <= max_scan_files ->
    scanned_files self + eligible_total entries <= max_scan_files ->
    (forall p, indexed self p -> indexed (scan_walk entries self) p)
    /\ (forall root files file, (root, files) ∈ entries -> file ∈ files ->
          eligible root file = true ->
          indexed (scan_walk entries self) (join root file)).
Proof.
  induction entries as [|[r fl] entries IH]; intros self Hmax Hle.
  - split; [done|]. intros root files file Hin. inversion Hin.
  - cbn [eligible_total fold_right fst snd] in Hle. fold (eligible_total entries) in Hle.
    pose proof (eligible_total_nonneg entries) as Hpos.
    pose proof (eligible_in_nonneg r fl) as Hpos'.
    cbn [scan_walk].
    destruct (scan_files_covers r fl self) as [Hkeep Hnew]; [lia|].
    pose proof (scan_files_scanned r fl self Hmax) as Hs.
    destruct (Z.geb_spec (scanned_files (scan_files r fl self)) max_scan_files) as [Hge|Hlt].
    + split; [exact Hkeep|].
      intros root files file Hin Hfile Helig.
      apply elem_of_cons in Hin as [Heq|Hin].
      * injection Heq as -> ->. by apply Hnew.
      * rewrite (eligible_total_zero entries ltac:(lia) root files file Hin Hfile) in Helig.
        discriminate.
    + destruct (IH (scan_files r fl self)) as [Hkeep' Hnew']; [lia|lia|].
      split.
      * intros p Hp. by apply Hkeep', Hkeep.
      * intros root files file Hin Hfile Helig.
        apply elem_of_cons in Hin as [Heq|Hin].
        -- injection Heq as -> ->. by apply Hkeep', Hnew.
        -- by apply (Hnew' root files file).
Qed.

(** *** The buckets returned *)

Lemma sort_bucket_same kv :
  fst (sort_bucket kv) = fst kv /\ snd (sort_bucket kv) ≡ₚ snd kv.
Proof.
  unfold sort_bucket. destruct (Z.of_nat (length (snd kv)) >? 1); [|done].
  destruct (sort_by_mtime (snd kv)) as [g|] eqn:Hg; [|done].
  split; [reflexivity|]. by apply sort_by_mtime_spec.
Qed.

Lemma is_group_sort_bucket kv : is_group (sort_bucket kv) = is_group kv.
Proof.
  unfold is_group. destruct (sort_bucket_same kv) as [_ Hperm].
  by rewrite (Permutation_length Hperm).
Qed.

Lemma group_elem items h g :
  (h, g) ∈ List.filter is_group (map sort_bucket items) ->
  exists files, (h, files) ∈ items /\ g ≡ₚ files /\ (2 <= length g)%nat.
Proof.
  intros Hin. apply list_elem_of_In, filter_In in Hin as [Hin Hbig].
  apply in_map_iff in Hin as ([k files] & Heq & Hin).
  destruct (sort_bucket_same (k, files)) as [Hk Hperm].
  rewrite Heq in Hk, Hperm. simpl in Hk, Hperm. subst k.
  exists files. split; [by apply list_elem_of_In|]. split; [assumption|].
  unfold is_group in Hbig. simpl in Hbig.
  destruct (Z.gtb_spec (Z.of_nat (length g)) 1); [lia|discriminate].
Qed.

Lemma group_complete items h files :
  (h, files) ∈ items -> (2 <= length files)%nat ->
  exists g, (h, g) ∈ List.filter is_group (map sort_bucket items) /\ g ≡ₚ files.
Proof.
  intros Hin Hlen.
  destruct (sort_bucket_same (h, files)) as [Hk Hperm].
  destruct (sort_bucket (h, files)) as [k g] eqn:Hsb. simpl in Hk, Hperm. subst k.
  exists g. split; [|assumption].
  apply list_elem_of_In, filter_In. split.
  - apply in_map_iff. exists (h, files). split; [assumption|by apply list_elem_of_In].
  - rewrite <- Hsb, is_group_sort_bucket. unfold is_group. simpl.
    destruct (Z.gtb_spec (Z.of_nat (length files)) 1); [reflexivity|lia].
Qed.

End Scan.



(** *** Scenario A: two copies and a third file *)

Definition scenario_A_tree : DirTree := Dir [] ["a.txt"; "b.txt"; "c.txt"]%string.

Lemma scenario_A_result
    (fs : FileSys) (x y : list Byte.byte) (stat_a stat_b stat_c : Stat) (self : Finder) :
  let digest c := md5_hexdigest (md5_update md5_new c) in
  os_stat fs "/d/a.txt" = Done stat_a -> open_rb fs "/d/a.txt" = Done [Chunk x] ->
  os_stat fs "/d/b.txt" = Done stat_b -> open_rb fs "/d/b.txt" = Done [Chunk x] ->
  os_stat fs "/d/c.txt" = Done stat_c -> open_rb fs "/d/c.txt" = Done [Chunk y] ->
  x <> [] -> y <> [] ->
  Z.of_nat (length x) <= max_file_size -> Z.of_nat (length y) <= max_file_size ->
  0 <= st_size stat_a <= max_file_size ->
  0 <= st_size stat_b <= max_file_size ->
  0 <= st_size stat_c <= max_file_size ->
  st_mtime stat_a < st_mtime stat_b ->
  digest x <> ""%string -> digest x <> digest y ->
  exists self',
    scan_directory fs None 0 "/d" scenario_A_tree self
    = (Ret [(digest x, [file_info "/d/b.txt" stat_b; file_info "/d/a.txt" stat_a])], self')
    /\ total_duplicate_size self' = st_size stat_a.
Proof.
  intros digest Ha Hoa Hb Hob Hc Hoc Hx Hy Hlx Hly Hsa Hsb Hsc Hnewer Hdx Hdxy.
  pose proof (hash_of_single_chunk fs "/d/a.txt" stat_a x Ha (proj2 Hsa) Hoa Hx Hlx) as Hha.
  pose proof (hash_of_single_chunk fs "/d/b.txt" stat_b x Hb (proj2 Hsb) Hob Hx Hlx) as Hhb.
  pose proof (hash_of_single_chunk fs "/d/c.txt" stat_c y Hc (proj2 Hsc) Hoc Hy Hly) as Hhc.
  fold (digest x) in Hha, Hhb. fold (digest y) in Hhc.
  assert (getsize fs "/d/a.txt" = Done (st_size stat_a)) as Hga by (unfold getsize; by rewrite Ha).
  assert (getsize fs "/d/b.txt" = Done (st_size stat_b)) as Hgb by (unfold getsize; by rewrite Hb).
  assert (getsize fs "/d/c.txt" = Done (st_size stat_c)) as Hgc by (unfold getsize; by rewrite Hc).
  assert (getmtime fs "/d/a.txt" = Done (st_mtime stat_a)) as Hma by (unfold getmtime; by rewrite Ha).
  assert (getmtime fs "/d/b.txt" = Done (st_mtime stat_b)) as Hmb by (unfold getmtime; by rewrite Hb).
  unfold scan_directory.
  rewrite count_files_in_directory_spec.
  unfold eligible_file_count, scenario_A_tree.
  cbn [walk eligible_total fold_right fst snd].
  change (join "/d" "a.txt") with "/d/a.txt"%string in *.
  assert (eligible_in fs None 0 "/d" ["a.txt"; "b.txt"; "c.txt"]%string = 3) as Hel.
  { rewrite !eligible_in_cons. unfold eligible.
    change (join "/d" "a.txt") with "/d/a.txt"%string.
    change (join "/d" "b.txt") with "/d/b.txt"%string.
    change (join "/d" "c.txt") with "/d/c.txt"%string.
    rewrite Hga, Hgb, Hgc. cbn.
    destruct (Z.ltb_spec (st_size stat_a) 0); [lia|].
    destruct (Z.ltb_spec (st_size stat_b) 0); [lia|].
    destruct (Z.ltb_spec (st_size stat_c) 0); [lia|]. reflexivity. }
  rewrite Hel. change ((3 + 0) `min` max_files) with 3.
  set (fresh := set_total_files _ 3).
  change (total_files fresh =? 0) with false. cbv iota.
  assert (scan_walk fs None 0 [("/d"%string, ["a.txt"; "b.txt"; "c.txt"]%string)] fresh
          = scan_files fs None 0 "/d" ["a.txt"; "b.txt"; "c.txt"]%string fresh) as ->.
  { cbn [scan_walk]. by destruct (_ >=? _). }
  set (ia := file_info "/d/a.txt" stat_a).
  set (ib := file_info "/d/b.txt" stat_b).
  set (ic := file_info "/d/c.txt" stat_c).
  rewrite (scan_files_eligible fs None 0 "/d" "a.txt" _ fresh (st_size stat_a));
    [|simpl; unfold max_scan_files; lia|reflexivity|exact Hga|lia|reflexivity].
  change (join "/d" "a.txt") with "/d/a.txt"%string.
  rewrite (hash_and_record_hashed fs "/d/a.txt" fresh (digest x) stat_a Hha Hdx Ha).
  fold ia.
  set (s1 := set_scanned_files _ _).
  rewrite (scan_files_eligible fs None 0 "/d" "b.txt" _ s1 (st_size stat_b));
    [|simpl; unfold max_scan_files; lia|reflexivity|exact Hgb|lia|reflexivity].
  change (join "/d" "b.txt") with "/d/b.txt"%string.
  rewrite (hash_and_record_hashed fs "/d/b.txt" s1 (digest x) stat_b Hhb Hdx Hb).
  fold ib.
  set (s2 := set_scanned_files _ _).
  assert (file_hashes s2 = [(digest x, [ia; ib])]) as Hfh2.
  { subst s2 s1. cbn. unfold bucket_append. cbn. by rewrite String.eqb_refl. }
  rewrite (scan_files_eligible fs None 0 "/d" "c.txt" _ s2 (st_size stat_c));
    [|simpl; unfold max_scan_files; lia|reflexivity|exact Hgc|lia|reflexivity].
  change (join "/d" "c.txt") with "/d/c.txt"%string.
  cbn [scan_files].
  assert (sort_by_mtime fs [ia; ib] = Done [ib; ia]) as Hsort.
  { unfold sort_by_mtime. cbn [sort_keys].
    change (fi_path ia) with "/d/a.txt"%string.
    change (fi_path ib) with "/d/b.txt"%string.
    rewrite Hma, Hmb. cbn [sort_desc insert_desc fst].
    destruct (Z.ltb_spec (st_mtime stat_a) (st_mtime stat_b)); [reflexivity|lia]. }
  destruct (String.eqb_spec (digest y) "") as [Hdy|Hdy].
  - rewrite (hash_and_record_unhashed fs "/d/c.txt" s2 (digest y) Hhc Hdy).
    set (s3 := set_scanned_files _ _).
    assert (file_hashes s3 = [(digest x, [ia; ib])]) as Hfh3
      by (rewrite <- Hfh2; reflexivity).
    rewrite Hfh3.
    change (total_duplicate_size s3) with 0.
    cbn [find_duplicates length Z.of_nat Pos.of_succ_nat Pos.succ Z.gtb Z.compare Pos.compare
         Pos.compare_cont].
    rewrite Hsort. cbn.
    eexists. split; [reflexivity|]. cbn. lia.
  - rewrite (hash_and_record_hashed fs "/d/c.txt" s2 (digest y) stat_c Hhc Hdy Hc).
    fold ic.
    set (s3 := set_scanned_files _ _).
    assert (file_hashes s3 = [(digest x, [ia; ib]); (digest y, [ic])]) as Hfh3.
    { change (bucket_append (file_hashes s2) (digest y) ic
              = [(digest x, [ia; ib]); (digest y, [ic])]).
      rewrite Hfh2. unfold bucket_append. cbn.
      apply String.eqb_neq in Hdxy. by rewrite Hdxy. }
    rewrite Hfh3.
    change (total_duplicate_size s3) with 0.
    cbn [find_duplicates length Z.of_nat Pos.of_succ_nat Pos.succ Z.gtb Z.compare Pos.compare
         Pos.compare_cont].
    rewrite Hsort. cbn.
    eexists. split; [reflexivity|]. cbn. lia.
Qed.

(** C4. After every scan, [total_duplicate_size] is the sum of the sizes of
    all members but the first of every group returned.  And for [a.txt] and
    [b.txt] with the same content, [b.txt] modified last, and [c.txt] with
    content of another digest, scanned with [min_size = 0]: the result is the
    single group [b.txt], [a.txt] and the reclaimable size is that of
    [a.txt]. *)
Theorem reclaimable_size_is_sum_of_non_first_members :
  (forall (fs : FileSys) (extensions : option (list string)) (min_size : Z)
          (directory : string) (tree : DirTree) (self : Finder),
     exists duplicates self',
       scan_directory fs extensions min_size directory tree self = (Ret duplicates, self')
       /\ total_duplicate_size self'
          = fold_right
              (fun group total =>
                 fold_right (fun m n => fi_size m + n) 0 (tail (snd group)) + total)
              0 duplicates)
  /\ (forall (fs : FileSys) (x y : list Byte.byte) (stat_a stat_b stat_c : Stat)
             (self : Finder),
       let digest c := md5_hexdigest (md5_update md5_new c) in
       os_stat fs "/d/a.txt" = Done stat_a -> open_rb fs "/d/a.txt" = Done [Chunk x] ->
       os_stat fs "/d/b.txt" = Done stat_b -> open_rb fs "/d/b.txt" = Done [Chunk x] ->
       os_stat fs "/d/c.txt" = Done stat_c -> open_rb fs "/d/c.txt" = Done [Chunk y] ->
       x <> [] -> y <> [] ->
       Z.of_nat (length x) <= max_file_size -> Z.of_nat (length y) <= max_file_size ->
       0 <= st_size stat_a <= max_file_size ->
       0 <= st_size stat_b <= max_file_size ->
       0 <= st_size stat_c <= max_file_size ->
       st_mtime stat_a < st_mtime stat_b ->
       digest x <> ""%string -> digest x <> digest y ->
       exists self',
         scan_directory fs None 0 "/d" scenario_A_tree self
         = (Ret [(digest x, [file_info "/d/b.txt" stat_b; file_info "/d/a.txt" stat_a])],
            self')
         /\ total_duplicate_size self' = st_size stat_a).
Proof.
  split.
  - intros fs extensions min_size directory tree self.
    destruct (scan_directory_facts fs extensions min_size directory tree self)
      as (duplicates & self' & Hrun & Hfacts).
    exists duplicates, self'. split; [exact Hrun|].
    exact (facts_size _ _ _ _ _ _ _ Hfacts).
  - intros fs x y stat_a stat_b stat_c self digest.
    apply scenario_A_result.
Qed.

(** *** The scan: groups, order, sizes and limits *)

(** C3. Every scan returns a mapping in which each group has at least two
    members, each of them recorded by the scan under the digest that is the
    group's key; a digest whose bucket holds exactly one file is not a key of
    the mapping. *)
Theorem scan_groups_have_two_members_of_one_digest
    (fs : FileSys) (extensions : option (list string)) (min_size : Z)
    (directory : string) (tree : DirTree) (self : Finder) :
  exists duplicates self',
    scan_directory fs extensions min_size directory tree self = (Ret duplicates, self')
    /\ (forall h g, (h, g) ∈ duplicates ->
          (2 <= length g)%nat /\ forall m, m ∈ g -> recorded fs h m)
    /\ (forall h files, (h, files) ∈ file_hashes self' -> length files = 1%nat ->
          h ∉ keys duplicates).
Proof.
  destruct (scan_directory_facts fs extensions min_size directory tree self)
    as (duplicates & self' & Hrun & Hfacts).
  exists duplicates, self'. split; [exact Hrun|]. split.
  - intros h g Hin.
    destruct (facts_groups _ _ _ _ _ _ _ Hfacts h g Hin)
      as (files & _ & _ & Hlen & Hrec & _).
    split; [lia|]. by apply Forall_forall.
  - intros h files Hin Hone Hkey.
    apply list_elem_of_fmap in Hkey as ([h' g] & Hh & Hg). simpl in Hh. subst h'.
    destruct (facts_groups _ _ _ _ _ _ _ Hfacts h g Hg)
      as (files' & Hin' & Hperm & Hlen & _).
    pose proof (dict_elem_unique _ _ _ _ (facts_keys _ _ _ _ _ _ _ Hfacts) Hin Hin') as Heq.
    subst files'. apply Permutation_length in Hperm. lia.
Qed.

(** C5. In every group a scan returns, each member was modified no earlier
    than the member after it. *)
Theorem scan_groups_are_newest_first
    (fs : FileSys) (extensions : option (list string)) (min_size : Z)
    (directory : string) (tree : DirTree) (self : Finder) :
  exists duplicates self',
    scan_directory fs extensions min_size directory tree self = (Ret duplicates, self')
    /\ forall h g, (h, g) ∈ duplicates ->
         forall i a b, g !! i = Some a -> g !! S i = Some b ->
           exists ta tb, getmtime fs (fi_path a) = Done ta
                         /\ getmtime fs (fi_path b) = Done tb /\ ta >= tb.
Proof.
  destruct (scan_directory_facts fs extensions min_size directory tree self)
    as (duplicates & self' & Hrun & Hfacts).
  exists duplicates, self'. split; [exact Hrun|].
  intros h g Hin i a b Ha Hb.
  destruct (facts_groups _ _ _ _ _ _ _ Hfacts h g Hin) as (_ & _ & _ & _ & _ & Hdesc).
  destruct (Hdesc i a b Ha Hb) as (ta & tb & Hta & Htb & Hle).
  exists ta, tb. repeat split; [assumption..|lia].
Qed.

(** C6. When the tree holds more eligible files than the limit of 10000, the
    scan returns without raising, the pre-count it stores is 10000, and it
    has scanned exactly 10000 files. *)
Theorem scan_stops_at_ceiling
    (fs : FileSys) (extensions : option (list string)) (min_size : Z)
    (directory : string) (tree : DirTree) (self : Finder) :
  10000 < eligible_file_count fs extensions min_size directory tree ->
  exists duplicates self',
    scan_directory fs extensions min_size directory tree self = (Ret duplicates, self')
    /\ scanned_files self' = 10000
    /\ total_files self' = 10000
    /\ count_files_in_directory fs extensions min_size directory tree = 10000.
Proof.
  intros Hmany.
  destruct (scan_directory_facts fs extensions min_size directory tree self)
    as (duplicates & self' & Hrun & Hfacts).
  exists duplicates, self'. split; [exact Hrun|].
  pose proof (facts_total _ _ _ _ _ _ _ Hfacts) as Htotal.
  pose proof (facts_scanned _ _ _ _ _ _ _ Hfacts) as Hscanned.
  rewrite count_files_in_directory_spec.
  unfold max_files, max_scan_files in *.
  split; [|split]; [|lia..].
  rewrite Hscanned; lia.
Qed.

(** A file the hasher gives up on: larger than the limit, or with an error
    from [getsize], from [open], or from a read that is reached. *)
Inductive unhashable (fs : FileSys) (p : string) : Prop :=
| too_large sz :
    getsize fs p = Done sz -> max_file_size < sz -> unhashable fs p
| stat_fails e :
    getsize fs p = Fail e -> unhashable fs p
| open_fails e :
    open_rb fs p = Fail e -> unhashable fs p
| read_fails chunks e rest :
    open_rb fs p = Done (map Chunk chunks ++ ReadFails e :: rest) ->
    nonempty_chunks chunks = true -> unhashable fs p.

(** C8. For a file larger than 100 MiB, or on which a system call of the
    hasher fails, [calculate_file_hash] returns [None]; and no group of any
    scan of that file system has a member with that file's path. *)
Theorem unhashable_file_is_in_no_group (fs : FileSys) (file_path : string) :
  unhashable fs file_path ->
  calculate_file_hash fs file_path = None
  /\ forall extensions min_size directory tree self,
       exists duplicates self',
         scan_directory fs extensions min_size directory tree self = (Ret duplicates, self')
         /\ forall h g m, (h, g) ∈ duplicates -> m ∈ g -> fi_path m <> file_path.
Proof.
  intros Hbad.
  assert (calculate_file_hash fs file_path = None) as Hnone.
  { destruct Hbad as [sz Hsz Hgt|e He|e He|chunks e rest Hopen Hne].
    - by apply (hash_none_of_large fs file_path sz).
    - by apply (hash_none_of_stat_error fs file_path e).
    - by apply (hash_none_of_open_error fs file_path e).
    - by apply (hash_none_of_read_error fs file_path chunks e rest). }
  split; [exact Hnone|].
  intros extensions min_size directory tree self.
  destruct (scan_directory_facts fs extensions min_size directory tree self)
    as (duplicates & self' & Hrun & Hfacts).
  exists duplicates, self'. split; [exact Hrun|].
  intros h g m Hin Hm Hpath.
  destruct (facts_groups _ _ _ _ _ _ _ Hfacts h g Hin) as (_ & _ & _ & _ & Hrec & _).
  rewrite Forall_forall in Hrec. destruct (Hrec m Hm) as [Hhash _].
  rewrite Hpath in Hhash. congruence.
Qed.

(** *** Deletion *)

(** C10. [delete_selected_duplicates] returns the session it was given: the
    five fields keep their values, and the summary computed after the call
    is the one computed before it. *)
Theorem delete_leaves_session_unchanged
    (selected_files : list string) (self : Finder) (fs : FileSys) :
  let self' := snd (fst (delete_selected_duplicates selected_files self fs)) in
  file_hashes self' = file_hashes self
  /\ duplicates_found self' = duplicates_found self
  /\ scanned_files self' = scanned_files self
  /\ total_files self' = total_files self
  /\ total_duplicate_size self' = total_duplicate_size self
  /\ get_duplicate_summary self' = get_duplicate_summary self.
Proof.
  unfold delete_selected_duplicates.
  destruct (delete_loop selected_files fs 0 0 []) as [[[fs' n] size] errs].
  cbn [fst snd]. repeat split; reflexivity.
Qed.

(** *** More about the scan: counters, pruning, membership *)

(** After every scan the two counters agree: the scan processed as many
    files as the pre-count announced, at most 10000. *)
Theorem scan_counters_agree
    (fs : FileSys) (extensions : option (list string)) (min_size : Z)
    (directory : string) (tree : DirTree) (self : Finder) :
  let self' := snd (scan_directory fs extensions min_size directory tree self) in
  scanned_files self' = total_files self'
  /\ 0 <= scanned_files self' <= 10000
  /\ total_files self' = count_files_in_directory fs extensions min_size directory tree.
Proof.
  intros self'. subst self'. rewrite scan_directory_run.
  pose proof (count_files_in_directory_spec fs extensions min_size directory tree) as Hcount.
  pose proof (eligible_total_nonneg fs extensions min_size (walk directory tree)) as Hpos.
  fold (eligible_file_count fs extensions min_size directory tree) in Hpos.
  unfold max_files in Hcount.
  destruct (Z.eqb_spec
              (total_files (reset_and_count fs extensions min_size directory tree self)) 0)
    as [Hzero|Hnz]; cbn [snd].
  - simpl in *. split; [lia|]. split; [lia|reflexivity].
  - cbn [scanned_files total_files].
    rewrite scan_walk_scanned by (simpl; unfold max_scan_files; lia).
    change (scanned_files (reset_and_count fs extensions min_size directory tree self))
      with 0.
    change (total_files (reset_and_count fs extensions min_size directory tree self))
      with (count_files_in_directory fs extensions min_size directory tree).
    unfold max_scan_files, eligible_file_count in *. lia.
Qed.

(** Below the limit the pre-count is exact: it is the number of files that
    are not hidden, lie under no pruned directory, are at least [min_size]
    bytes long and pass the extension filter. *)
Theorem count_is_exact_below_ceiling
    (fs : FileSys) (extensions : option (list string)) (min_size : Z)
    (directory : string) (tree : DirTree) :
  eligible_file_count fs extensions min_size directory tree <= 10000 ->
  count_files_in_directory fs extensions min_size directory tree
  = eligible_file_count fs extensions min_size directory tree.
Proof.
  intros Hle. rewrite count_files_in_directory_spec. unfold max_files. lia.
Qed.

(** A tree without the directories the walk does not enter: hidden ones and
    those of the list, at every depth. *)
Fixpoint prune (t : DirTree) : DirTree :=
  match t with
  | Dir subdirs files =>
      Dir ((fix kept (ds : list (string * DirTree)) : list (string * DirTree) :=
              match ds with
              | [] => []
              | (d, sub) :: ds' =>
                  if keep_dir d then (d, prune sub) :: kept ds' else kept ds'
              end) subdirs)
          files
  end.

Lemma walk_prune : forall (t : DirTree) (top : string), walk top (prune t) = walk top t.
Proof.
  fix IH 1. intros [subdirs files] top. cbn [prune walk]. f_equal.
  induction subdirs as [|[d sub] ds IHds]; [reflexivity|].
  destruct (keep_dir d) eqn:Hkeep; [|exact IHds].
  rewrite Hkeep, IH. by rewrite IHds.
Qed.

(** What lies inside a hidden directory or one of the list (system volume
    information, $recycle.bin, windows, program files, temp, in any case of
    letters) has no influence on the pre-count nor on the scan. *)
Theorem pruned_directories_are_never_entered
    (fs : FileSys) (extensions : option (list string)) (min_size : Z)
    (directory : string) (tree : DirTree) (self : Finder) :
  count_files_in_directory fs extensions min_size directory (prune tree)
  = count_files_in_directory fs extensions min_size directory tree
  /\ scan_directory fs extensions min_size directory (prune tree) self
     = scan_directory fs extensions min_size directory tree self.
Proof.
  unfold scan_directory, count_files_in_directory.
  by rewrite walk_prune.
Qed.

(** Every member of every group returned is the record of a file the walk
    yielded: not hidden, at least [min_size] bytes long, of an accepted
    extension. *)
Theorem group_members_are_eligible_files
    (fs : FileSys) (extensions : option (list string)) (min_size : Z)
    (directory : string) (tree : DirTree) (self : Finder) :
  exists duplicates self',
    scan_directory fs extensions min_size directory tree self = (Ret duplicates, self')
    /\ forall h g m, (h, g) ∈ duplicates -> m ∈ g ->
         exists root files file,
           (root, files) ∈ walk directory tree /\ file ∈ files
           /\ fi_path m = join root file
           /\ startswith "." file = false
           /\ min_size <= fi_size m
           /\ extension_rejected extensions (fi_path m) = false.
Proof.
  rewrite scan_directory_run.
  set (fresh := reset_and_count fs extensions min_size directory tree self).
  set (scanned := scan_walk fs extensions min_size (walk directory tree) fresh).
  destruct (total_files fresh =? 0).
  { eexists _, _. split; [reflexivity|]. intros h g m Hin. inversion Hin. }
  eexists _, _. split; [reflexivity|].
  intros h g m Hin Hm.
  destruct (group_elem fs _ h g Hin) as (files & Hfiles & Hperm & _).
  rewrite Hperm in Hm.
  assert (session_ok fs scanned) as [_ Hrec].
  { apply scan_walk_ok. split; simpl; [constructor|]. intros k v Hk. inversion Hk. }
  pose proof (Hrec h files Hfiles) as Hall. rewrite Forall_forall in Hall.
  destruct (Hall m Hm) as [_ Hinfo].
  destruct (scan_walk_from_walk fs extensions min_size (walk directory tree) fresh)
    with (h := h) (g := files) (m := m) as (root & fl & file & Hentry & Hfile & Helig & Hpath);
    [intros k v x Hk; inversion Hk|assumption|assumption|].
  exists root, fl, file. split; [assumption|]. split; [assumption|]. split; [assumption|].
  unfold eligible in Helig. rewrite <- Hpath in Helig.
  unfold get_file_info in Hinfo. unfold getsize in Helig.
  destruct (startswith "." file); [discriminate|].
  destruct (os_stat fs (fi_path m)) as [stat|]; [|discriminate].
  injection Hinfo as Hm'.
  assert (fi_size m = st_size stat) as Hsize by (by rewrite <- Hm').
  simpl in Helig.
  destruct (Z.ltb_spec (st_size stat) min_size); [discriminate|].
  destruct (extension_rejected extensions (fi_path m)); [discriminate|].
  repeat split. lia.
Qed.

(** Below the limit no pair of equal files is missed: two eligible files of
    the walk with different paths and the same digest are members of one
    returned group. *)
Theorem equal_hashes_are_grouped
    (fs : FileSys) (extensions : option (list string)) (min_size : Z)
    (directory : string) (tree : DirTree) (self : Finder)
    (root1 root2 file1 file2 h : string) (files1 files2 : list string) :
  eligible_file_count fs extensions min_size directory tree <= 10000 ->
  (root1, files1) ∈ walk directory tree -> file1 ∈ files1 ->
  eligible fs extensions min_size root1 file1 = true ->
  (root2, files2) ∈ walk directory tree -> file2 ∈ files2 ->
  eligible fs extensions min_size root2 file2 = true ->
  join root1 file1 <> join root2 file2 ->
  calculate_file_hash fs (join root1 file1) = Some h ->
  calculate_file_hash fs (join root2 file2) = Some h ->
  h <> ""%string ->
  exists duplicates self' g m1 m2,
    scan_directory fs extensions min_size directory tree self = (Ret duplicates, self')
    /\ (h, g) ∈ duplicates
    /\ m1 ∈ g /\ fi_path m1 = join root1 file1
    /\ m2 ∈ g /\ fi_path m2 = join root2 file2.
Proof.
  intros Hbelow Hentry1 Hfile1 Helig1 Hentry2 Hfile2 Helig2 Hdiff Hh1 Hh2 Hne.
  rewrite scan_directory_run.
  set (fresh := reset_and_count fs extensions min_size directory tree self).
  set (scanned := scan_walk fs extensions min_size (walk directory tree) fresh).
  pose proof (eligible_total_nonneg fs extensions min_size (walk directory tree)) as Hpos.
  assert (1 <= eligible_file_count fs extensions min_size directory tree) as Hsome.
  { unfold eligible_file_count.
    destruct (Z.le_gt_cases (eligible_total fs extensions min_size (walk directory tree)) 0)
      as [Hz|Hz]; [|lia].
    rewrite (eligible_total_zero fs extensions min_size _ Hz root1 files1 file1) in Helig1;
      [discriminate|assumption|assumption]. }
  assert ((total_files fresh =? 0) = false) as ->.
  { apply Z.eqb_neq. subst fresh. simpl.
    rewrite count_files_in_directory_spec. unfold max_files. lia. }
  destruct (scan_walk_covers fs extensions min_size (walk directory tree) fresh)
    as [_ Hcovered].
  { simpl. unfold max_scan_files. lia. }
  { simpl. unfold max_scan_files, eligible_file_count in *. lia. }
  assert (forall root file, eligible fs extensions min_size root file = true ->
            exists stat, os_stat fs (join root file) = Done stat) as Hstat.
  { intros root file Helig. unfold eligible, getsize in Helig.
    destruct (startswith "." file); [discriminate|].
    destruct (os_stat fs (join root file)) as [stat|]; [by exists stat|discriminate]. }
  destruct (Hstat root1 file1 Helig1) as [stat1 Hstat1].
  destruct (Hstat root2 file2 Helig2) as [stat2 Hstat2].
  destruct (Hcovered root1 files1 file1 Hentry1 Hfile1 Helig1 h stat1 Hh1 Hne Hstat1)
    as (b & Hget & Hm1).
  destruct (Hcovered root2 files2 file2 Hentry2 Hfile2 Helig2 h stat2 Hh2 Hne Hstat2)
    as (b' & Hget' & Hm2).
  fold scanned in Hget, Hget'. rewrite Hget in Hget'. injection Hget' as <-.
  assert (2 <= length b)%nat as Hlen.
  { destruct b as [|x [|y b]]; simpl; [inversion Hm1| |lia].
    apply list_elem_of_singleton in Hm1, Hm2. rewrite <- Hm2 in Hm1.
    apply (f_equal fi_path) in Hm1. simpl in Hm1. contradiction. }
  destruct (group_complete fs (file_hashes scanned) h b (dict_get_elem _ _ _ Hget) Hlen)
    as (g & Hg & Hperm).
  eexists _, _, g, (file_info (join root1 file1) stat1),
    (file_info (join root2 file2) stat2).
  split; [reflexivity|]. split; [exact Hg|].
  rewrite Hperm. repeat split; assumption.
Qed.

(** The mapping returned is made of the buckets of the session that hold
    more than one file, in the order of the session and each once; the
    session keeps it as [duplicates_found], and its own buckets are the
    sorted lists. *)
Theorem returned_groups_are_the_large_buckets
    (fs : FileSys) (extensions : option (list string)) (min_size : Z)
    (directory : string) (tree : DirTree) (self : Finder) :
  exists duplicates self',
    scan_directory fs extensions min_size directory tree self = (Ret duplicates, self')
    /\ duplicates
       = List.filter (fun bucket => Z.of_nat (length (snd bucket)) >? 1) (file_hashes self')
    /\ duplicates_found self' = duplicates
    /\ NoDup (keys duplicates).
Proof.
  rewrite scan_directory_run.
  set (fresh := reset_and_count fs extensions min_size directory tree self).
  set (scanned := scan_walk fs extensions min_size (walk directory tree) fresh).
  destruct (total_files fresh =? 0).
  { eexists _, _. split; [reflexivity|]. repeat split. constructor. }
  eexists _, _. split; [reflexivity|]. cbn [file_hashes duplicates_found].
  repeat split.
  assert (session_ok fs scanned) as [Hnd _].
  { apply scan_walk_ok. split; simpl; [constructor|]. intros k v Hk. inversion Hk. }
  assert (keys (map (sort_bucket fs) (file_hashes scanned)) = keys (file_hashes scanned))
    as Hkeys.
  { unfold keys. rewrite map_map. apply map_ext. intros kv.
    apply (sort_bucket_same fs kv). }
  rewrite <- Hkeys in Hnd. revert Hnd.
  generalize (map (sort_bucket fs) (file_hashes scanned)).
  intros items. induction items as [|kv items IH]; simpl; intros Hnd; [constructor|].
  apply NoDup_cons in Hnd as [Hkv Hnd].
  destruct (is_group kv); [|by apply IH].
  simpl. apply NoDup_cons. split; [|by apply IH].
  intros Hin. apply Hkv. unfold keys in *.
  apply list_elem_of_In, in_map_iff in Hin as (kv' & Hk & Hin).
  apply list_elem_of_In, in_map_iff. exists kv'. split; [assumption|].
  by apply filter_In in Hin as [Hin _].
Qed.

(** The paths the results view offers for deletion, all ticked: every
    member of every group but the first, in the order of the view. *)
Definition offered_for_deletion (duplicates : Dict) : list string :=
  flat_map (fun group => map fi_path (tail (snd group))) duplicates.

Lemma total_duplicates_sum (d : Dict) :
  forall acc,
    Forall (fun kv => (2 <= length (snd kv))%nat) d ->
    fold_left (fun acc kv => acc + (Z.of_nat (length (snd kv)) - 1)) d acc
    = acc + Z.of_nat (length (offered_for_deletion d))
    /\ Z.of_nat (length d) <= Z.of_nat (length (offered_for_deletion d)).
Proof.
  induction d as [|[h g] d IH]; intros acc Hall; simpl.
  - lia.
  - apply Forall_cons in Hall as [Hg Hall]. simpl in Hg.
    destruct (IH (acc + (Z.of_nat (length g) - 1)) Hall) as [-> Hle].
    unfold offered_for_deletion in *. simpl.
    rewrite length_app, length_map.
    destruct g as [|x g]; simpl in *; lia.
Qed.

(** After a scan the summary counts the groups returned, and its
    [total_duplicates] is the number of files offered for deletion, one at
    least for each group. *)
Theorem summary_counts_offered_files
    (fs : FileSys) (extensions : option (list string)) (min_size : Z)
    (directory : string) (tree : DirTree) (self : Finder) :
  exists duplicates self',
    scan_directory fs extensions min_size directory tree self = (Ret duplicates, self')
    /\ duplicate_groups (get_duplicate_summary self') = Z.of_nat (length duplicates)
    /\ total_duplicates (get_duplicate_summary self')
       = Z.of_nat (length (offered_for_deletion duplicates))
    /\ duplicate_groups (get_duplicate_summary self')
       <= total_duplicates (get_duplicate_summary self').
Proof.
  destruct (scan_directory_facts fs extensions min_size directory tree self)
    as (duplicates & self' & Hrun & Hfacts).
  exists duplicates, self'. split; [exact Hrun|].
  assert (Forall (fun kv => (2 <= length (snd kv))%nat) duplicates) as Hall.
  { rewrite Forall_forall. intros [h g] Hin.
    destruct (facts_groups _ _ _ _ _ _ _ Hfacts h g Hin) as (_ & _ & _ & Hlen & _).
    simpl. lia. }
  destruct (total_duplicates_sum duplicates 0 Hall) as [Hsum Hle].
  unfold get_duplicate_summary. rewrite (facts_found _ _ _ _ _ _ _ Hfacts).
  destruct duplicates as [|kv rest] eqn:Hd; [by simpl|].
  cbn [duplicate_groups total_duplicates]. rewrite Hsum. lia.
Qed.

(** *** More about the deletion *)

(** One step of the loop, by what the disk holds at the path. *)
Lemma delete_loop_cons p l (fs : FileSys) n sz errs :
  delete_loop (p :: l) fs n sz errs
  = match fs !! p with
    | Some f =>
        match f_stat f with
        | Done stat =>
            match f_remove f with
            | Done _ => delete_loop l (delete p fs) (n + 1) (sz + st_size stat) errs
            | Fail e => delete_loop l fs n sz (errs ++ [cannot_delete p e])
            end
        | Fail _ => delete_loop l fs n sz errs
        end
    | None => delete_loop l fs n sz errs
    end.
Proof.
  cbn [delete_loop]. unfold path_exists, getsize, os_remove, os_stat.
  destruct (fs !! p) as [f|]; [|reflexivity].
  destruct (f_stat f) as [stat|]; [|reflexivity].
  by destruct (f_remove f) as [[]|].
Qed.

(** A file the loop can delete: there, with readable metadata, and
    [os.remove] succeeds on it. *)
Definition removable (fs : FileSys) (p : string) : Prop :=
  exists f stat, fs !! p = Some f /\ f_stat f = Done stat /\ f_remove f = Done tt.

Lemma delete_loop_spec l :
  forall (fs : FileSys) n sz errs fs' n' sz' errs',
    delete_loop l fs n sz errs = (fs', n', sz', errs') ->
    (forall p, fs' !! p = fs !! p \/ (p ∈ l /\ fs' !! p = None /\ removable fs p))
    /\ n' = n + (Z.of_nat (size fs) - Z.of_nat (size fs'))
    /\ (size fs' <= size fs)%nat
    /\ exists new, errs' = errs ++ new
                   /\ n' - n + Z.of_nat (length new) <= Z.of_nat (length l).
Proof.
  induction l as [|q l IH]; intros fs n sz errs fs' n' sz' errs' Hrun.
  - injection Hrun as <- <- <- <-. split; [by left|]. split; [lia|]. split; [lia|].
    exists []. rewrite app_nil_r. simpl. split; [reflexivity|lia].
  - rewrite delete_loop_cons in Hrun.
    assert (forall errs0,
              delete_loop l fs n sz errs0 = (fs', n', sz', errs') ->
              (forall p, fs' !! p = fs !! p \/ (p ∈ q :: l /\ fs' !! p = None /\ removable fs p))
              /\ n' = n + (Z.of_nat (size fs) - Z.of_nat (size fs'))
              /\ (size fs' <= size fs)%nat
              /\ exists new, errs' = errs0 ++ new
                   /\ n' - n + Z.of_nat (length new) <= Z.of_nat (length l)) as Hsame.
    { intros errs0 Hrun0.
      destruct (IH _ _ _ _ _ _ _ _ Hrun0) as (Hlook & Hn & Hsize & new & Hnew & Hcount).
      split; [|by eauto 6].
      intros p. destruct (Hlook p) as [?|(Hin & ? & ?)]; [by left|right].
      split; [by right|by split]. }
    destruct (fs !! q) as [f|] eqn:Hq.
    2:{ destruct (Hsame errs Hrun) as (? & ? & ? & new & ? & ?).
        repeat split; try assumption. exists new. split; [assumption|]. simpl length. lia. }
    destruct (f_stat f) as [stat|] eqn:Hstat.
    2:{ destruct (Hsame errs Hrun) as (? & ? & ? & new & ? & ?).
        repeat split; try assumption. exists new. split; [assumption|]. simpl length. lia. }
    destruct (f_remove f) as [[]|e] eqn:Hremove.
    + destruct (IH _ _ _ _ _ _ _ _ Hrun) as (Hlook & Hn & Hsize & new & Hnew & Hcount).
      assert (size fs = S (size (delete q fs))) as Hs.
      { rewrite <- (insert_delete_id fs q f Hq) at 1.
        apply map_size_insert_None, lookup_delete_eq. }
      split; [|split; [lia|split; [lia|]]].
      * intros p. destruct (decide (p = q)) as [->|Hne].
        -- right. split; [left|]. split; [|by exists f, stat].
           destruct (Hlook q) as [Heq|(_ & Hnone & _)]; [|exact Hnone].
           by rewrite Heq, lookup_delete_eq.
        -- destruct (Hlook p) as [Heq|(Hin & Hnone & f' & stat' & Hf' & Hrest)].
           ++ left. by rewrite Heq, lookup_delete_ne.
           ++ right. split; [by right|]. split; [assumption|].
              exists f', stat'. by rewrite lookup_delete_ne in Hf'.
      * exists new. split; [assumption|]. simpl length. lia.
    + destruct (Hsame _ Hrun) as (? & ? & ? & new & Hnew & ?).
      repeat split; try assumption.
      exists (cannot_delete q e :: new). rewrite Hnew, <- app_assoc. split; [reflexivity|].
      simpl length. lia.
Qed.

(** Deletion touches the selected paths only: every other file of the disk
    is as before, and a selected path either is as before or is gone. *)
Theorem delete_touches_only_selected
    (selected_files : list string) (self : Finder) (fs : FileSys) :
  let fs' := snd (delete_selected_duplicates selected_files self fs) in
  (forall p, p ∉ selected_files -> fs' !! p = fs !! p)
  /\ (forall p, p ∈ selected_files -> fs' !! p = fs !! p \/ fs' !! p = None).
Proof.
  unfold delete_selected_duplicates.
  destruct (delete_loop selected_files fs 0 0 []) as [[[fs' n] sz] errs] eqn:Hrun.
  cbn [snd]. destruct (delete_loop_spec _ _ _ _ _ _ _ _ _ Hrun) as (Hlook & _).
  split; intros p Hp; destruct (Hlook p) as [Heq|(Hin & Hnone & _)]; auto.
  contradiction.
Qed.

(** The count returned is the number of files that left the disk, and each
    selected path gives at most one deletion or one error. *)
Theorem delete_count_is_files_removed
    (selected_files : list string) (self : Finder) (fs : FileSys) :
  let result := fst (fst (delete_selected_duplicates selected_files self fs)) in
  let fs' := snd (delete_selected_duplicates selected_files self fs) in
  Z.of_nat (size fs) = Z.of_nat (size fs') + deleted_files result
  /\ 0 <= deleted_files result
  /\ deleted_files result + Z.of_nat (length (errors result))
     <= Z.of_nat (length selected_files).
Proof.
  unfold delete_selected_duplicates.
  destruct (delete_loop selected_files fs 0 0 []) as [[[fs' n] sz] errs] eqn:Hrun.
  cbn [fst snd deleted_files errors].
  destruct (delete_loop_spec _ _ _ _ _ _ _ _ _ Hrun)
    as (_ & Hn & Hsize & new & Hnew & Hcount).
  simpl in Hnew. subst errs. lia.
Qed.

(** A second pass over the same list, on the disk the first pass left. *)
Lemma delete_loop_again l :
  forall (fs : FileSys) n sz errs fs1 n1 sz1 errs1,
    delete_loop l fs n sz errs = (fs1, n1, sz1, errs1) ->
    exists new, errs1 = errs ++ new
      /\ forall n' sz' errs', delete_loop l fs1 n' sz' errs' = (fs1, n', sz', errs' ++ new).
Proof.
  induction l as [|q l IH]; intros fs n sz errs fs1 n1 sz1 errs1 Hrun.
  - injection Hrun as <- <- <- <-. exists []. rewrite app_nil_r. split; [reflexivity|].
    intros n' sz' errs'. by rewrite app_nil_r.
  - rewrite delete_loop_cons in Hrun.
    destruct (fs !! q) as [f|] eqn:Hq.
    2:{ destruct (IH _ _ _ _ _ _ _ _ Hrun) as (new & Hnew & Hagain).
        destruct (delete_loop_spec _ _ _ _ _ _ _ _ _ Hrun) as (Hlook & _).
        exists new. split; [assumption|]. intros n' sz' errs'.
        rewrite delete_loop_cons.
        destruct (Hlook q) as [Heq|(_ & Hnone & _)]; [rewrite Heq, Hq|rewrite Hnone];
          apply Hagain. }
    destruct (f_stat f) as [stat|] eqn:Hstat.
    2:{ destruct (IH _ _ _ _ _ _ _ _ Hrun) as (new & Hnew & Hagain).
        destruct (delete_loop_spec _ _ _ _ _ _ _ _ _ Hrun) as (Hlook & _).
        exists new. split; [assumption|]. intros n' sz' errs'.
        rewrite delete_loop_cons.
        destruct (Hlook q) as [Heq|(_ & Hnone & _)];
          [rewrite Heq, Hq, Hstat|rewrite Hnone]; apply Hagain. }
    destruct (f_remove f) as [[]|e] eqn:Hremove.
    + destruct (IH _ _ _ _ _ _ _ _ Hrun) as (new & Hnew & Hagain).
      destruct (delete_loop_spec _ _ _ _ _ _ _ _ _ Hrun) as (Hlook & _).
      exists new. split; [assumption|]. intros n' sz' errs'.
      rewrite delete_loop_cons.
      assert (fs1 !! q = None) as ->; [|apply Hagain].
      destruct (Hlook q) as [Heq|(_ & Hnone & _)]; [|exact Hnone].
      by rewrite Heq, lookup_delete_eq.
    + destruct (IH _ _ _ _ _ _ _ _ Hrun) as (new & Hnew & Hagain).
      destruct (delete_loop_spec _ _ _ _ _ _ _ _ _ Hrun) as (Hlook & _).
      exists (cannot_delete q e :: new). rewrite Hnew, <- app_assoc.
      split; [reflexivity|]. intros n' sz' errs'.
      rewrite delete_loop_cons.
      destruct (Hlook q) as [Heq|(_ & _ & f' & stat' & Hf' & _ & Hrem)].
      * rewrite Heq, Hq, Hstat, Hremove, Hagain, <- app_assoc. reflexivity.
      * rewrite Hq in Hf'. injection Hf' as <-. congruence.
Qed.

(** Deleting the same list a second time deletes nothing more: the disk
    stays as the first call left it, the count is zero, and the same errors
    are reported, for the files that still refuse. *)
Theorem delete_twice_deletes_nothing_more
    (selected_files : list string) (self : Finder) (fs : FileSys) :
  let first := delete_selected_duplicates selected_files self fs in
  let second := delete_selected_duplicates selected_files (snd (fst first)) (snd first) in
  snd second = snd first
  /\ deleted_files (fst (fst second)) = 0
  /\ errors (fst (fst second)) = errors (fst (fst first)).
Proof.
  unfold delete_selected_duplicates.
  destruct (delete_loop selected_files fs 0 0 []) as [[[fs1 n1] sz1] errs1] eqn:Hrun.
  cbn [fst snd].
  destruct (delete_loop_again _ _ _ _ _ _ _ _ _ Hrun) as (new & Hnew & Hagain).
  rewrite (Hagain 0 0 []). cbn [fst snd deleted_files errors].
  simpl in Hnew. by subst errs1.
Qed.

(** A selected file that can be deleted is deleted. *)
Lemma delete_loop_removes l :
  forall (fs : FileSys) n sz errs fs' n' sz' errs' p,
    delete_loop l fs n sz errs = (fs', n', sz', errs') ->
    p ∈ l -> removable fs p -> fs' !! p = None.
Proof.
  induction l as [|q l IH]; intros fs n sz errs fs' n' sz' errs' p Hrun Hin Hrem;
    [inversion Hin|].
  destruct (delete_loop_spec _ _ _ _ _ _ _ _ _ Hrun) as (Hlook & _).
  rewrite delete_loop_cons in Hrun.
  destruct (decide (p = q)) as [->|Hne].
  - destruct Hrem as (f & stat & Hf & Hstat & Hremove).
    rewrite Hf, Hstat, Hremove in Hrun.
    destruct (delete_loop_spec _ _ _ _ _ _ _ _ _ Hrun) as (Hlook' & _).
    destruct (Hlook' q) as [Heq|(_ & Hnone & _)]; [|exact Hnone].
    by rewrite Heq, lookup_delete_eq.
  - apply elem_of_cons in Hin as [?|Hin]; [contradiction|].
    assert (forall fs0 n0 sz0 errs0,
              delete_loop l fs0 n0 sz0 errs0 = (fs', n', sz', errs') ->
              removable fs0 p -> fs' !! p = None) as Hgo
      by (intros; by eapply IH).
    destruct (fs !! q) as [f|] eqn:Hq; [|by eapply Hgo].
    destruct (f_stat f) as [stat|]; [|by eapply Hgo].
    destruct (f_remove f) as [[]|e]; [|by eapply Hgo].
    eapply Hgo; [exact Hrun|].
    destruct Hrem as (f' & stat' & Hf' & Hrest).
    exists f', stat'. by rewrite lookup_delete_ne.
Qed.

(** Scanning after a deletion: a selected file that could be deleted is
    gone from the disk and is a member of no group of a later scan. *)
Theorem deleted_file_is_in_no_later_group
    (selected_files : list string) (self : Finder) (fs : FileSys) (file_path : string) :
  file_path ∈ selected_files ->
  removable fs file_path ->
  let after := delete_selected_duplicates selected_files self fs in
  snd after !! file_path = None
  /\ forall extensions min_size directory tree,
       exists duplicates self',
         scan_directory (snd after) extensions min_size directory tree (snd (fst after))
         = (Ret duplicates, self')
         /\ forall h g m, (h, g) ∈ duplicates -> m ∈ g -> fi_path m <> file_path.
Proof.
  intros Hin Hrem. unfold delete_selected_duplicates.
  destruct (delete_loop selected_files fs 0 0 []) as [[[fs' n] sz] errs] eqn:Hrun.
  cbn [fst snd].
  pose proof (delete_loop_removes _ _ _ _ _ _ _ _ _ _ Hrun Hin Hrem) as Hgone.
  split; [exact Hgone|].
  intros extensions min_size directory tree.
  destruct (scan_directory_facts fs' extensions min_size directory tree self)
    as (duplicates & self' & Hscan & Hfacts).
  exists duplicates, self'. split; [exact Hscan|].
  intros h g m Hg Hm Hpath.
  destruct (facts_groups _ _ _ _ _ _ _ Hfacts h g Hg) as (_ & _ & _ & _ & Hrec & _).
  rewrite Forall_forall in Hrec. destruct (Hrec m Hm) as [_ Hinfo].
  rewrite Hpath in Hinfo. unfold get_file_info, os_stat in Hinfo.
  by rewrite Hgone in Hinfo.
Qed.

Lemma read_chunks_over_limit chunks rest :
  forall h n,
    n <= max_file_size ->
    nonempty_chunks chunks = true ->
    max_file_size < n + total_length chunks ->
    read_chunks (map Chunk chunks ++ rest) h n = Done None.
Proof.
  induction chunks as [|c cs IH]; intros h n Hn Hne Hover; simpl in *; [lia|].
  apply andb_prop in Hne as [Hc Hcs].
  destruct c as [|b c']; [discriminate|].
  destruct (Z.gtb_spec (n + Z.of_nat (length (b :: c'))) max_file_size) as [Hgt|Hle];
    [reflexivity|].
  apply IH; [assumption|assumption|lia].
Qed.

(** The second size check: a file whose reads bring more than 100 MiB has
    no digest, whatever size its metadata gave before the file was opened. *)
Theorem hash_rejects_file_that_grows
    (fs : FileSys) (file_path : string) (file_size : Z)
    (chunks : list (list Byte.byte)) (rest : list ReadStep) :
  getsize fs file_path = Done file_size ->
  open_rb fs file_path = Done (map Chunk chunks ++ rest) ->
  nonempty_chunks chunks = true ->
  100 * 1024 * 1024 < total_length chunks ->
  calculate_file_hash fs file_path = None.
Proof.
  intros Hsize Hopen Hne Hover.
  unfold calculate_file_hash, hash_body. rewrite Hsize.
  destruct (file_size >? max_file_size); [reflexivity|].
  rewrite Hopen, read_chunks_over_limit; [reflexivity| |assumption|].
  - unfold max_file_size. lia.
  - unfold max_file_size. lia.
Qed.

(** The size [os.path.getsize] gives for a path, 0 when it fails. *)
Definition size_at (fs : FileSys) (p : string) : Z :=
  match getsize fs p with Done s => s | Fail _ => 0 end.

Definition sizes_at (fs : FileSys) (l : list string) : Z :=
  fold_right (fun p acc => size_at fs p + acc) 0 l.

Lemma sizes_at_delete (fs : FileSys) q l :
  q ∉ l -> sizes_at (delete q fs) l = sizes_at fs l.
Proof.
  induction l as [|p l IH]; intros Hnin; [reflexivity|].
  apply not_elem_of_cons in Hnin as [Hne Hnin]. simpl. rewrite IH by assumption.
  unfold size_at, getsize, os_stat. by rewrite lookup_delete_ne.
Qed.

(** Distinct paths that can all be deleted are all deleted, without an
    error. *)
Lemma delete_loop_all l :
  forall (fs : FileSys) n sz errs,
    NoDup l -> (forall p, p ∈ l -> removable fs p) ->
    exists fs',
      delete_loop l fs n sz errs
      = (fs', n + Z.of_nat (length l), sz + sizes_at fs l, errs).
Proof.
  induction l as [|q l IH]; intros fs n sz errs Hnd Hall.
  - exists fs. simpl. by rewrite !Z.add_0_r.
  - apply NoDup_cons in Hnd as [Hq Hnd].
    destruct (Hall q) as (f & stat & Hf & Hstat & Hremove); [left|].
    rewrite delete_loop_cons, Hf, Hstat, Hremove.
    destruct (IH (delete q fs) (n + 1) (sz + st_size stat) errs Hnd) as [fs' Hrun].
    { intros p Hp. destruct (Hall p) as (f' & stat' & Hf' & Hrest); [by right|].
      exists f', stat'. rewrite lookup_delete_ne; [done|]. intros ->. contradiction. }
    exists fs'. rewrite Hrun, sizes_at_delete by assumption.
    cbn [sizes_at fold_right length]. fold (sizes_at fs l).
    unfold size_at at 1, getsize, os_stat. rewrite Hf, Hstat.
    replace (n + 1 + Z.of_nat (length l)) with (n + Z.of_nat (S (length l))) by lia.
    by rewrite Z.add_assoc.
Qed.

Lemma sizes_at_app (fs : FileSys) l l' :
  sizes_at fs (l ++ l') = sizes_at fs l + sizes_at fs l'.
Proof. induction l as [|p l IH]; simpl; [reflexivity|]. rewrite IH. lia. Qed.

Lemma sizes_at_members (fs : FileSys) (ms : list FileInfo) :
  Forall (fun m => getsize fs (fi_path m) = Done (fi_size m)) ms ->
  sizes_at fs (map fi_path ms) = sum_sizes ms.
Proof.
  induction 1 as [|m ms Hm _ IH]; simpl; [reflexivity|].
  rewrite IH. unfold size_at. by rewrite Hm.
Qed.

Lemma sizes_at_offered (fs : FileSys) (d : Dict) :
  Forall (fun kv => Forall (fun m => getsize fs (fi_path m) = Done (fi_size m)) (snd kv)) d ->
  sizes_at fs (offered_for_deletion d) = reclaimable d.
Proof.
  induction 1 as [|[h g] d Hg _ IH]; [reflexivity|].
  unfold offered_for_deletion in *. cbn [flat_map reclaimable fold_right snd].
  fold (reclaimable d). rewrite sizes_at_app, IH, sizes_at_members; [reflexivity|].
  simpl in Hg. destruct g; [constructor|by apply Forall_cons in Hg as [_ ?]].
Qed.

(** Deleting what the results view offers.  When the offered paths are
    distinct and [os.remove] succeeds on each, every one is deleted without
    an error: the count is the [total_duplicates] of the summary and the
    size freed is the reclaimable size the scan computed. *)
Theorem deleting_offered_files_frees_reclaimable_size
    (fs : FileSys) (extensions : option (list string)) (min_size : Z)
    (directory : string) (tree : DirTree) (self self' : Finder) (duplicates : Dict) :
  scan_directory fs extensions min_size directory tree self = (Ret duplicates, self') ->
  NoDup (offered_for_deletion duplicates) ->
  (forall p, p ∈ offered_for_deletion duplicates ->
     exists f, fs !! p = Some f /\ f_remove f = Done tt) ->
  let result :=
    fst (fst (delete_selected_duplicates (offered_for_deletion duplicates) self' fs)) in
  deleted_files result = total_duplicates (get_duplicate_summary self')
  /\ deleted_size_mb result = truediv (total_duplicate_size self') (1024 ^ 2)
  /\ errors result = [].
Proof.
  intros Hscan Hnd Hremove.
  destruct (scan_directory_facts fs extensions min_size directory tree self)
    as (duplicates' & self'' & Hrun & Hfacts).
  rewrite Hscan in Hrun. injection Hrun as <- <-.
  assert (Forall (fun kv => Forall (recorded fs (fst kv)) (snd kv)
                            /\ (2 <= length (snd kv))%nat) duplicates) as Hgroups.
  { rewrite Forall_forall. intros [h g] Hin.
    destruct (facts_groups _ _ _ _ _ _ _ Hfacts h g Hin) as (_ & _ & _ & Hlen & Hrec & _).
    simpl. split; [assumption|lia]. }
  assert (forall h m, recorded fs h m ->
            getsize fs (fi_path m) = Done (fi_size m)
            /\ exists f stat, fs !! fi_path m = Some f /\ f_stat f = Done stat) as Hinfo.
  { intros h m [_ Hm]. unfold get_file_info, getsize, os_stat in *.
    destruct (fs !! fi_path m) as [f|]; [|discriminate].
    destruct (f_stat f) as [stat|] eqn:Hstat; [|discriminate].
    injection Hm as Hm. apply (f_equal fi_size) in Hm. simpl in Hm.
    split; [by rewrite Hm|by exists f, stat]. }
  assert (forall p, p ∈ offered_for_deletion duplicates -> removable fs p) as Hall.
  { intros p Hp. destruct (Hremove p Hp) as (f & Hf & Hrem).
    unfold offered_for_deletion in Hp.
    apply list_elem_of_In, in_flat_map in Hp as ([h g] & Hg & Hp).
    apply in_map_iff in Hp as (m & <- & Hm). simpl in Hm.
    rewrite Forall_forall in Hgroups.
    destruct (Hgroups (h, g) ltac:(by apply list_elem_of_In)) as [Hrec _].
    simpl in Hrec. rewrite Forall_forall in Hrec.
    assert (m ∈ g) as Hmg
      by (destruct g; [inversion Hm|right; by apply list_elem_of_In]).
    destruct (Hinfo h m (Hrec m Hmg)) as (_ & f' & stat & Hf' & Hstat).
    rewrite Hf in Hf'. injection Hf' as <-. by exists f, stat. }
  unfold delete_selected_duplicates.
  destruct (delete_loop_all (offered_for_deletion duplicates) fs 0 0 [] Hnd Hall)
    as [fs' ->].
  cbn [fst deleted_files deleted_size_mb errors].
  rewrite sizes_at_offered.
  2:{ eapply Forall_impl; [exact Hgroups|]. intros [h g] [Hrec _]. simpl in *.
      eapply Forall_impl; [exact Hrec|]. intros m Hm. by apply (Hinfo h). }
  rewrite (facts_size _ _ _ _ _ _ _ Hfacts).
  split; [|by split].
  destruct (total_duplicates_sum duplicates 0) as [Hsum _].
  { eapply Forall_impl; [exact Hgroups|]. by intros kv [_ ?]. }
  unfold get_duplicate_summary. rewrite (facts_found _ _ _ _ _ _ _ Hfacts).
  destruct duplicates as [|kv rest]; [reflexivity|].
  cbn [total_duplicates]. rewrite Hsum. lia.
Qed.

End WithLibraries.

(** *** The theorems at given inputs *)

(** A stand-in for [hashlib.md5] that looks at the first byte only: the
    digests of the one-byte contents it knows, and one more for the rest. *)
Definition stub_new : option Byte.byte := None.

Definition stub_update (h : option Byte.byte) (c : list Byte.byte) : option Byte.byte :=
  match h with
  | Some b => Some b
  | None => head c
  end.

Definition stub_hexdigest (h : option Byte.byte) : string :=
  match h with
  | None => "d41d8cd98f00b204e9800998ecf8427e"
  | Some Byte.x58 => "02129bb861061d1a052c592e2dc6b383"
  | Some Byte.x59 => "57cec4137b614c87cb4e24a3d003a3e0"
  | Some _ => "93b885adfe0da089cdf634904fd59f71"
  end%string.

Definition stub_ctime (t : Z) : string := "Thu Jan  1 00:00:00 1970".
Definition stub_truediv (a b : Z) : Z * Z := (a, b).

(** A file of 25600 chunks of 4096 bytes. *)
Definition chunk_4k : list Byte.byte := repeat Byte.x00 (Z.to_nat 4096).
Definition chunks_100MiB : list (list Byte.byte) := repeat chunk_4k (Z.to_nat 25600).
Definition file_100MiB : File :=
  mkFile (Done (mkStat (100 * 1024 * 1024) 0 0 0))
         (Done (map Chunk chunks_100MiB)) (Done tt).
Definition fs_100MiB : FileSys := {[ "/data/big.iso"%string := file_100MiB ]}.

Lemma total_length_repeat c n :
  total_length (repeat c n) = Z.of_nat n * Z.of_nat (length c).
Proof.
  induction n as [|n IH]; [reflexivity|].
  change (repeat c (S n)) with (c :: repeat c n).
  change (total_length (c :: repeat c n))
    with (Z.of_nat (length c) + total_length (repeat c n)).
  rewrite IH. lia.
Qed.

Lemma nonempty_chunks_repeat c n :
  length c <> 0%nat -> nonempty_chunks (repeat c n) = true.
Proof.
  intros Hc. induction n as [|n IH]; [reflexivity|].
  unfold nonempty_chunks in *. simpl. rewrite IH.
  by destruct (Nat.eqb_spec (length c) 0).
Qed.

Lemma hash_at_cutoff_witness :
  calculate_file_hash stub_new stub_update stub_hexdigest fs_100MiB "/data/big.iso"
  = Some (stub_hexdigest (fold_left stub_update chunks_100MiB stub_new)).
Proof.
  apply (hash_at_cutoff_is_computed stub_new stub_update stub_hexdigest
           fs_100MiB "/data/big.iso" chunks_100MiB).
  - reflexivity.
  - reflexivity.
  - apply nonempty_chunks_repeat. unfold chunk_4k. rewrite repeat_length. lia.
  - unfold chunks_100MiB, chunk_4k.
    rewrite total_length_repeat, repeat_length, !Z2Nat.id by lia. reflexivity.
Defined.

(** Scenario A on disk: [a.txt] of 2020-01-01 and [b.txt] of 2023-01-01 hold
    "X", [c.txt] holds "Y". *)
Definition stat_2020 : Stat := mkStat 1 1577836800 1577836800 1577836800.
Definition stat_2023 : Stat := mkStat 1 1672531200 1672531200 1672531200.

Definition fs_scenario_A : FileSys :=
  <[ "/d/a.txt"%string := mkFile (Done stat_2020) (Done [Chunk [Byte.x58]]) (Done tt) ]>
  (<[ "/d/b.txt"%string := mkFile (Done stat_2023) (Done [Chunk [Byte.x58]]) (Done tt) ]>
  (<[ "/d/c.txt"%string := mkFile (Done stat_2023) (Done [Chunk [Byte.x59]]) (Done tt) ]> ∅)).

Lemma scenario_A_witness :
  exists self',
    scan_directory stub_new stub_update stub_hexdigest stub_ctime stub_truediv
                   fs_scenario_A None 0 "/d" scenario_A_tree init
    = (Ret [("02129bb861061d1a052c592e2dc6b383"%string,
             [file_info stub_ctime stub_truediv "/d/b.txt" stat_2023;
              file_info stub_ctime stub_truediv "/d/a.txt" stat_2020])], self')
    /\ total_duplicate_size self' = 1.
Proof.
  apply (proj2 (reclaimable_size_is_sum_of_non_first_members
                  stub_new stub_update stub_hexdigest stub_ctime stub_truediv)
               fs_scenario_A [Byte.x58] [Byte.x59] stat_2020 stat_2023 stat_2023 init);
    try reflexivity; try discriminate; unfold max_file_size; simpl; lia.
Defined.

(** A directory of 10001 files of one byte each. *)
Definition many_names : list string :=
  map (fun n => ("f" +:+ pretty n)%string) (seq 0 (Z.to_nat 10001)).

Definition small_file : File :=
  mkFile (Done (mkStat 1 0 0 0)) (Done [Chunk [Byte.x00]]) (Done tt).

Definition fs_many : FileSys :=
  list_to_map (map (fun name => (join "/big" name, small_file)) many_names).

Definition tree_many : DirTree := Dir [] many_names.

Lemma scan_stops_at_ceiling_witness :
  exists duplicates self',
    scan_directory stub_new stub_update stub_hexdigest stub_ctime stub_truediv
                   fs_many None 0 "/big" tree_many init
    = (Ret duplicates, self')
    /\ scanned_files self' = 10000
    /\ total_files self' = 10000
    /\ count_files_in_directory fs_many None 0 "/big" tree_many = 10000.
Proof.
  apply (scan_stops_at_ceiling stub_new stub_update stub_hexdigest stub_ctime stub_truediv
           fs_many None 0 "/big" tree_many init).
  vm_compute. reflexivity.
Defined.

(** A file of 200 MiB by its metadata. *)
Definition fs_large : FileSys :=
  {[ "/data/huge.bin"%string :=
       mkFile (Done (mkStat (200 * 1024 * 1024) 0 0 0)) (Done []) (Done tt) ]}.

Lemma unhashable_file_witness :
  calculate_file_hash stub_new stub_update stub_hexdigest fs_large "/data/huge.bin" = None
  /\ forall extensions min_size directory tree self,
       exists duplicates self',
         scan_directory stub_new stub_update stub_hexdigest stub_ctime stub_truediv
                        fs_large extensions min_size directory tree self
         = (Ret duplicates, self')
         /\ forall h g m, (h, g) ∈ duplicates -> m ∈ g -> fi_path m <> "/data/huge.bin"%string.
Proof.
  apply (unhashable_file_is_in_no_group stub_new stub_update stub_hexdigest
           stub_ctime stub_truediv fs_large "/data/huge.bin").
  apply (too_large fs_large "/data/huge.bin" (200 * 1024 * 1024)).
  - reflexivity.
  - unfold max_file_size. lia.
Defined.

(** Scenario A lies below the limit of the pre-count. *)
Lemma count_is_exact_witness :
  count_files_in_directory fs_scenario_A None 0 "/d" scenario_A_tree
  = eligible_file_count fs_scenario_A None 0 "/d" scenario_A_tree.
Proof.
  apply (count_is_exact_below_ceiling fs_scenario_A None 0 "/d" scenario_A_tree).
  vm_compute. discriminate.
Defined.

(** The two copies of Scenario A are found together. *)
Lemma equal_hashes_witness :
  exists duplicates self' g m1 m2,
    scan_directory stub_new stub_update stub_hexdigest stub_ctime stub_truediv
                   fs_scenario_A None 0 "/d" scenario_A_tree init
    = (Ret duplicates, self')
    /\ ("02129bb861061d1a052c592e2dc6b383"%string, g) ∈ duplicates
    /\ m1 ∈ g /\ fi_path m1 = join "/d" "a.txt"
    /\ m2 ∈ g /\ fi_path m2 = join "/d" "b.txt".
Proof.
  apply (equal_hashes_are_grouped stub_new stub_update stub_hexdigest stub_ctime stub_truediv
           fs_scenario_A None 0 "/d" scenario_A_tree init "/d" "/d" "a.txt" "b.txt"
           "02129bb861061d1a052c592e2dc6b383"
           ["a.txt"; "b.txt"; "c.txt"]%string ["a.txt"; "b.txt"; "c.txt"]%string).
  - vm_compute. discriminate.
  - apply list_elem_of_In. left. reflexivity.
  - apply list_elem_of_In. left. reflexivity.
  - reflexivity.
  - apply list_elem_of_In. left. reflexivity.
  - apply list_elem_of_In. right. left. reflexivity.
  - reflexivity.
  - vm_compute. discriminate.
  - reflexivity.
  - reflexivity.
  - discriminate.
Defined.

(** Deleting the older copy of Scenario A. *)
Lemma deleted_file_witness :
  let after := delete_selected_duplicates stub_truediv ["/d/a.txt"%string] init fs_scenario_A in
  snd after !! "/d/a.txt"%string = None
  /\ forall extensions min_size directory tree,
       exists duplicates self',
         scan_directory stub_new stub_update stub_hexdigest stub_ctime stub_truediv
                        (snd after) extensions min_size directory tree (snd (fst after))
         = (Ret duplicates, self')
         /\ forall h g m, (h, g) ∈ duplicates -> m ∈ g -> fi_path m <> "/d/a.txt"%string.
Proof.
  apply (deleted_file_is_in_no_later_group stub_new stub_update stub_hexdigest stub_ctime
           stub_truediv ["/d/a.txt"%string] init fs_scenario_A "/d/a.txt").
  - apply list_elem_of_In. left. reflexivity.
  - exists (mkFile (Done stat_2020) (Done [Chunk [Byte.x58]]) (Done tt)), stat_2020.
    repeat split; reflexivity.
Defined.

(** A file of 4096 bytes by its metadata whose reads bring 25601 chunks of
    4096 bytes. *)
Definition chunks_over_100MiB : list (list Byte.byte) := repeat chunk_4k (Z.to_nat 25601).

Definition growing_file : File :=
  mkFile (Done (mkStat 4096 0 0 0)) (Done (map Chunk chunks_over_100MiB ++ [])) (Done tt).

Definition fs_growing : FileSys := {[ "/data/app.log"%string := growing_file ]}.

Lemma growing_file_witness :
  calculate_file_hash stub_new stub_update stub_hexdigest fs_growing "/data/app.log" = None.
Proof.
  apply (hash_rejects_file_that_grows stub_new stub_update stub_hexdigest
           fs_growing "/data/app.log" 4096 chunks_over_100MiB []).
  - reflexivity.
  - reflexivity.
  - apply nonempty_chunks_repeat. unfold chunk_4k. rewrite repeat_length. lia.
  - unfold chunks_over_100MiB, chunk_4k.
    rewrite total_length_repeat, repeat_length, !Z2Nat.id by lia. lia.
Defined.

(** The session and the groups of Scenario A, and the deletion of what the
    view offers: the older copy. *)
Definition scenario_A_session : Finder :=
  snd (scan_directory stub_new stub_update stub_hexdigest stub_ctime stub_truediv
                      fs_scenario_A None 0 "/d" scenario_A_tree init).

Definition scenario_A_groups : Dict :=
  [("02129bb861061d1a052c592e2dc6b383"%string,
    [file_info stub_ctime stub_truediv "/d/b.txt" stat_2023;
     file_info stub_ctime stub_truediv "/d/a.txt" stat_2020])].

Lemma deleting_offered_files_witness :
  let result :=
    fst (fst (delete_selected_duplicates stub_truediv
                (offered_for_deletion scenario_A_groups) scenario_A_session fs_scenario_A)) in
  deleted_files result = total_duplicates (get_duplicate_summary stub_truediv scenario_A_session)
  /\ deleted_size_mb result = stub_truediv (total_duplicate_size scenario_A_session) (1024 ^ 2)
  /\ errors result = [].
Proof.
  apply (deleting_offered_files_frees_reclaimable_size
           stub_new stub_update stub_hexdigest stub_ctime stub_truediv
           fs_scenario_A None 0 "/d" scenario_A_tree init scenario_A_session scenario_A_groups).
  - vm_compute. reflexivity.
  - constructor; [apply not_elem_of_nil|constructor].
  - intros p Hp. apply list_elem_of_singleton in Hp as ->.
    exists (mkFile (Done stat_2020) (Done [Chunk [Byte.x58]]) (Done tt)).
    split; reflexivity.
Defined.


End DuplicateFinder.

(** ** browser_cleaner.py: the structured-store mutator *)

Module BrowserCleaner.

(** The disk: the content of each file, by path. *)
Abbreviation Disk := (gmap string (list Byte.byte)).

(** A statement of the method reads and writes the disk. *)
Abbreviation M := (St Disk).

Definition file_not_found (p : string) : Exn :=
  OSError (mkOSErr ENotFound ("No such file or directory: " +:+ p)).

(** [os.path.exists]. *)
Definition path_exists (p : string) : M bool :=
  fun d => (Ret (bool_decide (is_Some (d !! p))), d).

(** [shutil.copy2(src, dst)]. *)
Definition copy2 (src dst : string) : M unit :=
  fun d =>
    match d !! src with
    | Some content => (Ret tt, <[dst := content]> d)
    | None => (Raise (file_not_found src), d)
    end.

(** [shutil.move(src, dst)] of a file onto a file: [dst] is replaced. *)
Definition move (src dst : string) : M unit :=
  fun d =>
    match d !! src with
    | Some content => (Ret tt, <[dst := content]> (delete src d))
    | None => (Raise (file_not_found src), d)
    end.

(** [os.remove]. *)
Definition remove (p : string) : M unit :=
  fun d =>
    match d !! p with
    | Some _ => (Ret tt, delete p d)
    | None => (Raise (file_not_found p), d)
    end.

Section WithSqlite.

(** [sqlite3]: each call returns or raises, and leaves the store file with
    some content, whatever the outcome. *)
Context {Conn : Type}.
Variable sqlite3_connect : list Byte.byte -> Result Conn * list Byte.byte.
Variable cursor_execute : Conn -> string -> list Byte.byte -> Result Conn * list Byte.byte.
Variable conn_commit : Conn -> list Byte.byte -> Result Conn * list Byte.byte.
Variable conn_close : Conn -> list Byte.byte -> Result unit * list Byte.byte.

(** A call of the engine on the store at [db_path]. *)
Definition on_store {A} (db_path : string)
    (call : list Byte.byte -> Result A * list Byte.byte) : M A :=
  fun d =>
    let '(r, content) := call (default [] (d !! db_path)) in
    (r, <[db_path := content]> d).

(** The [DELETE] statements of a category. *)
Definition delete_statements (db_path data_type : string) (conn : Conn) : M Conn :=
  if String.eqb data_type "cookies" then
    on_store db_path (cursor_execute conn "DELETE FROM cookies")
  else if String.eqb data_type "history" then
    let! conn := on_store db_path (cursor_execute conn "DELETE FROM urls") in
    on_store db_path (cursor_execute conn "DELETE FROM visits")
  else if String.eqb data_type "downloads" then
    on_store db_path (cursor_execute conn "DELETE FROM downloads")
  else ret conn.

(** The [try] body after the backup copy: from [sqlite3.connect] to the
    removal of the backup. *)
Definition after_copy (db_path data_type backup_path : string) : M unit :=
  let! conn := on_store db_path sqlite3_connect in
  let! conn := delete_statements db_path data_type conn in
  let! conn := on_store db_path (conn_commit conn) in
  do! on_store db_path (conn_close conn) in
  let! still_there := path_exists backup_path in
  if still_there then remove backup_path else ret tt.

Definition _clear_sqlite_database (db_path data_type : string) : M unit :=
  let backup_path := (db_path +:+ ".backup")%string in
  try_except
    (do! copy2 db_path backup_path in
     after_copy db_path data_type backup_path)
    (fun e =>
       let! still_there := path_exists backup_path in
       do! (if still_there then move backup_path db_path else ret tt) in
       raise e).

(** *** Properties *)

Lemma length_append (s t : string) :
  String.length (s +:+ t) = (String.length s + String.length t)%nat.
Proof. induction s as [|c s IH]; simpl; [reflexivity|by rewrite IH]. Qed.

Lemma backup_path_differs (p : string) : (p +:+ ".backup")%string <> p.
Proof.
  intros H. apply (f_equal String.length) in H.
  rewrite length_append in H. simpl in H. lia.
Qed.

(** A statement leaves the file at [q] alone. *)
Definition untouched {A} (q : string) (m : M A) : Prop :=
  forall d r d', m d = (r, d') -> d' !! q = d !! q.

Lemma untouched_ret {A} q (a : A) : untouched q (ret a).
Proof. intros d r d' [= _ <-]. reflexivity. Qed.

Lemma untouched_bind {A B} q (m : M A) (k : A -> M B) :
  untouched q m -> (forall a, untouched q (k a)) -> untouched q (bind m k).
Proof.
  intros Hm Hk d r d' Hrun. unfold bind in Hrun.
  destruct (m d) as [[a|e] d1] eqn:Hmd.
  - rewrite (Hk a d1 r d' Hrun). by apply (Hm d (Ret a)).
  - injection Hrun as <- <-. by apply (Hm d (Raise e)).
Qed.

Lemma untouched_on_store {A} q db_path (call : list Byte.byte -> Result A * list Byte.byte) :
  q <> db_path -> untouched q (on_store db_path call).
Proof.
  intros Hne d r d' Hrun. unfold on_store in Hrun.
  destruct (call (default [] (d !! db_path))) as [r' content].
  injection Hrun as <- <-. by rewrite lookup_insert_ne.
Qed.

Lemma untouched_delete_statements q db_path data_type conn :
  q <> db_path -> untouched q (delete_statements db_path data_type conn).
Proof.
  intros Hne. unfold delete_statements.
  destruct (String.eqb data_type "cookies"); [by apply untouched_on_store|].
  destruct (String.eqb data_type "history").
  { apply untouched_bind; [|intros conn']; by apply untouched_on_store. }
  destruct (String.eqb data_type "downloads"); [by apply untouched_on_store|].
  apply untouched_ret.
Qed.

(** From [sqlite3.connect] to [conn.close()]. *)
Definition engine_calls (db_path data_type : string) : M unit :=
  let! conn := on_store db_path sqlite3_connect in
  let! conn := delete_statements db_path data_type conn in
  let! conn := on_store db_path (conn_commit conn) in
  on_store db_path (conn_close conn).

Lemma untouched_engine_calls q db_path data_type :
  q <> db_path -> untouched q (engine_calls db_path data_type).
Proof.
  intros Hne. unfold engine_calls.
  apply untouched_bind; [by apply untouched_on_store|intros conn].
  apply untouched_bind; [by apply untouched_delete_statements|intros conn'].
  apply untouched_bind; [by apply untouched_on_store|intros conn''].
  by apply untouched_on_store.
Qed.

(** The steps after the copy are the calls of the engine, then the removal
    of the backup; only the calls can raise. *)
Lemma after_copy_split db_path data_type backup_path d :
  after_copy db_path data_type backup_path d
  = match engine_calls db_path data_type d with
    | (Ret _, d') =>
        if bool_decide (is_Some (d' !! backup_path))
        then (Ret tt, delete backup_path d') else (Ret tt, d')
    | (Raise e, d') => (Raise e, d')
    end.
Proof.
  unfold after_copy, engine_calls, bind.
  destruct (on_store db_path sqlite3_connect d) as [[conn|e] d1]; [|reflexivity].
  destruct (delete_statements db_path data_type conn d1) as [[conn'|e] d2]; [|reflexivity].
  destruct (on_store db_path (conn_commit conn') d2) as [[conn''|e] d3]; [|reflexivity].
  destruct (on_store db_path (conn_close conn'') d3) as [[[]|e] d4]; [|reflexivity].
  unfold path_exists, remove. case_bool_decide as Hthere; [|reflexivity].
  destruct Hthere as [content Hcontent]. by rewrite Hcontent.
Qed.

Lemma after_copy_raises db_path data_type backup_path d e d' :
  after_copy db_path data_type backup_path d = (Raise e, d') ->
  engine_calls db_path data_type d = (Raise e, d').
Proof.
  rewrite after_copy_split.
  destruct (engine_calls db_path data_type d) as [[[]|e'] d1]; [|done].
  by case_bool_decide.
Qed.

(** The three ways a mutation fails that the protocol names. *)
Lemma connect_failure_raises db_path data_type backup_path d e content :
  sqlite3_connect (default [] (d !! db_path)) = (Raise e, content) ->
  after_copy db_path data_type backup_path d = (Raise e, <[db_path := content]> d).
Proof.
  intros H. unfold after_copy, bind, on_store. by rewrite H.
Qed.

Lemma delete_failure_raises db_path backup_path d conn c1 e c2 :
  sqlite3_connect (default [] (d !! db_path)) = (Ret conn, c1) ->
  cursor_execute conn "DELETE FROM cookies" c1 = (Raise e, c2) ->
  after_copy db_path "cookies" backup_path d = (Raise e, <[db_path := c2]> d).
Proof.
  intros Hconn Hexec. unfold after_copy, bind, on_store at 1. rewrite Hconn.
  unfold delete_statements. simpl. unfold on_store at 1.
  rewrite lookup_insert_eq. simpl. rewrite Hexec. by rewrite insert_insert_eq.
Qed.

Lemma commit_failure_raises db_path backup_path d conn c1 conn' c2 e c3 :
  sqlite3_connect (default [] (d !! db_path)) = (Ret conn, c1) ->
  cursor_execute conn "DELETE FROM cookies" c1 = (Ret conn', c2) ->
  conn_commit conn' c2 = (Raise e, c3) ->
  after_copy db_path "cookies" backup_path d = (Raise e, <[db_path := c3]> d).
Proof.
  intros Hconn Hexec Hcommit. unfold after_copy, bind, on_store at 1. rewrite Hconn.
  unfold delete_statements. simpl. unfold on_store at 1.
  rewrite lookup_insert_eq. simpl. rewrite Hexec.
  unfold on_store at 1. rewrite lookup_insert_eq. simpl. rewrite Hcommit.
  by rewrite !insert_insert_eq.
Qed.

(** The second statement of [history] failing after the first went through. *)
Lemma second_delete_failure_raises db_path backup_path d conn c1 conn' c2 e c3 :
  sqlite3_connect (default [] (d !! db_path)) = (Ret conn, c1) ->
  cursor_execute conn "DELETE FROM urls" c1 = (Ret conn', c2) ->
  cursor_execute conn' "DELETE FROM visits" c2 = (Raise e, c3) ->
  after_copy db_path "history" backup_path d = (Raise e, <[db_path := c3]> d).
Proof.
  intros Hconn Hurls Hvisits. unfold after_copy, bind at 1, on_store at 1. rewrite Hconn.
  unfold delete_statements. simpl. unfold bind, on_store.
  rewrite lookup_insert_eq. simpl. rewrite Hurls.
  rewrite lookup_insert_eq. simpl. rewrite Hvisits.
  by rewrite !insert_insert_eq.
Qed.


(** C1. When the backup copy succeeds and a later step of the mutation
    raises (the open of the database, a delete statement, the commit), the
    method raises that same exception, the store file holds again the bytes
    it held before the call, and no backup file is left. *)
Theorem failed_mutation_restores_store
    (db_path data_type : string) (d d1 : Disk) (content : list Byte.byte) (e : Exn) :
  d !! db_path = Some content ->
  after_copy db_path data_type (db_path +:+ ".backup")
             (<[(db_path +:+ ".backup")%string := content]> d) = (Raise e, d1) ->
  exists d',
    _clear_sqlite_database db_path data_type d = (Raise e, d')
    /\ d' !! db_path = Some content
    /\ d' !! (db_path +:+ ".backup")%string = None.
Proof.
  intros Hstore Hfail.
  pose proof (backup_path_differs db_path) as Hne.
  assert (d1 !! (db_path +:+ ".backup")%string = Some content) as Hbackup.
  { apply after_copy_raises in Hfail.
    rewrite (untouched_engine_calls _ db_path data_type Hne _ _ _ Hfail).
    apply lookup_insert_eq. }
  exists (<[db_path := content]> (delete (db_path +:+ ".backup")%string d1)).
  split; [|split].
  - unfold _clear_sqlite_database, try_except, bind at 1, copy2.
    rewrite Hstore, Hfail.
    unfold bind, path_exists, move, raise. rewrite Hbackup.
    rewrite bool_decide_eq_true_2 by eauto. by rewrite Hbackup.
  - apply lookup_insert_eq.
  - rewrite lookup_insert_ne by done. apply lookup_delete_eq.
Qed.

(** *** More about the mutation: success, other files, a missing store *)








(** When every call of the engine returns, the method returns, no backup
    file is left, and the store holds what the engine wrote. *)
Theorem successful_mutation_leaves_no_backup
    (db_path data_type : string) (d d1 : Disk) (content : list Byte.byte) :
  d !! db_path = Some content ->
  engine_calls db_path data_type
               (<[(db_path +:+ ".backup")%string := content]> d) = (Ret tt, d1) ->
  exists d',
    _clear_sqlite_database db_path data_type d = (Ret tt, d')
    /\ d' !! (db_path +:+ ".backup")%string = None
    /\ d' !! db_path = d1 !! db_path.
Proof.
  intros Hstore Hcalls.
  pose proof (backup_path_differs db_path) as Hne.
  assert (d1 !! (db_path +:+ ".backup")%string = Some content) as Hbackup.
  { rewrite (untouched_engine_calls _ db_path data_type Hne _ _ _ Hcalls).
    apply lookup_insert_eq. }
  exists (delete (db_path +:+ ".backup")%string d1). split; [|split].
  - unfold _clear_sqlite_database, try_except, bind at 1, copy2.
    rewrite Hstore, after_copy_split, Hcalls.
    by rewrite bool_decide_eq_true_2 by eauto.
  - apply lookup_delete_eq.
  - by rewrite lookup_delete_ne.
Qed.

(** A store that is not there.  The copy fails and its error is raised; the
    handler still looks for a backup, and a backup file left by an earlier
    run is moved to the place of the store. *)
Theorem missing_store_raises_and_installs_old_backup
    (db_path data_type : string) (d : Disk) :
  d !! db_path = None ->
  _clear_sqlite_database db_path data_type d
  = (Raise (file_not_found db_path),
     match d !! (db_path +:+ ".backup")%string with
     | Some old => <[db_path := old]> (delete (db_path +:+ ".backup")%string d)
     | None => d
     end).
Proof.
  intros Hmissing.
  unfold _clear_sqlite_database, try_except, bind at 1, copy2. rewrite Hmissing.
  unfold bind, path_exists, move, raise, ret.
  destruct (d !! (db_path +:+ ".backup")%string) as [old|] eqn:Hold.
  - rewrite bool_decide_eq_true_2 by eauto. by rewrite Hold.
  - rewrite bool_decide_eq_false_2; [reflexivity|]. by intros [? ?].
Qed.


End WithSqlite.

(** ** [_clean_directory_browser] and [_get_path_size] *)

(** What lies under a browser directory.  A file carries what
    [os.path.getsize] gives on it ([os.path.exists] holds when it gives a
    size) and what [os.remove] gives; a directory carries what [os.rmdir]
    gives once it is empty, and its entries in listing order.  Every
    directory can be listed. *)
Inductive Node :=
| FileNode (size : IO Z) (removal : IO unit)
| DirNode (rmdir : IO unit) (entries : list (string * Node)).

(** The two counters of the cleaner, and the [errors] list of the caller. *)
Record Cleaner := mkCleaner { cleaned_size : Z; cleaned_files : Z }.

Abbreviation Session := (Cleaner * list string)%type.

Definition count_file (file_size : Z) (s : Session) : Session :=
  (mkCleaner (cleaned_size s.1 + file_size) (cleaned_files s.1 + 1), s.2).

Definition cannot_delete (file_path : string) (e : OSErr) (s : Session) : Session :=
  (s.1, s.2 ++ [("Cannot delete " +:+ file_path +:+ ": " +:+ os_str e)%string]).

(** [for file in files]: the files of one directory. *)
Fixpoint remove_files (root : string) (entries : list (string * Node)) (s : Session)
    : list (string * Node) * Session :=
  match entries with
  | [] => ([], s)
  | (file, FileNode (Done file_size) (Done _)) :: rest =>
      remove_files root rest (count_file file_size s)
  | (file, FileNode (Done file_size) (Fail e)) :: rest =>
      let '(rest', s') := remove_files root rest (cannot_delete (join root file) e s) in
      ((file, FileNode (Done file_size) (Fail e)) :: rest', s')
  | entry :: rest =>
      let '(rest', s') := remove_files root rest s in
      (entry :: rest', s')
  end.

(** [for dir_name in dirs]: the directories found empty are removed, unless
    [os.rmdir] fails. *)
Fixpoint remove_empty_dirs (entries : list (string * Node)) : list (string * Node) :=
  match entries with
  | [] => []
  | (dir_name, DirNode (Done _) []) :: rest => remove_empty_dirs rest
  | entry :: rest => entry :: remove_empty_dirs rest
  end.

(** [os.walk(directory, topdown=False)] with the body of the loop: the
    directories below come first, then the files of the directory, then its
    empty directories. *)
Fixpoint clean_walk (root : string) (n : Node) (s : Session) : Node * Session :=
  match n with
  | FileNode _ _ => (n, s)
  | DirNode rmdir entries =>
      let below :=
        fix below (entries : list (string * Node)) (s : Session) :=
          match entries with
          | [] => ([], s)
          | (name, child) :: rest =>
              let '(child', s1) := clean_walk (join root name) child s in
              let '(rest', s2) := below rest s1 in
              ((name, child') :: rest', s2)
          end in
      let '(entries1, s1) := below entries s in
      let '(entries2, s2) := remove_files root entries1 s1 in
      (DirNode rmdir (remove_empty_dirs entries2), s2)
  end.

Definition clean_below (root : string) :=
  fix below (entries : list (string * Node)) (s : Session) :=
    match entries with
    | [] => ([], s)
    | (name, child) :: rest =>
        let '(child', s1) := clean_walk (join root name) child s in
        let '(rest', s2) := below rest s1 in
        ((name, child') :: rest', s2)
    end.

Definition _clean_directory_browser (directory : string) (n : Node)
    (self : Cleaner) (errors : list string) : Node * Session :=
  clean_walk directory n (self, errors).

(** The sizes of the files of one directory that exist. *)
Fixpoint file_sizes (entries : list (string * Node)) : Z :=
  match entries with
  | [] => 0
  | (_, FileNode (Done size) _) :: rest => size + file_sizes rest
  | _ :: rest => file_sizes rest
  end.

(** [os.walk(path)] with the sum of [_get_path_size]. *)
Fixpoint walk_size (n : Node) : Z :=
  match n with
  | FileNode _ _ => 0
  | DirNode _ entries =>
      file_sizes entries
      + (fix below (entries : list (string * Node)) :=
           match entries with
           | [] => 0
           | (_, child) :: rest => walk_size child + below rest
           end) entries
  end.

Definition size_below :=
  fix below (entries : list (string * Node)) :=
    match entries with
    | [] => 0
    | (_, child) :: rest => walk_size child + below rest
    end.

Definition _get_path_size (n : Node) : Z :=
  match n with
  | FileNode (Done size) _ => size
  | FileNode (Fail _) _ => 0
  | DirNode _ _ => walk_size n
  end.

(** The number of files that exist under a node. *)
Fixpoint file_count (entries : list (string * Node)) : Z :=
  match entries with
  | [] => 0
  | (_, FileNode (Done _) _) :: rest => 1 + file_count rest
  | _ :: rest => file_count rest
  end.

Fixpoint walk_count (n : Node) : Z :=
  match n with
  | FileNode _ _ => 0
  | DirNode _ entries =>
      file_count entries
      + (fix below (entries : list (string * Node)) :=
           match entries with
           | [] => 0
           | (_, child) :: rest => walk_count child + below rest
           end) entries
  end.

Definition count_below :=
  fix below (entries : list (string * Node)) :=
    match entries with
    | [] => 0
    | (_, child) :: rest => walk_count child + below rest
    end.

(** Nothing refuses: every file has a size and can be removed, every
    directory can be removed. *)
Fixpoint yields (n : Node) : bool :=
  match n with
  | FileNode (Done _) (Done _) => true
  | FileNode _ _ => false
  | DirNode (Done _) entries => forallb (fun entry => yields entry.2) entries
  | DirNode (Fail _) _ => false
  end.

Lemma Node_induction (P : Node -> Prop) :
  (forall size removal, P (FileNode size removal)) ->
  (forall rmdir entries, Forall (fun entry => P entry.2) entries -> P (DirNode rmdir entries)) ->
  forall n, P n.
Proof.
  intros Hfile Hdir. fix IH 1. intros [size removal|rmdir entries]; [apply Hfile|].
  apply Hdir. induction entries as [|[name child] rest IHrest]; constructor;
    [apply IH|apply IHrest].
Qed.

Lemma clean_walk_dir root rmdir entries s :
  clean_walk root (DirNode rmdir entries) s
  = let '(entries1, s1) := clean_below root entries s in
    let '(entries2, s2) := remove_files root entries1 s1 in
    (DirNode rmdir (remove_empty_dirs entries2), s2).
Proof. reflexivity. Qed.

Lemma walk_size_dir rmdir entries :
  walk_size (DirNode rmdir entries) = file_sizes entries + size_below entries.
Proof. reflexivity. Qed.

Lemma walk_count_dir rmdir entries :
  walk_count (DirNode rmdir entries) = file_count entries + count_below entries.
Proof. reflexivity. Qed.

(** What one run adds to the counters and to the list, against what it
    leaves on the disk. *)
Record Balance (size count : Z) (size' count' : Z) (s s' : Session) : Prop := {
  balance_size : cleaned_size s'.1 = cleaned_size s.1 + (size - size');
  balance_files : cleaned_files s'.1 = cleaned_files s.1 + (count - count');
  balance_errors : exists reported, s'.2 = s.2 ++ reported;
}.

Lemma Balance_refl size count s : Balance size count size count s s.
Proof. split; [lia|lia|exists []; by rewrite app_nil_r]. Qed.

Lemma Balance_trans a b a1 b1 a2 b2 a3 b3 s s1 s2 :
  Balance a b a1 b1 s s1 -> Balance a2 b2 a3 b3 s1 s2 ->
  Balance (a + a2) (b + b2) (a1 + a3) (b1 + b3) s s2.
Proof.
  intros [H1 H2 [r1 H3]] [H4 H5 [r2 H6]]. split; [lia|lia|].
  exists (r1 ++ r2). by rewrite H6, H3, app_assoc.
Qed.

Lemma Balance_eq a b a' b' c d c' d' s s' :
  Balance a b a' b' s s' -> a - a' = c - c' -> b - b' = d - d' ->
  Balance c d c' d' s s'.
Proof. intros [H1 H2 H3] Ha Hb. split; [lia|lia|exact H3]. Qed.

(** The loop over the files keeps the directories, and so what is below. *)
Lemma remove_files_spec root entries s :
  let '(entries', s') := remove_files root entries s in
  Balance (file_sizes entries) (file_count entries)
          (file_sizes entries') (file_count entries') s s'
  /\ size_below entries' = size_below entries
  /\ count_below entries' = count_below entries
  /\ length s'.2 = (length s.2 + Z.to_nat (file_count entries'))%nat
  /\ 0 <= file_count entries'.
Proof.
  revert s. induction entries as [|[name [size removal|rmdir sub]] rest IH]; intros s.
  - cbn. split; [apply Balance_refl|]. repeat split; lia.
  - destruct size as [file_size|e]; [destruct removal as [[]|e]|].
    + cbn [remove_files]. specialize (IH (count_file file_size s)).
      destruct (remove_files root rest (count_file file_size s)) as [rest' s'].
      destruct IH as ([H1 H2 [r H3]] & H4 & H5 & H6 & H7).
      split; [|repeat split; cbn in *; try lia; congruence].
      split; cbn in *; [lia|lia|by exists r].
    + cbn [remove_files]. specialize (IH (cannot_delete (join root name) e s)).
      destruct (remove_files root rest (cannot_delete (join root name) e s)) as [rest' s'].
      destruct IH as ([H1 H2 [r H3]] & H4 & H5 & H6 & H7).
      split; [|repeat split; cbn in *; try lia].
      * split; cbn in *; [lia|lia|]. eexists. rewrite H3, <- app_assoc. reflexivity.
      * rewrite H6, length_app. cbn. lia.
    + cbn [remove_files]. specialize (IH s).
      destruct (remove_files root rest s) as [rest' s'].
      destruct IH as ([H1 H2 [r H3]] & H4 & H5 & H6 & H7).
      split; [|repeat split; cbn in *; try lia].
      split; cbn in *; [lia|lia|by exists r].
  - cbn [remove_files]. specialize (IH s).
    destruct (remove_files root rest s) as [rest' s'].
    destruct IH as ([H1 H2 [r H3]] & H4 & H5 & H6 & H7).
    split; [|repeat split; cbn in *; try lia].
    split; cbn in *; [lia|lia|by exists r].
Qed.

(** Removing empty directories changes no size and no count. *)
Lemma remove_empty_dirs_spec entries :
  file_sizes (remove_empty_dirs entries) = file_sizes entries
  /\ file_count (remove_empty_dirs entries) = file_count entries
  /\ size_below (remove_empty_dirs entries) = size_below entries
  /\ count_below (remove_empty_dirs entries) = count_below entries.
Proof.
  induction entries as [|[name [size removal|rmdir sub]] rest (H1 & H2 & H3 & H4)];
    [done| |].
  - destruct size; cbn; repeat split; lia.
  - destruct rmdir as [[]|e]; [destruct sub|]; cbn in *; repeat split; lia.
Qed.

(** What exists under a node after the run is what the run could not
    delete: the counters grow by what has gone, and the list grows by one
    entry for each file that is left. *)
Lemma clean_walk_spec n : forall root s,
  let '(n', s') := clean_walk root n s in
  Balance (walk_size n) (walk_count n) (walk_size n') (walk_count n') s s'
  /\ length s'.2 = (length s.2 + Z.to_nat (walk_count n'))%nat
  /\ 0 <= walk_count n'.
Proof.
  induction n as [size removal|rmdir entries IH] using Node_induction; intros root s.
  - cbn. split; [apply Balance_refl|split; lia].
  - rewrite clean_walk_dir.
    assert (let '(entries1, s1) := clean_below root entries s in
            Balance (size_below entries) (count_below entries)
                    (size_below entries1) (count_below entries1) s s1
            /\ file_sizes entries1 = file_sizes entries
            /\ file_count entries1 = file_count entries
            /\ length s1.2 = (length s.2 + Z.to_nat (count_below entries1))%nat
            /\ 0 <= count_below entries1) as Hbelow.
    { clear rmdir. revert s.
      induction IH as [|[name child] rest Hchild _ IHrest]; intros s.
      - cbn. split; [apply Balance_refl|]. repeat split; lia.
      - cbn [clean_below]. specialize (Hchild (join root name) s).
        cbn [snd] in Hchild.
        destruct (clean_walk (join root name) child s) as [child' s1] eqn:Hwalk.
        specialize (IHrest s1). fold (clean_below root) in *.
        destruct (clean_below root rest s1) as [rest' s2].
        destruct Hchild as (Hb1 & Hl1 & Hc1).
        destruct IHrest as (Hb2 & Hs & Hc & Hl2 & Hc2).
        split; [exact (Balance_trans _ _ _ _ _ _ _ _ _ _ _ Hb1 Hb2)|].
        cbn [size_below count_below] in *.
        assert (file_sizes ((name, child') :: rest') = file_sizes ((name, child) :: rest)
                /\ file_count ((name, child') :: rest') = file_count ((name, child) :: rest))
          as [-> ->].
        { destruct child as [size removal|rmdir sub].
          - cbn in Hwalk. injection Hwalk as <- _.
            destruct size; cbn; split; congruence.
          - rewrite clean_walk_dir in Hwalk.
            destruct (clean_below (join root name) sub s) as [sub1 t1].
            destruct (remove_files (join root name) sub1 t1) as [sub2 t2].
            injection Hwalk as <- _. cbn. split; congruence. }
        repeat split; lia. }
    destruct (clean_below root entries s) as [entries1 s1].
    destruct Hbelow as (Hb1 & Hs1 & Hc1 & Hl1 & Hn1).
    pose proof (remove_files_spec root entries1 s1) as Hfiles.
    destruct (remove_files root entries1 s1) as [entries2 s2].
    destruct Hfiles as (Hb2 & Hs2 & Hc2 & Hl2 & Hn2).
    destruct (remove_empty_dirs_spec entries2) as (He1 & He2 & He3 & He4).
    rewrite !walk_size_dir, !walk_count_dir, He1, He2, He3, He4.
    split; [|split; [rewrite Hl2, Hl1; lia|lia]].
    eapply Balance_eq; [exact (Balance_trans _ _ _ _ _ _ _ _ _ _ _ Hb1 Hb2)|lia|lia].
Qed.

(** The size that [_get_path_size] measures before the cleaning of a
    directory is the size it measures after it plus what the cleaning adds
    to [cleaned_size]: the bytes reported as freed are the bytes that have
    left the directory. *)
Theorem cleaned_size_is_the_size_that_left
    (directory : string) (rmdir : IO unit) (entries : list (string * Node))
    (self : Cleaner) (errors : list string) :
  let '(after, (self', _)) :=
    _clean_directory_browser directory (DirNode rmdir entries) self errors in
  _get_path_size (DirNode rmdir entries)
  = _get_path_size after + (cleaned_size self' - cleaned_size self).
Proof.
  unfold _clean_directory_browser.
  pose proof (clean_walk_spec (DirNode rmdir entries) directory (self, errors)) as Hspec.
  pose proof (clean_walk_dir directory rmdir entries (self, errors)) as Hdir.
  destruct (clean_walk directory (DirNode rmdir entries) (self, errors))
    as [after [self' errors']].
  destruct Hspec as ([Hsize _ _] & _). cbn [fst] in Hsize.
  assert (_get_path_size after = walk_size after) as ->.
  { destruct (clean_below directory entries (self, errors)) as [? ?].
    destruct (remove_files directory l p) as [? ?]. by injection Hdir as -> _. }
  cbn [_get_path_size]. lia.
Qed.

(** Each file that exists under the directory is either deleted and
    counted in [cleaned_files], or left where it is and reported by one
    entry added to [errors]. *)
Theorem every_file_is_counted_or_reported
    (directory : string) (n : Node) (self : Cleaner) (errors : list string) :
  let '(after, (self', errors')) := _clean_directory_browser directory n self errors in
  cleaned_files self' = cleaned_files self + (walk_count n - walk_count after)
  /\ (exists reported, errors' = errors ++ reported
        /\ Z.of_nat (length reported) = walk_count after).
Proof.
  unfold _clean_directory_browser.
  pose proof (clean_walk_spec n directory (self, errors)) as Hspec.
  destruct (clean_walk directory n (self, errors)) as [after [self' errors']].
  destruct Hspec as ([_ Hfiles [reported Hrep]] & Hlen & Hpos).
  cbn [fst snd] in *. split; [exact Hfiles|].
  exists reported. split; [exact Hrep|].
  rewrite Hrep, length_app in Hlen. lia.
Qed.

Lemma remove_files_yields root entries s :
  forallb (fun entry => yields entry.2) entries = true ->
  (remove_files root entries s).2.2 = s.2
  /\ Forall (fun entry => exists rmdir sub, entry.2 = DirNode rmdir sub /\ yields entry.2 = true)
            (remove_files root entries s).1.
Proof.
  revert s. induction entries as [|[name [size removal|rmdir sub]] rest IH]; intros s Hall.
  - by cbn.
  - cbn in Hall. apply andb_true_iff in Hall as [Hn Hrest].
    destruct size as [file_size|]; [|done]. destruct removal as [[]|]; [|done].
    cbn [remove_files]. exact (IH _ Hrest).
  - cbn [forallb] in Hall. apply andb_true_iff in Hall as [Hn Hrest].
    cbn [remove_files]. specialize (IH s Hrest).
    destruct (remove_files root rest s) as [rest' s']. cbn [fst snd] in *.
    destruct IH as [-> Hdirs]. split; [done|]. constructor; [|exact Hdirs].
    cbn [snd]. eauto.
Qed.

(** When nothing refuses, the directory is left empty and nothing is added
    to [errors]. *)
Theorem cleaning_empties_a_directory_that_yields
    (directory : string) (rmdir : IO unit) (entries : list (string * Node))
    (self : Cleaner) (errors : list string) :
  yields (DirNode rmdir entries) = true ->
  exists self',
    _clean_directory_browser directory (DirNode rmdir entries) self errors
    = (DirNode rmdir [], (self', errors))
    /\ cleaned_size self' = cleaned_size self + _get_path_size (DirNode rmdir entries)
    /\ cleaned_files self' = cleaned_files self + walk_count (DirNode rmdir entries).
Proof.
  intros Hyields.
  assert (forall n root s, yields n = true ->
            match n with
            | FileNode _ _ => True
            | DirNode rmdir entries =>
                exists self', clean_walk root n s = (DirNode rmdir [], (self', s.2))
            end) as Hempty.
  { clear. induction n as [size removal|rmdir entries IH] using Node_induction;
      intros root s Hyields; [done|].
    rewrite clean_walk_dir. cbn [yields] in Hyields.
    destruct rmdir as [[]|]; [|done].
    assert (forall s, exists entries1 s1,
              clean_below root entries s = (entries1, s1) /\ s1.2 = s.2
              /\ forallb (fun entry => yields entry.2) entries1 = true
              /\ Forall (fun entry => forall rmdir sub, entry.2 = DirNode rmdir sub ->
                                        entry.2 = DirNode (Done tt) []) entries1)
      as Hbelow.
    { clear s. induction IH as [|[name child] rest Hchild _ IHrest]; intros s.
      - exists [], s. by cbn.
      - cbn [forallb] in Hyields. apply andb_true_iff in Hyields as [Hn Hrest].
        cbn [clean_below]. cbn [snd] in Hchild, Hn.
        specialize (Hchild (join root name) s Hn).
        destruct (IHrest Hrest) with
          (s := (clean_walk (join root name) child s).2)
          as (rest' & s2 & Hrun & Hs2 & Hall & Hdirs).
        fold (clean_below root).
        destruct child as [size removal|rmdir sub].
        + change (clean_walk (join root name) (FileNode size removal) s)
            with (FileNode size removal, s) in *. cbn [snd] in Hrun.
          cbv beta iota. rewrite Hrun. exists ((name, FileNode size removal) :: rest'), s2.
          split; [done|]. split; [done|]. split.
          * cbn [forallb snd]. by rewrite Hn, Hall.
          * constructor; [|done]. intros ? ? [=].
        + destruct Hchild as [self' Hchild]. rewrite Hchild in Hrun, Hs2 |- *.
          cbn [snd] in Hrun, Hs2. cbv beta iota. rewrite Hrun.
          exists ((name, DirNode rmdir []) :: rest'), s2.
          cbn [yields] in Hn. destruct rmdir as [[]|]; [|done].
          split; [done|]. split; [done|]. split.
          * cbn [forallb snd yields]. by rewrite Hall.
          * constructor; [|done]. by intros ? ? _. }
    destruct (Hbelow s) as (entries1 & s1 & -> & Hs1 & Hall & Hdirs).
    destruct (remove_files_yields root entries1 s1 Hall) as [Herr Hleft].
    assert (Forall (fun entry => entry.2 = DirNode (Done tt) [])
                   (remove_files root entries1 s1).1) as Hleft'.
    { clear -Hdirs Hleft Hall. revert s1 Hleft.
      induction Hdirs as [|[name child] rest Hd _ IHd]; intros s1 Hleft; [by cbn|].
      cbn [forallb] in Hall. apply andb_true_iff in Hall as [Hn Hrest].
      destruct child as [size removal|rmdir sub].
      - cbn in Hn. destruct size; [|done]. destruct removal as [[]|]; [|done].
        cbn [remove_files] in *. by apply IHd.
      - cbn [remove_files] in *.
        destruct (remove_files root rest s1) as [rest' s'] eqn:Hrun. cbn [fst] in *.
        apply Forall_cons in Hleft as [_ Hleft].
        specialize (IHd Hrest s1). rewrite Hrun in IHd. cbn [fst] in IHd.
        constructor; [exact (Hd _ _ eq_refl)|by apply IHd]. }
    destruct (remove_files root entries1 s1) as [entries2 s2]. cbn [fst snd] in *.
    exists s2.1. f_equal.
    - f_equal. clear -Hleft'. induction Hleft' as [|[name child] rest Hn _ IHl]; [done|].
      cbn in Hn. subst child. exact IHl.
    - destruct s2 as [c l]. cbn in *. congruence. }
  destruct (Hempty (DirNode rmdir entries) directory (self, errors) Hyields) as [self' Hrun].
  exists self'. unfold _clean_directory_browser. split; [exact Hrun|].
  pose proof (clean_walk_spec (DirNode rmdir entries) directory (self, errors)) as Hspec.
  rewrite Hrun in Hspec. destruct Hspec as ([Hsize Hfiles _] & _).
  cbn [fst] in *. cbn [_get_path_size].
  change (walk_size (DirNode rmdir [])) with 0 in Hsize.
  change (walk_count (DirNode rmdir [])) with 0 in Hfiles. split; lia.
Qed.


(** A cookie store, and an engine that finds the database locked at the
    first statement, after it has written to the file. *)
Definition database_is_locked : Exn := OtherException "database is locked".

Definition stub_connect (content : list Byte.byte) : Result unit * list Byte.byte :=
  (Ret tt, content).

Definition stub_execute (conn : unit) (sql : string) (content : list Byte.byte)
  : Result unit * list Byte.byte :=
  (Raise database_is_locked, tail content).

Definition stub_commit (conn : unit) (content : list Byte.byte)
  : Result unit * list Byte.byte :=
  (Ret tt, content).

Definition stub_close (conn : unit) (content : list Byte.byte)
  : Result unit * list Byte.byte :=
  (Ret tt, content).

Definition cookie_store : list Byte.byte := [Byte.x53; Byte.x51; Byte.x4c].

Definition disk_with_cookies : Disk := {[ "/p/cookies.sqlite"%string := cookie_store ]}.

Lemma failed_mutation_witness :
  exists d',
    _clear_sqlite_database stub_connect stub_execute stub_commit stub_close
                           "/p/cookies.sqlite" "cookies" disk_with_cookies
    = (Raise database_is_locked, d')
    /\ d' !! "/p/cookies.sqlite"%string = Some cookie_store
    /\ d' !! ("/p/cookies.sqlite" +:+ ".backup")%string = None.
Proof.
  eapply (failed_mutation_restores_store stub_connect stub_execute stub_commit stub_close
            "/p/cookies.sqlite" "cookies" disk_with_cookies).
  - reflexivity.
  - apply (delete_failure_raises stub_connect stub_execute stub_commit stub_close
             "/p/cookies.sqlite" ("/p/cookies.sqlite" +:+ ".backup")
             (<[("/p/cookies.sqlite" +:+ ".backup")%string := cookie_store]> disk_with_cookies)
             tt cookie_store database_is_locked (tail cookie_store));
      reflexivity.
Defined.


(** An engine whose statements succeed: a [DELETE] leaves an empty store. *)
Definition emptying_execute (conn : unit) (sql : string) (content : list Byte.byte)
  : Result unit * list Byte.byte :=
  (Ret tt, []).

Lemma successful_mutation_witness :
  exists d',
    _clear_sqlite_database stub_connect emptying_execute stub_commit stub_close
                           "/p/cookies.sqlite" "cookies" disk_with_cookies
    = (Ret tt, d')
    /\ d' !! ("/p/cookies.sqlite" +:+ ".backup")%string = None
    /\ d' !! "/p/cookies.sqlite"%string
       = ({[ "/p/cookies.sqlite"%string := [];
             "/p/cookies.sqlite.backup"%string := cookie_store ]} : Disk)
           !! "/p/cookies.sqlite"%string.
Proof.
  apply (successful_mutation_leaves_no_backup stub_connect emptying_execute stub_commit
           stub_close "/p/cookies.sqlite" "cookies" disk_with_cookies
           {[ "/p/cookies.sqlite"%string := [];
              "/p/cookies.sqlite.backup"%string := cookie_store ]} cookie_store).
  - reflexivity.
  - reflexivity.
Defined.



(** No store, and the backup an earlier run has left. *)
Definition disk_with_old_backup : Disk :=
  {[ "/p/cookies.sqlite.backup"%string := cookie_store ]}.

Lemma missing_store_witness :
  _clear_sqlite_database stub_connect stub_execute stub_commit stub_close
                         "/p/cookies.sqlite" "cookies" disk_with_old_backup
  = (Raise (file_not_found "/p/cookies.sqlite"),
     match disk_with_old_backup !! ("/p/cookies.sqlite" +:+ ".backup")%string with
     | Some old =>
         <["/p/cookies.sqlite"%string := old]>
           (delete ("/p/cookies.sqlite" +:+ ".backup")%string disk_with_old_backup)
     | None => disk_with_old_backup
     end).
Proof.
  apply (missing_store_raises_and_installs_old_backup stub_connect stub_execute stub_commit
           stub_close "/p/cookies.sqlite" "cookies" disk_with_old_backup).
  reflexivity.
Defined.

(** A cache directory with one file and one directory of one file. *)
Definition cache_entries : list (string * Node) :=
  [ ("data_0"%string, FileNode (Done 10) (Done tt));
    ("js"%string, DirNode (Done tt) [ ("index"%string, FileNode (Done 5) (Done tt)) ]) ].

Lemma cleaning_empties_witness :
  exists self',
    _clean_directory_browser "/p/Cache" (DirNode (Done tt) cache_entries) (mkCleaner 0 0) []
    = (DirNode (Done tt) [], (self', []))
    /\ cleaned_size self'
       = cleaned_size (mkCleaner 0 0) + _get_path_size (DirNode (Done tt) cache_entries)
    /\ cleaned_files self'
       = cleaned_files (mkCleaner 0 0) + walk_count (DirNode (Done tt) cache_entries).
Proof.
  apply (cleaning_empties_a_directory_that_yields "/p/Cache" (Done tt) cache_entries
           (mkCleaner 0 0) []).
  reflexivity.
Defined.


End BrowserCleaner.

(** ** system_utils.py: FileCleanup *)

Module FileCleanup.

(** The fields of a [FileCleanup] object.  [min_file_age] is
    [timedelta(hours=self.min_file_age_hours)], in microseconds, the unit of
    [datetime] arithmetic. *)
Record Cleanup := mkCleanup {
  cleaned_size : Z;
  cleaned_files : Z;
  skipped_files : Z;
  permission_errors : Z;
  in_use_errors : Z;
  min_file_age : Z
}.

(** [FileCleanup()] with the default age of one hour. *)
Definition init : Cleanup := mkCleanup 0 0 0 0 0 3600000000.

(** What a run of [clean_temp_files] works on: the object, its local list
    [errors], and the paths [_delete_file_with_retry] was called on, oldest
    first (not in the source). *)
Record Run := mkRun {
  self : Cleanup;
  errors : list string;
  delete_calls : list string
}.

(** What the system answers about one file when the loop reaches it. *)
Record Probe := mkProbe {
  p_exists : bool;                (* os.path.exists(file_path) *)
  p_mtime : Result Z;             (* datetime.fromtimestamp(os.stat(file_path).st_mtime) *)
  p_now : Z;                      (* datetime.now() at that moment *)
  p_getsize : Result Z;           (* os.path.getsize(file_path) *)
  p_chmod : nat -> Result unit;   (* os.chmod at the attempt of that number *)
  p_remove : nat -> Result unit   (* os.remove at the attempt of that number *)
}.

Abbreviation M := (St Run).

Definition update_self (f : Cleanup -> Cleanup) : M unit :=
  fun run => (Ret tt, mkRun (f (self run)) (errors run) (delete_calls run)).

Definition add_cleaned (file_size : Z) (c : Cleanup) : Cleanup :=
  mkCleanup (cleaned_size c + file_size) (cleaned_files c + 1) (skipped_files c)
            (permission_errors c) (in_use_errors c) (min_file_age c).

Definition add_skipped (c : Cleanup) : Cleanup :=
  mkCleanup (cleaned_size c) (cleaned_files c) (skipped_files c + 1)
            (permission_errors c) (in_use_errors c) (min_file_age c).

Definition add_permission_error (c : Cleanup) : Cleanup :=
  mkCleanup (cleaned_size c) (cleaned_files c) (skipped_files c)
            (permission_errors c + 1) (in_use_errors c) (min_file_age c).

Definition add_in_use_error (c : Cleanup) : Cleanup :=
  mkCleanup (cleaned_size c) (cleaned_files c) (skipped_files c)
            (permission_errors c) (in_use_errors c + 1) (min_file_age c).

Definition reset_counters (c : Cleanup) : Cleanup :=
  mkCleanup 0 0 0 0 0 (min_file_age c).

(** [if len(errors) < limit: errors.append(message)]. *)
Definition append_error_below (limit : Z) (message : string) : M unit :=
  fun run =>
    if Z.of_nat (length (errors run)) <? limit
    then (Ret tt, mkRun (self run) (errors run ++ [message]) (delete_calls run))
    else (Ret tt, run).

Definition append_error (message : string) : M unit :=
  fun run => (Ret tt, mkRun (self run) (errors run ++ [message]) (delete_calls run)).

Definition lift {A} (r : Result A) : M A := fun run => (r, run).

(** *** _is_file_old_enough *)

Definition _is_file_old_enough (p : Probe) : M bool :=
  fun run =>
    match p_mtime p with
    | Ret mtime =>
        let file_age := p_now p - mtime in
        (Ret (file_age >? min_file_age (self run)), run)
    | Raise e =>
        if is_OSError e || is_ValueError e then (Ret false, run) else (Raise e, run)
    end.

(** *** _is_system_critical_file *)

Definition critical_patterns : list string :=
  [ "desktop.ini"; "thumbs.db"; ".sys"; ".dll"; ".exe"; "hiberfil.sys";
    "pagefile.sys"; "swapfile.sys" ]%string.

Definition critical_dirs : list string :=
  [ "system32"; "syswow64"; "windows\system"; "program files" ]%string.

Definition _is_system_critical_file (file_path : string) : bool :=
  let filename := lower (basename file_path) in
  existsb (fun pattern => contains pattern filename) critical_patterns
  || existsb (fun critical_dir => contains critical_dir (lower file_path)) critical_dirs.

(** *** _delete_file_with_retry *)

Definition in_use (e : Exn) : bool :=
  contains "WinError 32" (exn_str e)
  || contains "being used by another process" (exn_str e).

(** The [try] body of one attempt: on Windows [os.chmod], whose [OSError]
    is passed over, then [os.remove]. *)
Definition attempt_body (windows : bool) (p : Probe) (attempt : nat) : Result unit :=
  let chmod :=
    if windows then
      match p_chmod p attempt with
      | Ret _ => Ret tt
      | Raise e => if is_OSError e then Ret tt else Raise e
      end
    else Ret tt in
  match chmod with
  | Ret _ => p_remove p attempt
  | Raise e => Raise e
  end.

(** [for attempt in range(max_retries)], from a given attempt on. *)
Fixpoint retry_loop (windows : bool) (p : Probe) (max_retries : Z) (attempts : list nat)
  : Result bool :=
  match attempts with
  | [] => Ret false
  | attempt :: rest =>
      match attempt_body windows p attempt with
      | Ret _ => Ret true
      | Raise e =>
          if is_PermissionError e then
            if in_use e && (Z.of_nat attempt <? max_retries - 1)
            then retry_loop windows p max_retries rest
            else Raise e
          else if is_OSError e then Ret false
          else Ret false
      end
  end.

Definition _delete_file_with_retry (windows : bool) (p : Probe) (max_retries : Z)
  : Result bool :=
  retry_loop windows p max_retries (seq 0 (Z.to_nat max_retries)).

(** The call in [_clean_directory_smart], with its default
    [max_retries = 3]; the path is noted in [delete_calls]. *)
Definition call_delete (windows : bool) (file_path : string) (p : Probe) : M bool :=
  fun run =>
    (_delete_file_with_retry windows p 3,
     mkRun (self run) (errors run) (delete_calls run ++ [file_path])).

(** *** _clean_directory_smart *)

(** The [try] body for one file. *)
Definition try_clean (windows : bool) (file_path : string) (p : Probe) : M unit :=
  if negb (p_exists p) then ret tt
  else
    let! old_enough := _is_file_old_enough p in
    if negb old_enough then update_self add_skipped
    else if _is_system_critical_file file_path then update_self add_skipped
    else
      let! file_size := lift (p_getsize p) in
      let! deleted := call_delete windows file_path p in
      if deleted then update_self (add_cleaned file_size)
      else update_self add_skipped.

(** The body of [for file in files], with its three handlers. *)
Definition clean_file (windows : bool) (file_path : string) (p : Probe) : M unit :=
  try_except (try_clean windows file_path p)
    (fun e =>
       if is_PermissionError e then
         do! update_self add_permission_error in
         do! (if in_use e then update_self add_in_use_error else ret tt) in
         append_error_below 5 ("Cannot delete " +:+ file_path +:+ ": " +:+ exn_str e)
       else if is_OSError e then ret tt
       else
         append_error_below 10
           ("Unexpected error with " +:+ file_path +:+ ": " +:+ exn_str e)).

Fixpoint clean_files (windows : bool) (root : string) (files : list (string * Probe))
  : M unit :=
  match files with
  | [] => ret tt
  | (file, p) :: rest =>
      do! clean_file windows (join root file) p in
      clean_files windows root rest
  end.

(** What [os.walk] yields for a directory: its path and its files.
    [_cleanup_empty_directories] removes directories only and changes none
    of the counters: it is not part of the state. *)
Definition WalkEntry : Type := string * list (string * Probe).

Fixpoint clean_entries (windows : bool) (entries : list WalkEntry) : M unit :=
  match entries with
  | [] => ret tt
  | (root, files) :: rest =>
      do! clean_files windows root files in
      clean_entries windows rest
  end.

Definition _clean_directory_smart (windows : bool) (directory : string)
    (entries : list WalkEntry) : M unit :=
  try_except (clean_entries windows entries)
    (fun e => append_error ("Error accessing " +:+ directory +:+ ": " +:+ exn_str e)).

(** *** clean_temp_files *)

Fixpoint clean_dirs (windows : bool) (temp_dirs : list (string * list WalkEntry)) : M unit :=
  match temp_dirs with
  | [] => ret tt
  | (temp_dir, entries) :: rest =>
      do! try_except (_clean_directory_smart windows temp_dir entries)
            (fun e => append_error ("Error cleaning " +:+ temp_dir +:+ ": " +:+ exn_str e)) in
      clean_dirs windows rest
  end.

Section WithFloat.

Context {float : Type}.
Variable truediv : Z -> Z -> float.

(** The dictionary returned, without its [summary] text. *)
Record Report := mkReport {
  size_freed_mb : float;
  files_deleted : Z;
  report_skipped_files : Z;
  report_permission_errors : Z;
  report_in_use_errors : Z;
  report_errors : list string
}.

Definition clean_temp_files (windows : bool) (temp_dirs : list (string * list WalkEntry))
    (c : Cleanup) : Report * Run :=
  let run := mkRun (reset_counters c) [] [] in
  let run := snd (clean_dirs windows temp_dirs run) in
  ({| size_freed_mb := truediv (cleaned_size (self run)) (1024 ^ 2);
      files_deleted := cleaned_files (self run);
      report_skipped_files := skipped_files (self run);
      report_permission_errors := permission_errors (self run);
      report_in_use_errors := in_use_errors (self run);
      report_errors := errors run |}, run).

(** *** Which files are deleted *)

(** The age check passes on what the system answers about a file. *)
Definition aged_enough (min_age : Z) (p : Probe) : Prop :=
  exists mtime, p_mtime p = Ret mtime /\ p_now p - mtime > min_age.

(** The files a run visits, by full path. *)
Definition files_of (entries : list WalkEntry) : list (string * Probe) :=
  flat_map (fun entry => map (fun f => (join (fst entry) (fst f), snd f)) (snd entry)) entries.

Definition visited (temp_dirs : list (string * list WalkEntry)) : list (string * Probe) :=
  flat_map (fun temp_dir => files_of (snd temp_dir)) temp_dirs.

(** Every deletion noted so far is of a visited file that passed the age
    check. *)
Definition calls_checked (seen : list (string * Probe)) (min_age : Z)
    (calls : list string) : Prop :=
  forall file_path, file_path ∈ calls ->
    exists p, (file_path, p) ∈ seen /\ aged_enough min_age p.

(** A statement keeps the configured age and the check of the deletions. *)
Definition keeps_checked (seen : list (string * Probe)) (m : M unit) : Prop :=
  forall run r run', m run = (r, run') ->
    min_file_age (self run') = min_file_age (self run)
    /\ (calls_checked seen (min_file_age (self run)) (delete_calls run) ->
        calls_checked seen (min_file_age (self run)) (delete_calls run')).

Lemma calls_checked_snoc seen min_age calls file_path p :
  calls_checked seen min_age calls -> (file_path, p) ∈ seen -> aged_enough min_age p ->
  calls_checked seen min_age (calls ++ [file_path]).
Proof.
  intros Hcalls Hseen Haged q Hq. apply elem_of_app in Hq as [Hq|Hq].
  - by apply Hcalls.
  - apply list_elem_of_singleton in Hq as ->. by exists p.
Qed.

Lemma keeps_checked_bind seen (m : M unit) (k : unit -> M unit) :
  keeps_checked seen m -> (forall u, keeps_checked seen (k u)) ->
  keeps_checked seen (bind m k).
Proof.
  intros Hm Hk run r run' Hrun. unfold bind in Hrun.
  destruct (m run) as [[u|e] run1] eqn:Hmrun.
  - destruct (Hm _ _ _ Hmrun) as [Hage1 Hcalls1].
    destruct (Hk u _ _ _ Hrun) as [Hage2 Hcalls2].
    rewrite Hage1 in Hage2, Hcalls2. split; [assumption|]. auto.
  - injection Hrun as <- <-. by apply (Hm _ _ _ Hmrun).
Qed.

Lemma keeps_checked_try seen (m : M unit) (handler : Exn -> M unit) :
  keeps_checked seen m -> (forall e, keeps_checked seen (handler e)) ->
  keeps_checked seen (try_except m handler).
Proof.
  intros Hm Hh run r run' Hrun. unfold try_except in Hrun.
  destruct (m run) as [[u|e] run1] eqn:Hmrun.
  - injection Hrun as <- <-. by apply (Hm _ _ _ Hmrun).
  - destruct (Hm _ _ _ Hmrun) as [Hage1 Hcalls1].
    destruct (Hh e _ _ _ Hrun) as [Hage2 Hcalls2].
    rewrite Hage1 in Hage2, Hcalls2. split; [assumption|]. auto.
Qed.

Lemma keeps_checked_ret seen : keeps_checked seen (ret tt).
Proof. intros run r run' [= <- <-]. by split. Qed.

Lemma keeps_checked_update seen f :
  (forall c, min_file_age (f c) = min_file_age c) -> keeps_checked seen (update_self f).
Proof. intros Hf run r run' [= <- <-]. simpl. by rewrite Hf. Qed.

Lemma keeps_checked_append_below seen limit message :
  keeps_checked seen (append_error_below limit message).
Proof.
  intros run r run' Hrun. unfold append_error_below in Hrun.
  destruct (_ <? _); injection Hrun as <- <-; by split.
Qed.

Lemma keeps_checked_append seen message : keeps_checked seen (append_error message).
Proof. intros run r run' [= <- <-]. by split. Qed.

(** The [try] body calls [_delete_file_with_retry] only after the age check
    has passed. *)
Lemma try_clean_checked seen windows file_path p :
  (file_path, p) ∈ seen -> keeps_checked seen (try_clean windows file_path p).
Proof.
  intros Hseen run r run' Hrun. unfold try_clean in Hrun.
  destruct (p_exists p); simpl in Hrun; [|by injection Hrun as <- <-].
  unfold bind, _is_file_old_enough in Hrun.
  destruct (p_mtime p) as [mtime|e] eqn:Hmtime.
  - destruct (Z.gtb_spec (p_now p - mtime) (min_file_age (self run))) as [Hold|Hyoung];
      simpl in Hrun; [|by injection Hrun as <- <-].
    destruct (_is_system_critical_file file_path); [by injection Hrun as <- <-|].
    unfold lift, call_delete in Hrun.
    destruct (p_getsize p) as [file_size|e]; [|by injection Hrun as <- <-].
    assert (aged_enough (min_file_age (self run)) p) as Haged
      by (exists mtime; split; [assumption|lia]).
    destruct (_delete_file_with_retry windows p 3) as [[|]|e];
      injection Hrun as <- <-; simpl; (split; [reflexivity|]);
      intros Hcalls; by apply (calls_checked_snoc _ _ _ _ p).
  - destruct (is_OSError e || is_ValueError e); simpl in Hrun;
      by injection Hrun as <- <-.
Qed.

Lemma clean_file_checked seen windows file_path p :
  (file_path, p) ∈ seen -> keeps_checked seen (clean_file windows file_path p).
Proof.
  intros Hseen. unfold clean_file.
  apply keeps_checked_try; [by apply try_clean_checked|intros e].
  destruct (is_PermissionError e).
  - apply keeps_checked_bind; [by apply keeps_checked_update|intros _].
    apply keeps_checked_bind; [|intros _; apply keeps_checked_append_below].
    destruct (in_use e); [by apply keeps_checked_update|apply keeps_checked_ret].
  - destruct (is_OSError e); [apply keeps_checked_ret|apply keeps_checked_append_below].
Qed.

Lemma clean_files_checked seen windows root files :
  (forall f, f ∈ files -> (join root (fst f), snd f) ∈ seen) ->
  keeps_checked seen (clean_files windows root files).
Proof.
  induction files as [|[file p] files IH]; intros Hseen; simpl.
  - apply keeps_checked_ret.
  - apply keeps_checked_bind.
    + apply clean_file_checked. apply (Hseen (file, p)). left.
    + intros _. apply IH. intros f Hf. apply Hseen. by right.
Qed.

Lemma clean_entries_checked seen windows entries :
  (forall x, x ∈ files_of entries -> x ∈ seen) ->
  keeps_checked seen (clean_entries windows entries).
Proof.
  induction entries as [|[root files] entries IH]; intros Hseen; simpl.
  - apply keeps_checked_ret.
  - apply keeps_checked_bind.
    + apply clean_files_checked. intros f Hf. apply Hseen.
      unfold files_of. simpl. apply elem_of_app. left.
      apply list_elem_of_fmap. by exists f.
    + intros _. apply IH. intros x Hx. apply Hseen.
      unfold files_of. simpl. apply elem_of_app. by right.
Qed.

Lemma clean_dirs_checked seen windows temp_dirs :
  (forall x, x ∈ visited temp_dirs -> x ∈ seen) ->
  keeps_checked seen (clean_dirs windows temp_dirs).
Proof.
  induction temp_dirs as [|[temp_dir entries] temp_dirs IH]; intros Hseen; simpl.
  - apply keeps_checked_ret.
  - apply keeps_checked_bind.
    + apply keeps_checked_try; [|intros e; apply keeps_checked_append].
      unfold _clean_directory_smart.
      apply keeps_checked_try; [|intros e; apply keeps_checked_append].
      apply clean_entries_checked. intros x Hx. apply Hseen.
      unfold visited. simpl. apply elem_of_app. by left.
    + intros _. apply IH. intros x Hx. apply Hseen.
      unfold visited. simpl. apply elem_of_app. by right.
Qed.

(** *** A file that stays locked *)

(** The attempt of number [attempt] fails with the file-in-use error [e]. *)
Definition locked_on_attempt (windows : bool) (p : Probe) (attempt : nat) (e : Exn) : Prop :=
  attempt_body windows p attempt = Raise e
  /\ is_PermissionError e = true /\ in_use e = true.

(** After three locked attempts the last error is raised again. *)
Lemma retry_exhausted_raises windows p e0 e1 e2 :
  locked_on_attempt windows p 0 e0 ->
  locked_on_attempt windows p 1 e1 ->
  locked_on_attempt windows p 2 e2 ->
  _delete_file_with_retry windows p 3 = Raise e2.
Proof.
  intros (H0 & Hp0 & Hu0) (H1 & Hp1 & Hu1) (H2 & Hp2 & Hu2).
  unfold _delete_file_with_retry.
  change (seq 0 (Z.to_nat 3)) with [0; 1; 2]%nat.
  cbn [retry_loop]. rewrite H0, Hp0, Hu0. cbn [andb Z.of_nat Z.sub Z.ltb].
  simpl (0 <? 3 - 1). cbv iota.
  rewrite H1, Hp1, Hu1. simpl (in_use e1 && _)%bool.
  simpl (true && (Z.of_nat 1 <? 3 - 1))%bool. cbv iota.
  rewrite H2, Hp2, Hu2. reflexivity.
Qed.

(** C7. Every path on which [clean_temp_files] attempts a deletion is the
    path of a visited file whose age, taken at the check, was strictly
    greater than the configured minimum: no file of that age or younger is
    deleted, whatever its name. *)
Theorem deleted_files_passed_age_check
    (windows : bool) (temp_dirs : list (string * list WalkEntry)) (c : Cleanup) :
  let run := snd (clean_temp_files windows temp_dirs c) in
  forall file_path, file_path ∈ delete_calls run ->
    exists p mtime,
      (file_path, p) ∈ visited temp_dirs
      /\ p_mtime p = Ret mtime
      /\ p_now p - mtime > min_file_age c.
Proof.
  intros run file_path Hcall. subst run. unfold clean_temp_files in Hcall.
  cbn [snd] in Hcall.
  set (start := mkRun (reset_counters c) [] []) in Hcall.
  destruct (clean_dirs windows temp_dirs start) as [r run'] eqn:Hrun.
  cbn [snd] in Hcall.
  destruct (clean_dirs_checked (visited temp_dirs) windows temp_dirs (fun x Hx => Hx)
              start r run' Hrun) as [_ Hchecked].
  destruct (Hchecked (fun q Hq => match not_elem_of_nil q Hq with end) file_path Hcall)
    as (p & Hseen & mtime & Hmtime & Hage).
  exists p, mtime. repeat split; assumption.
Qed.

(** C2, as the code has it.  A file that reaches the deletion and whose three
    attempts all fail with the file-in-use error is not counted as skipped:
    the third error is raised to [_clean_directory_smart], which counts one
    permission error and one in-use error, and notes the file in [errors]
    while that list has fewer than 5 entries. *)
Theorem locked_file_counts_as_in_use_error
    (windows : bool) (file_path : string) (p : Probe) (run : Run)
    (mtime file_size : Z) (e0 e1 e2 : Exn) :
  p_exists p = true ->
  p_mtime p = Ret mtime ->
  p_now p - mtime > min_file_age (self run) ->
  _is_system_critical_file file_path = false ->
  p_getsize p = Ret file_size ->
  locked_on_attempt windows p 0 e0 ->
  locked_on_attempt windows p 1 e1 ->
  locked_on_attempt windows p 2 e2 ->
  let run' := snd (clean_file windows file_path p run) in
  skipped_files (self run') = skipped_files (self run)
  /\ cleaned_files (self run') = cleaned_files (self run)
  /\ cleaned_size (self run') = cleaned_size (self run)
  /\ permission_errors (self run') = permission_errors (self run) + 1
  /\ in_use_errors (self run') = in_use_errors (self run) + 1
  /\ errors run'
     = if Z.of_nat (length (errors run)) <? 5
       then errors run ++ [("Cannot delete " +:+ file_path +:+ ": " +:+ exn_str e2)%string]
       else errors run.
Proof.
  intros Hexists Hmtime Hage Hcritical Hsize H0 H1 H2.
  pose proof (retry_exhausted_raises windows p e0 e1 e2 H0 H1 H2) as Hretry.
  destruct H2 as (_ & Hperm & Huse).
  remember (clean_file windows file_path p run) as out eqn:Hout.
  unfold clean_file, try_except, try_clean in Hout.
  rewrite Hexists in Hout. cbn [negb] in Hout. cbv iota in Hout.
  unfold bind at 1, _is_file_old_enough in Hout. rewrite Hmtime in Hout.
  cbv zeta in Hout.
  destruct (Z.gtb_spec (p_now p - mtime) (min_file_age (self run))) as [_|Hle]; [|lia].
  cbn [negb] in Hout. cbv iota in Hout. rewrite Hcritical in Hout.
  unfold bind, lift, call_delete in Hout.
  rewrite Hsize, Hretry, Hperm, Huse in Hout.
  unfold update_self, append_error_below in Hout. cbn [self errors delete_calls] in Hout.
  destruct (Z.of_nat (length (errors run)) <? 5); subst out; cbn;
    repeat split; reflexivity.
Qed.


(** *** What a run counts, logs and deletes *)

(** The handlers of the loop body. *)
Definition handlers (file_path : string) (e : Exn) : M unit :=
  if is_PermissionError e then
    do! update_self add_permission_error in
    do! (if in_use e then update_self add_in_use_error else ret tt) in
    append_error_below 5 ("Cannot delete " +:+ file_path +:+ ": " +:+ exn_str e)
  else if is_OSError e then ret tt
  else
    append_error_below 10
      ("Unexpected error with " +:+ file_path +:+ ": " +:+ exn_str e).

Lemma clean_file_handlers windows file_path p :
  clean_file windows file_path p
  = try_except (try_clean windows file_path p) (handlers file_path).
Proof. reflexivity. Qed.

(** An entry of the last handler. *)
Definition unexpected (message : string) : bool :=
  startswith "Unexpected error with " message.

(** The list [errors]: ten entries at most, and from the sixth on only
    entries of the last handler. *)
Definition errors_capped (l : list string) : Prop :=
  (length l <= 10)%nat
  /\ forall i message, l !! i = Some message -> (5 <= i)%nat -> unexpected message = true.

(** What [n] more files may add to a run. *)
Record Progress (n : Z) (run run' : Run) : Prop := {
  progress_cleaned : cleaned_files (self run) <= cleaned_files (self run');
  progress_skipped : skipped_files (self run) <= skipped_files (self run');
  progress_permission : permission_errors (self run) <= permission_errors (self run');
  progress_in_use :
    0 <= in_use_errors (self run') - in_use_errors (self run)
      <= permission_errors (self run') - permission_errors (self run);
  progress_files :
    cleaned_files (self run') + skipped_files (self run') + permission_errors (self run')
    <= cleaned_files (self run) + skipped_files (self run) + permission_errors (self run) + n;
  progress_calls :
    exists new, delete_calls run' = delete_calls run ++ new
      /\ Forall (fun file_path => _is_system_critical_file file_path = false) new
      /\ cleaned_files (self run') - cleaned_files (self run) <= Z.of_nat (length new);
  progress_errors : errors_capped (errors run) -> errors_capped (errors run')
}.

Lemma Progress_refl run : Progress 0 run run.
Proof.
  split; try lia; [|done]. exists []. rewrite app_nil_r. repeat split; [constructor|cbn; lia].
Qed.

Lemma Progress_trans n m run run1 run2 :
  Progress n run run1 -> Progress m run1 run2 -> Progress (n + m) run run2.
Proof.
  intros [H1 H2 H3 H4 H5 (new1 & Hc1 & Hn1 & Hl1) H7] [G1 G2 G3 G4 G5 (new2 & Hc2 & Hn2 & Hl2) G7].
  split; try lia; [|auto].
  exists (new1 ++ new2). rewrite Hc2, Hc1, app_assoc. repeat split.
  - by apply Forall_app.
  - rewrite length_app. lia.
Qed.

Lemma Progress_le n m run run' : Progress n run run' -> n <= m -> Progress m run run'.
Proof. intros [H1 H2 H3 H4 H5 H6 H7] Hle. split; try assumption. lia. Qed.

Lemma errors_capped_snoc l message :
  errors_capped l ->
  (length l < 5)%nat \/ ((length l < 10)%nat /\ unexpected message = true) ->
  errors_capped (l ++ [message]).
Proof.
  intros [Hlen Hlate] Hnew. split.
  - rewrite length_app. cbn. lia.
  - intros i m Hi Hfive. destruct (decide (i < length l)%nat) as [Hlt|Hge].
    + rewrite lookup_app_l in Hi by assumption. by apply (Hlate i).
    + rewrite lookup_app_r in Hi by lia.
      destruct (i - length l)%nat as [|j] eqn:Hj; [|done].
      injection Hi as <-. destruct Hnew as [Hlow|[_ Hun]]; [lia|assumption].
Qed.

(** The deletion was called, and the file is not a critical one. *)
Definition called (file_path : string) (run : Run) : Run :=
  mkRun (self run) (errors run) (delete_calls run ++ [file_path]).

Lemma Progress_called file_path run :
  _is_system_critical_file file_path = false -> Progress 0 run (called file_path run).
Proof.
  intros Hfree. split; cbn; try lia; [|done].
  exists [file_path]. repeat split; [by repeat constructor|cbn; lia].
Qed.

Lemma Progress_skipped run :
  Progress 1 run (mkRun (add_skipped (self run)) (errors run) (delete_calls run)).
Proof.
  split; cbn; try lia; [|done].
  exists []. rewrite app_nil_r. repeat split; [constructor|cbn; lia].
Qed.

(** What the [try] body gives from a file that reaches the deletion. *)
Lemma try_clean_reaches_delete windows file_path p run file_size :
  p_exists p = true ->
  aged_enough (min_file_age (self run)) p ->
  _is_system_critical_file file_path = false ->
  p_getsize p = Ret file_size ->
  try_clean windows file_path p run
  = match _delete_file_with_retry windows p 3 with
    | Ret true =>
        (Ret tt, mkRun (add_cleaned file_size (self run)) (errors run)
                       (delete_calls run ++ [file_path]))
    | Ret false =>
        (Ret tt, mkRun (add_skipped (self run)) (errors run)
                       (delete_calls run ++ [file_path]))
    | Raise e => (Raise e, called file_path run)
    end.
Proof.
  intros Hexists (mtime & Hmtime & Hage) Hfree Hsize. unfold try_clean.
  rewrite Hexists. cbn [negb]. cbv iota.
  unfold bind at 1, _is_file_old_enough. rewrite Hmtime. cbv zeta.
  destruct (Z.gtb_spec (p_now p - mtime) (min_file_age (self run))) as [_|Hle]; [|lia].
  cbn [negb]. cbv iota. rewrite Hfree.
  unfold bind, lift, call_delete. rewrite Hsize.
  by destruct (_delete_file_with_retry windows p 3) as [[|]|e].
Qed.

(** The outcomes of the [try] body. *)
Lemma try_clean_outcome windows file_path p run :
  exists r run1,
    try_clean windows file_path p run = (r, run1)
    /\ ((r = Ret tt /\ Progress 1 run run1)
        \/ (exists e, r = Raise e /\ Progress 0 run run1
                      /\ self run1 = self run /\ errors run1 = errors run)).
Proof.
  unfold try_clean.
  destruct (p_exists p); cbn [negb]; cbv iota;
    [|exists (Ret tt), run; split; [done|left; split; [done|]];
      apply (Progress_le 0); [apply Progress_refl|lia]].
  unfold bind at 1, _is_file_old_enough.
  destruct (p_mtime p) as [mtime|e] eqn:Hmtime.
  - cbv zeta. destruct (p_now p - mtime >? min_file_age (self run)); cbn [negb]; cbv iota.
    + destruct (_is_system_critical_file file_path) eqn:Hfree.
      * eexists _, _. split; [reflexivity|left; split; [done|]].
        apply Progress_skipped.
      * unfold bind, lift, call_delete.
        destruct (p_getsize p) as [file_size|e].
        -- destruct (_delete_file_with_retry windows p 3) as [[|]|e].
           ++ eexists _, _. split; [reflexivity|left; split; [done|]].
              split; cbn; try lia; [|done].
              exists [file_path]. repeat split; [by repeat constructor|cbn; lia].
           ++ eexists _, _. split; [reflexivity|left; split; [done|]].
              split; cbn; try lia; [|done].
              exists [file_path]. repeat split; [by repeat constructor|cbn; lia].
           ++ eexists _, _. split; [reflexivity|right]. exists e.
              split; [done|]. split; [|done].
              by apply (Progress_called file_path run).
        -- eexists _, _. split; [reflexivity|right]. exists e.
           split; [done|]. split; [apply Progress_refl|done].
    + eexists _, _. split; [reflexivity|left; split; [done|]].
      apply Progress_skipped.
  - destruct (is_OSError e || is_ValueError e).
    + cbn [negb]. cbv iota. eexists _, _. split; [reflexivity|left; split; [done|]].
      apply Progress_skipped.
    + eexists _, _. split; [reflexivity|right]. exists e.
      split; [done|]. split; [apply Progress_refl|done].
Qed.

(** Each handler returns, and counts one file at most. *)
Lemma handlers_progress file_path e run :
  exists run', handlers file_path e run = (Ret tt, run')
    /\ Progress 1 run run' /\ cleaned_files (self run') = cleaned_files (self run)
    /\ skipped_files (self run') = skipped_files (self run).
Proof.
  unfold handlers. destruct (is_PermissionError e).
  - unfold bind, update_self, append_error_below, ret.
    destruct (in_use e); cbn [self errors delete_calls];
      destruct (Z.ltb_spec (Z.of_nat (length (errors run))) 5) as [Hlt|Hge];
      (eexists; split; [reflexivity|]); (split; [|done]); split; cbn; try lia;
      try done;
      first [ exists []; rewrite app_nil_r; split; [reflexivity|split; [constructor|cbn; lia]]
            | intros Hcap; apply errors_capped_snoc; [assumption|left; lia] ].
  - destruct (is_OSError e).
    + exists run. split; [done|]. split; [|done].
      apply (Progress_le 0); [apply Progress_refl|lia].
    + unfold append_error_below.
      destruct (Z.ltb_spec (Z.of_nat (length (errors run))) 10) as [Hlt|Hge].
      * eexists. split; [reflexivity|]. split; [|done].
        split; cbn; try lia.
        -- exists []. rewrite app_nil_r. repeat split; [constructor|cbn; lia].
        -- intros Hcap. apply errors_capped_snoc; [assumption|right]. split; [lia|reflexivity].
      * exists run. split; [done|]. split; [|done].
        apply (Progress_le 0); [apply Progress_refl|lia].
Qed.

Lemma clean_file_progress windows file_path p run :
  exists run', clean_file windows file_path p run = (Ret tt, run') /\ Progress 1 run run'.
Proof.
  rewrite clean_file_handlers. unfold try_except.
  destruct (try_clean_outcome windows file_path p run)
    as (r & run1 & -> & [[-> Hprog]|(e & -> & Hprog & _)]).
  - by exists run1.
  - destruct (handlers_progress file_path e run1) as (run' & -> & Hhandled & _).
    exists run'. split; [done|]. exact (Progress_trans 0 1 _ _ _ Hprog Hhandled).
Qed.

Lemma clean_files_progress windows root files : forall run,
  exists run', clean_files windows root files run = (Ret tt, run')
    /\ Progress (Z.of_nat (length files)) run run'.
Proof.
  induction files as [|[file p] files IH]; intros run.
  - exists run. split; [done|apply Progress_refl].
  - cbn [clean_files]. unfold bind.
    destruct (clean_file_progress windows (join root file) p run) as (run1 & -> & H1).
    destruct (IH run1) as (run' & -> & H2). exists run'. split; [done|].
    replace (Z.of_nat (length ((file, p) :: files))) with (1 + Z.of_nat (length files))
      by (cbn [length]; lia).
    exact (Progress_trans _ _ _ _ _ H1 H2).
Qed.

Lemma clean_entries_progress windows entries : forall run,
  exists run', clean_entries windows entries run = (Ret tt, run')
    /\ Progress (Z.of_nat (length (files_of entries))) run run'.
Proof.
  induction entries as [|[root files] entries IH]; intros run.
  - exists run. split; [done|apply Progress_refl].
  - cbn [clean_entries]. unfold bind.
    destruct (clean_files_progress windows root files run) as (run1 & -> & H1).
    destruct (IH run1) as (run' & -> & H2). exists run'. split; [done|].
    eapply Progress_le; [exact (Progress_trans _ _ _ _ _ H1 H2)|].
    unfold files_of. cbn [flat_map]. rewrite length_app, length_map. cbn [snd]. lia.
Qed.

Lemma clean_dirs_progress windows temp_dirs : forall run,
  exists run', clean_dirs windows temp_dirs run = (Ret tt, run')
    /\ Progress (Z.of_nat (length (visited temp_dirs))) run run'.
Proof.
  induction temp_dirs as [|[temp_dir entries] temp_dirs IH]; intros run.
  - exists run. split; [done|apply Progress_refl].
  - cbn [clean_dirs]. unfold bind, _clean_directory_smart, try_except.
    destruct (clean_entries_progress windows entries run) as (run1 & -> & H1).
    destruct (IH run1) as (run' & -> & H2). exists run'. split; [done|].
    eapply Progress_le; [exact (Progress_trans _ _ _ _ _ H1 H2)|].
    unfold visited. cbn [flat_map]. rewrite length_app. cbn [snd]. lia.
Qed.

Lemma clean_temp_files_progress windows temp_dirs c :
  Progress (Z.of_nat (length (visited temp_dirs)))
           (mkRun (reset_counters c) [] []) (clean_temp_files windows temp_dirs c).2.
Proof.
  unfold clean_temp_files. cbn [snd].
  destruct (clean_dirs_progress windows temp_dirs (mkRun (reset_counters c) [] []))
    as (run' & -> & Hprog). exact Hprog.
Qed.

(** A file whose name or path marks it as critical is never handed to the
    deletion, whatever its age. *)
Theorem critical_files_are_never_deleted
    (windows : bool) (temp_dirs : list (string * list WalkEntry)) (c : Cleanup) :
  Forall (fun file_path => _is_system_critical_file file_path = false)
         (delete_calls (snd (clean_temp_files windows temp_dirs c))).
Proof.
  destruct (clean_temp_files_progress windows temp_dirs c)
    as [_ _ _ _ _ (new & -> & Hnew & _) _]. exact Hnew.
Qed.

(** The counters of the report: none is negative, each visited file adds
    to one of deleted, skipped and permission errors at most, a file in use
    is also a permission error, and no file is counted as deleted without a
    call of the deletion. *)
Theorem report_counts_each_file_once_at_most
    (windows : bool) (temp_dirs : list (string * list WalkEntry)) (c : Cleanup) :
  let report := fst (clean_temp_files windows temp_dirs c) in
  0 <= files_deleted report
  /\ 0 <= report_skipped_files report
  /\ 0 <= report_in_use_errors report <= report_permission_errors report
  /\ files_deleted report + report_skipped_files report + report_permission_errors report
     <= Z.of_nat (length (visited temp_dirs))
  /\ files_deleted report
     <= Z.of_nat (length (delete_calls (snd (clean_temp_files windows temp_dirs c)))).
Proof.
  destruct (clean_temp_files_progress windows temp_dirs c)
    as [H1 H2 H3 H4 H5 (new & Hcalls & _ & Hlen) _].
  cbn [self reset_counters cleaned_files skipped_files permission_errors in_use_errors
       delete_calls] in *.
  rewrite app_nil_l in Hcalls. rewrite Hcalls.
  unfold clean_temp_files in *. cbn [fst snd files_deleted report_skipped_files
    report_in_use_errors report_permission_errors] in *. lia.
Qed.

(** The list [errors] of the report has ten entries at most, and every
    entry after the fifth is of the handler of unexpected errors: once the
    list holds five entries no permission error is noted any more. *)
Theorem error_list_is_capped
    (windows : bool) (temp_dirs : list (string * list WalkEntry)) (c : Cleanup) :
  let report := fst (clean_temp_files windows temp_dirs c) in
  (length (report_errors report) <= 10)%nat
  /\ forall i message,
       report_errors report !! i = Some message -> (5 <= i)%nat ->
       startswith "Unexpected error with " message = true.
Proof.
  destruct (clean_temp_files_progress windows temp_dirs c) as [_ _ _ _ _ _ Hcap].
  apply Hcap. split; [cbn; lia|]. intros i message Hi. done.
Qed.

(** *** The attempts of a deletion *)

Lemma retry_loop_released windows p max_retries k : forall a rest,
  (forall i, (a <= i < a + k)%nat -> exists e, locked_on_attempt windows p i e) ->
  attempt_body windows p (a + k) = Ret tt ->
  Z.of_nat (a + k) < max_retries ->
  retry_loop windows p max_retries (seq a (S k) ++ rest) = Ret true.
Proof.
  induction k as [|k IH]; intros a rest Hlocked Hfree Hlast.
  - cbn. rewrite Nat.add_0_r in Hfree. by rewrite Hfree.
  - change (seq a (S (S k))) with (a :: seq (S a) (S k)). cbn [app retry_loop].
    destruct (Hlocked a ltac:(lia)) as (e & -> & -> & ->).
    replace (Z.of_nat a <? max_retries - 1) with true by (symmetry; apply Z.ltb_lt; lia).
    cbn [andb]. apply IH.
    + intros i Hi. apply Hlocked. lia.
    + by replace (S a + k)%nat with (a + S k)%nat by lia.
    + lia.
Qed.

(** A file in use at the first attempts and released before the third is
    deleted, and counted as any deleted file: its size and one file are
    added, nothing is noted in [errors]. *)
Theorem file_released_between_attempts_is_deleted
    (windows : bool) (file_path : string) (p : Probe) (run : Run)
    (file_size : Z) (k : nat) :
  p_exists p = true ->
  aged_enough (min_file_age (self run)) p ->
  _is_system_critical_file file_path = false ->
  p_getsize p = Ret file_size ->
  (k <= 2)%nat ->
  (forall i, (i < k)%nat -> exists e, locked_on_attempt windows p i e) ->
  attempt_body windows p k = Ret tt ->
  clean_file windows file_path p run
  = (Ret tt, mkRun (add_cleaned file_size (self run)) (errors run)
                   (delete_calls run ++ [file_path])).
Proof.
  intros Hexists Haged Hfree Hsize Hk Hlocked Hreleased.
  rewrite clean_file_handlers. unfold try_except.
  rewrite (try_clean_reaches_delete _ _ _ _ file_size) by assumption.
  assert (_delete_file_with_retry windows p 3 = Ret true) as ->; [|reflexivity].
  unfold _delete_file_with_retry.
  replace (seq 0 (Z.to_nat 3)) with (seq 0 (S k) ++ seq (S k) (2 - k)).
  - apply retry_loop_released; [intros i Hi; apply Hlocked; lia|assumption|cbn; lia].
  - rewrite <- seq_app. f_equal. lia.
Qed.

(** A permission error that does not say the file is in use is not tried
    again: the first one is raised, and counted as a permission error
    only. *)
Theorem other_permission_error_is_not_retried
    (windows : bool) (file_path : string) (p : Probe) (run : Run)
    (file_size : Z) (e : Exn) :
  p_exists p = true ->
  aged_enough (min_file_age (self run)) p ->
  _is_system_critical_file file_path = false ->
  p_getsize p = Ret file_size ->
  attempt_body windows p 0 = Raise e ->
  is_PermissionError e = true ->
  in_use e = false ->
  let run' := snd (clean_file windows file_path p run) in
  self run' = add_permission_error (self run)
  /\ errors run'
     = if Z.of_nat (length (errors run)) <? 5
       then errors run ++ [("Cannot delete " +:+ file_path +:+ ": " +:+ exn_str e)%string]
       else errors run.
Proof.
  intros Hexists Haged Hfree Hsize Hfirst Hperm Huse.
  rewrite clean_file_handlers. unfold try_except.
  rewrite (try_clean_reaches_delete _ _ _ _ file_size) by assumption.
  assert (_delete_file_with_retry windows p 3 = Raise e) as ->.
  { unfold _delete_file_with_retry. change (seq 0 (Z.to_nat 3)) with [0; 1; 2]%nat.
    cbn [retry_loop]. by rewrite Hfirst, Hperm, Huse. }
  unfold handlers. rewrite Hperm, Huse.
  unfold bind, update_self, ret, append_error_below, called.
  cbn [self errors delete_calls].
  by destruct (Z.of_nat (length (errors run)) <? 5).
Qed.

(** A removal that fails with any other error, a file that has gone for
    one, is given up at once: the file is counted as skipped and nothing is
    noted in [errors]. *)
Theorem failed_removal_counts_as_skipped
    (windows : bool) (file_path : string) (p : Probe) (run : Run)
    (file_size : Z) (e : Exn) :
  p_exists p = true ->
  aged_enough (min_file_age (self run)) p ->
  _is_system_critical_file file_path = false ->
  p_getsize p = Ret file_size ->
  attempt_body windows p 0 = Raise e ->
  is_PermissionError e = false ->
  clean_file windows file_path p run
  = (Ret tt, mkRun (add_skipped (self run)) (errors run)
                   (delete_calls run ++ [file_path])).
Proof.
  intros Hexists Haged Hfree Hsize Hfirst Hperm.
  rewrite clean_file_handlers. unfold try_except.
  rewrite (try_clean_reaches_delete _ _ _ _ file_size) by assumption.
  assert (_delete_file_with_retry windows p 3 = Ret false) as ->; [|reflexivity].
  unfold _delete_file_with_retry. change (seq 0 (Z.to_nat 3)) with [0; 1; 2]%nat.
  cbn [retry_loop]. rewrite Hfirst, Hperm. by destruct (is_OSError e).
Qed.


(** *** The case of letters in the critical check *)










End WithFloat.

(** *** The theorems at given inputs *)

Definition stub_truediv (a b : Z) : Z * Z := (a, b).

(** The error Windows gives for a file another process holds open. *)
Definition file_in_use : Exn :=
  OSError (mkOSErr EPermission
    "[WinError 32] The process cannot access the file because it is being used by another process").

(** Two files modified two hours before the check: one that stays locked,
    one that can be removed. *)
Definition locked_probe : Probe :=
  mkProbe true (Ret 0) 7200000000 (Ret 10) (fun _ => Ret tt) (fun _ => Raise file_in_use).

Definition free_probe : Probe :=
  mkProbe true (Ret 0) 7200000000 (Ret 10) (fun _ => Ret tt) (fun _ => Ret tt).

Definition temp_with_locked_file : list (string * list WalkEntry) :=
  [ ("/tmp", [ ("/tmp", [ ("report.tmp", locked_probe); ("old.tmp", free_probe) ]) ]) ]%string.

Lemma locked_file_witness :
  let run' := snd (clean_file true "/tmp/report.tmp" locked_probe (mkRun init [] [])) in
  skipped_files (self run') = 0
  /\ cleaned_files (self run') = 0
  /\ cleaned_size (self run') = 0
  /\ permission_errors (self run') = 0 + 1
  /\ in_use_errors (self run') = 0 + 1
  /\ errors run'
     = [("Cannot delete " +:+ "/tmp/report.tmp" +:+ ": " +:+ exn_str file_in_use)%string].
Proof.
  apply (locked_file_counts_as_in_use_error true "/tmp/report.tmp" locked_probe
           (mkRun init [] []) 0 10 file_in_use file_in_use file_in_use);
    try reflexivity; repeat split; reflexivity.
Defined.

(** C2 as stated fails: the locked file of this run is reported as one
    permission error and one in-use error, with an entry in [errors], and is
    not among the skipped files. *)
Lemma locked_file_is_skipped_counterexample :
  (forall attempt, locked_on_attempt true locked_probe attempt file_in_use)
  /\ ~ (report_skipped_files (fst (clean_temp_files stub_truediv true temp_with_locked_file init)) = 1
        /\ report_errors (fst (clean_temp_files stub_truediv true temp_with_locked_file init)) = []
        /\ report_permission_errors
             (fst (clean_temp_files stub_truediv true temp_with_locked_file init)) = 0
        /\ report_in_use_errors
             (fst (clean_temp_files stub_truediv true temp_with_locked_file init)) = 0).
Proof.
  split.
  - intros attempt. repeat split; reflexivity.
  - intros (Hskipped & _). vm_compute in Hskipped. discriminate.
Qed.

Lemma deleted_files_witness :
  exists p mtime,
    ("/tmp/old.tmp"%string, p) ∈ visited temp_with_locked_file
    /\ p_mtime p = Ret mtime
    /\ p_now p - mtime > min_file_age init.
Proof.
  apply (deleted_files_passed_age_check stub_truediv true temp_with_locked_file init
           "/tmp/old.tmp").
  vm_compute. repeat constructor.
Defined.


(** A file another process releases after the first attempt. *)
Definition released_probe : Probe :=
  mkProbe true (Ret 0) 7200000000 (Ret 10) (fun _ => Ret tt)
          (fun attempt => match attempt with O => Raise file_in_use | S _ => Ret tt end).

Lemma released_file_witness :
  clean_file true "/tmp/report.tmp" released_probe (mkRun init [] [])
  = (Ret tt, mkRun (add_cleaned 10 init) [] ["/tmp/report.tmp"%string]).
Proof.
  apply (file_released_between_attempts_is_deleted true "/tmp/report.tmp" released_probe
           (mkRun init [] []) 10 1).
  - reflexivity.
  - exists 0. split; reflexivity.
  - reflexivity.
  - reflexivity.
  - lia.
  - intros i Hi. exists file_in_use. assert (i = 0%nat) as -> by lia.
    repeat split; reflexivity.
  - reflexivity.
Defined.

(** A file the user may not delete. *)
Definition access_denied : Exn :=
  OSError (mkOSErr EPermission "[WinError 5] Access is denied").

Definition denied_probe : Probe :=
  mkProbe true (Ret 0) 7200000000 (Ret 10) (fun _ => Ret tt) (fun _ => Raise access_denied).

Lemma access_denied_witness :
  let run' := snd (clean_file true "/tmp/report.tmp" denied_probe (mkRun init [] [])) in
  self run' = add_permission_error init
  /\ errors run'
     = [("Cannot delete " +:+ "/tmp/report.tmp" +:+ ": " +:+ exn_str access_denied)%string].
Proof.
  apply (other_permission_error_is_not_retried true "/tmp/report.tmp" denied_probe
           (mkRun init [] []) 10 access_denied).
  - reflexivity.
  - exists 0. split; reflexivity.
  - reflexivity.
  - reflexivity.
  - reflexivity.
  - reflexivity.
  - reflexivity.
Defined.

(** A file that has gone when the removal is tried. *)
Definition file_gone : Exn :=
  OSError (mkOSErr ENotFound "[WinError 2] The system cannot find the file specified").

Definition vanished_probe : Probe :=
  mkProbe true (Ret 0) 7200000000 (Ret 10) (fun _ => Ret tt) (fun _ => Raise file_gone).

Lemma vanished_file_witness :
  clean_file true "/tmp/report.tmp" vanished_probe (mkRun init [] [])
  = (Ret tt, mkRun (add_skipped init) [] ["/tmp/report.tmp"%string]).
Proof.
  apply (failed_removal_counts_as_skipped true "/tmp/report.tmp" vanished_probe
           (mkRun init [] []) 10 file_gone).
  - reflexivity.
  - exists 0. split; reflexivity.
  - reflexivity.
  - reflexivity.
  - reflexivity.
  - reflexivity.
Defined.


End FileCleanup.
